(** * The local embeddings controller of Cody (vscode/src/local-context)

    A shallow embedding of [LocalEmbeddingsController] and of [isDotCom]
    (lib/shared/src/sourcegraph-api/environments.ts).

    The controller is asynchronous TypeScript.  Its methods are written
    here in a small continuation monad over a type of tasks, so that
    every [await] is a point where the task is suspended and other work
    of the (single-threaded) extension host may run.  A scheduler
    delivers the host's events (method calls, the outcome of spawning
    cody-engine, replies to requests, notifications, microtasks) to a
    world made of the controller's fields, the promise store, the
    suspended tasks and the trace of observable effects.

    The file ends with the helpers of the end-to-end tests
    ([waitUntil], [getCodySidebar], [escapeToPath]), which are pure
    once the page they poll is given as the list of its states. *)

From stdpp Require Import gmap strings list fin_maps.
From Stdlib Require Import ZArith Lia DecimalString.

Local Open Scope string_scope.

(** ** JavaScript values that cross the engine boundary *)

(** An [Error] object; only its [message] is inspected by the controller. *)
Record JsError := mkError { message : string }.

(** A settled outcome: [inl v] fulfils, [inr e] rejects. *)
Definition Result (A : Type) : Type := (A + JsError)%type.

(** The response of a request, as far as the controller looks at it. *)
Inductive JsValue :=
| JUndefined
| JNull
| JBool (b : bool)
| JNumber (z : Z)
| JString (s : string)
| JObject (results : list string).

(** [!!v] *)
Definition truthy (v : JsValue) : bool :=
  match v with
  | JUndefined | JNull => false
  | JBool b => b
  | JNumber z => negb (z =? 0)%Z
  | JString s => negb (String.eqb s EmptyString)
  | JObject _ => true
  end.

(** Truthiness of a [string | undefined]. *)
Definition truthy_str (s : option string) : bool :=
  match s with
  | Some t => negb (String.eqb t EmptyString)
  | None => false
  end.

(** [a || b] on [string | undefined] operands. *)
Definition or_else (a b : option string) : option string :=
  if truthy_str a then a else b.

(** [token === this.accessToken] for [token : string | null] and
    [accessToken : string | undefined]: [null] (modelled by [None] on the
    left) is never strictly equal to [undefined] ([None] on the right). *)
Definition strict_eq (token accessToken : option string) : bool :=
  match token, accessToken with
  | Some t, Some a => String.eqb t a
  | _, _ => false
  end.

(** [re.test(s)] for a regular expression that is a literal text:
    [s] contains [pat]. *)
Fixpoint regex_test (pat s : string) : bool :=
  String.prefix pat s ||
  match s with
  | EmptyString => false
  | String _ s' => regex_test pat s'
  end.

(** The result of [Math.floor(a / b)] on integer operands: IEEE division
    by zero gives NaN or an infinity, which [Math.floor] leaves alone. *)
Inductive JsNum :=
| Finite (z : Z)
| PosInfinity
| NegInfinity
| NaN.

Definition floor_div (a b : Z) : JsNum :=
  if (b =? 0)%Z then
    if (a =? 0)%Z then NaN
    else if (0 <? a)%Z then PosInfinity else NegInfinity
  else Finite (a / b).

(** [x.toFixed(0)] *)
Definition toFixed0 (x : JsNum) : string :=
  match x with
  | Finite z => NilZero.string_of_int (Z.to_int z)
  | PosInfinity => "Infinity"
  | NegInfinity => "-Infinity"
  | NaN => "NaN"
  end.

(** ** environments.ts *)

(** What the controller takes from its surroundings: the URL parser, the
    process environment, the workspace and the testing configuration. *)
Record Host := {
  (** [new URL(url).origin]; [None] when the constructor throws. *)
  url_origin : string -> option string;
  (** [DOTCOM_URL.origin] *)
  DOTCOM_ORIGIN : string;
  (** [process.platform], [process.env.HOME], [process.env.LOCALAPPDATA] *)
  platform : string;
  env_HOME : string;
  env_LOCALAPPDATA : string;
  (** [vscode.workspace.workspaceFolders?.[0].uri.fsPath] *)
  workspaceFolder : option string;
  (** [LocalEmbeddingsConfig] *)
  testingLocalEmbeddingsModel : option string;
  testingLocalEmbeddingsEndpoint : option string;
  testingLocalEmbeddingsIndexLibraryPath : option string
}.

Definition isDotCom (host : Host) (url : string) : bool :=
  match url_origin host url with
  | Some origin => String.eqb origin (DOTCOM_ORIGIN host)
  | None => false
  end.

(** ** The controller's data *)

Record RepoState := mkRepoState {
  indexable : bool;
  isGit : bool;
  hasIndex : bool
}.

Record LastRepo := mkLastRepo {
  path : string;
  loadResult : bool
}.

(** A [vscode.StatusBarItem], as far as the controller drives it. *)
Record StatusBarItem := mkStatusBar {
  text : string;
  backgroundColor : option string;
  tooltip : option string;
  shown : bool
}.

(** [vscode.window.createStatusBarItem('cody-local-embeddings', Right, 0)] *)
Definition createStatusBarItem : StatusBarItem :=
  mkStatusBar EmptyString None None false.

(** Promises are named by their rank in the promise store. *)
Abbreviation PromiseId := nat (only parsing).

(** The [MessageHandler] of a spawned engine. *)
Abbreviation MessageHandler := nat (only parsing).

(** The mutable fields of [LocalEmbeddingsController]. *)
Record Controller := mkController {
  service : option PromiseId;
  serviceStarted : bool;
  accessToken : option string;
  endpointIsDotcom : bool;
  statusBar : option StatusBarItem;
  lastRepo : option LastRepo;
  repoState : gmap string RepoState;
  pathBeingIndexed : option string
}.

Definition new_controller : Controller :=
  mkController None false None false None None ∅ None.

Definition set_service (v : option PromiseId) (c : Controller) : Controller :=
  mkController v (serviceStarted c) (accessToken c) (endpointIsDotcom c)
    (statusBar c) (lastRepo c) (repoState c) (pathBeingIndexed c).
Definition set_serviceStarted (v : bool) (c : Controller) : Controller :=
  mkController (service c) v (accessToken c) (endpointIsDotcom c)
    (statusBar c) (lastRepo c) (repoState c) (pathBeingIndexed c).
Definition set_accessToken (v : option string) (c : Controller) : Controller :=
  mkController (service c) (serviceStarted c) v (endpointIsDotcom c)
    (statusBar c) (lastRepo c) (repoState c) (pathBeingIndexed c).
Definition set_endpointIsDotcom (v : bool) (c : Controller) : Controller :=
  mkController (service c) (serviceStarted c) (accessToken c) v
    (statusBar c) (lastRepo c) (repoState c) (pathBeingIndexed c).
Definition set_statusBar (v : option StatusBarItem) (c : Controller) : Controller :=
  mkController (service c) (serviceStarted c) (accessToken c) (endpointIsDotcom c)
    v (lastRepo c) (repoState c) (pathBeingIndexed c).
Definition set_lastRepo (v : option LastRepo) (c : Controller) : Controller :=
  mkController (service c) (serviceStarted c) (accessToken c) (endpointIsDotcom c)
    (statusBar c) v (repoState c) (pathBeingIndexed c).
Definition set_repoState (v : gmap string RepoState) (c : Controller) : Controller :=
  mkController (service c) (serviceStarted c) (accessToken c) (endpointIsDotcom c)
    (statusBar c) (lastRepo c) v (pathBeingIndexed c).
Definition set_pathBeingIndexed (v : option string) (c : Controller) : Controller :=
  mkController (service c) (serviceStarted c) (accessToken c) (endpointIsDotcom c)
    (statusBar c) (lastRepo c) (repoState c) v.

(** ** The engine protocol and the observable effects *)

(** [service.request(method, params)] *)
Inductive EngineRequest :=
| Initialize (codyGatewayEndpoint indexPath : string) (appIndexPath : option string)
| SetToken (token : string)
| Load (repoPath : string)
| Index (repoPath model : string) (dimension : Z)
| Query (query : string).

Record ProgressInfo := mkProgress {
  numItems : Z;
  totalItems : Z;
  currentPath : string
}.

(** The payload of an ['embeddings/progress'] notification, by the
    shapes the handler tells apart. *)
Inductive Notification :=
| NObject (Progress : option ProgressInfo) (Error : option string)
| NNull
| NDone
| NOther (json : string).

(** The outcome of [spawnBfg(context, reject)]: the promise fulfils, the
    promise rejects, or the engine calls [reject] itself. *)
Inductive SpawnOutcome :=
| Started (bfg : MessageHandler)
| SpawnRejected (e : JsError)
| RejectCalled (e : JsError).

(** What a method call hands back to the host. *)
Inductive RetVal :=
| RVoid
| RBool (b : bool)
| RValue (v : JsValue)
| RResults (results : list string).

Inductive Effect :=
| StatusChanged                        (* statusEmitter.fire(this) *)
| ControllerChanged                    (* changeEmitter.fire(this) *)
| SpawnBfgCalled (sid : nat)           (* spawnBfg(context, reject) *)
| RegisterNotification                 (* service.registerNotification('embeddings/progress', ...) *)
| Sent (rid : nat) (req : EngineRequest)
| LogDebug (what : string)
| CaptureException (e : JsError)
| DisposeStatusBar (item : StatusBarItem)
| HideAfter (ms : Z) (item : StatusBarItem)   (* setTimeout(() => statusBar.hide(), ms) *)
| ShowInformationMessage (json : string)
| DisposeEmitters
| Returned (method : string) (v : RetVal)
| Threw (method : string) (e : JsError).

(** ** Tasks: asynchronous code between its suspension points *)

Inductive Task :=
| Done
| Read (k : Controller -> Task)                        (* read this.* *)
| Write (f : Controller -> Controller) (k : Task)      (* assign this.* *)
| Do (e : Effect) (k : Task)                           (* a synchronous call out *)
| NewPromise (k : PromiseId -> Task)                   (* the promise of an async call *)
| Settle (p : PromiseId) (r : Result MessageHandler) (k : Task)
| Fork (t k : Task)                                    (* start t, run it to its first await, go on with k *)
| Await (p : PromiseId) (k : Result MessageHandler -> Task)
| Request (req : EngineRequest) (k : Result JsValue -> Task)
| SpawnBfg (k : SpawnOutcome -> Task).

Inductive Suspended :=
| WaitPromise (p : PromiseId) (k : Result MessageHandler -> Task)
| WaitReply (rid : nat) (k : Result JsValue -> Task)
| WaitSpawn (sid : nat) (k : SpawnOutcome -> Task).

(** A promise is pending ([None]) or settled. *)
Definition PromiseState := option (Result MessageHandler).

Record World := mkWorld {
  ctl : Controller;
  promises : list PromiseState;
  pool : list Suspended;
  trace : list Effect;
  requests : nat;
  spawns : nat
}.

Definition new_world : World := mkWorld new_controller [] [] [] 0 0.

Definition upd_ctl (f : Controller -> Controller) (w : World) : World :=
  mkWorld (f (ctl w)) (promises w) (pool w) (trace w) (requests w) (spawns w).
Definition log (e : Effect) (w : World) : World :=
  mkWorld (ctl w) (promises w) (pool w) (trace w ++ [e]) (requests w) (spawns w).
Definition alloc (w : World) : World :=
  mkWorld (ctl w) (promises w ++ [None]) (pool w) (trace w) (requests w) (spawns w).
Definition suspend (s : Suspended) (w : World) : World :=
  mkWorld (ctl w) (promises w) (pool w ++ [s]) (trace w) (requests w) (spawns w).
Definition set_pool (l : list Suspended) (w : World) : World :=
  mkWorld (ctl w) (promises w) l (trace w) (requests w) (spawns w).

(** Resolving or rejecting a promise that is already settled does nothing. *)
Definition settle_in (p : PromiseId) (r : Result MessageHandler)
    (ps : list PromiseState) : list PromiseState :=
  match ps !! p with
  | Some None => <[p := Some r]> ps
  | _ => ps
  end.
Definition settle (p : PromiseId) (r : Result MessageHandler) (w : World) : World :=
  mkWorld (ctl w) (settle_in p r (promises w)) (pool w) (trace w) (requests w) (spawns w).

(** [service.request(...)]: the message leaves at once. *)
Definition send (req : EngineRequest) (w : World) : World :=
  mkWorld (ctl w) (promises w) (pool w) (trace w ++ [Sent (requests w) req])
    (S (requests w)) (spawns w).
Definition spawn (w : World) : World :=
  mkWorld (ctl w) (promises w) (pool w) (trace w ++ [SpawnBfgCalled (spawns w)])
    (requests w) (S (spawns w)).

(** What resumes a suspended task. *)
Inductive Outcome :=
| Settled (r : Result MessageHandler)
| Replied (r : Result JsValue)
| Spawned (o : SpawnOutcome).

(** [exec t script w] runs [t] from [w].  At a suspension point the task
    is parked in the pool, unless the script holds the outcome it waits
    for: then whatever else ran in the meantime (the function paired
    with the outcome) is applied to the world and the task goes on.  A
    forked task is never scripted: it runs to its first suspension. *)
Fixpoint exec (t : Task) (script : list (Outcome * (World -> World))) (w : World) : World :=
  match t with
  | Done => w
  | Read k => exec (k (ctl w)) script w
  | Write f k => exec k script (upd_ctl f w)
  | Do e k => exec k script (log e w)
  | NewPromise k => exec (k (length (promises w))) script (alloc w)
  | Settle p r k => exec k script (settle p r w)
  | Fork t' k => exec k script (exec t' [] w)
  | Await p k =>
      match script with
      | (Settled r, meanwhile) :: rest => exec (k r) rest (meanwhile w)
      | _ => suspend (WaitPromise p k) w
      end
  | Request req k =>
      match script with
      | (Replied r, meanwhile) :: rest => exec (k r) rest (meanwhile (send req w))
      | _ => suspend (WaitReply (requests w) k) (send req w)
      end
  | SpawnBfg k =>
      match script with
      | (Spawned o, meanwhile) :: rest => exec (k o) rest (meanwhile (spawn w))
      | _ => suspend (WaitSpawn (spawns w) k) (spawn w)
      end
  end.

(** One synchronous run: up to the first suspension. *)
Definition run (t : Task) (w : World) : World := exec t [] w.

(** ** The monad the methods are written in *)

(** A computation takes what to do with its value and what to do with a
    thrown error. *)
Definition M (A : Type) : Type := (A -> Task) -> (JsError -> Task) -> Task.

Definition ret {A} (a : A) : M A := fun k _ => k a.
Definition bind {A B} (m : M A) (f : A -> M B) : M B :=
  fun k h => m (fun a => f a k h) h.
Definition throw {A} (e : JsError) : M A := fun _ h => h e.
Definition try_catch {A} (body : M A) (handler : JsError -> M A) : M A :=
  fun k h => body k (fun e => handler e k h).

Notation "'let*' x := m 'in' f" := (bind m (fun x => f))
  (at level 10, x name, m at level 100, f at level 200).
Notation "m ;; f" := (bind m (fun _ => f))
  (at level 100, f at level 200, right associativity).

Definition get : M Controller := fun k _ => Read k.
Definition modify (f : Controller -> Controller) : M unit := fun k _ => Write f (k tt).
Definition emit (e : Effect) : M unit := fun k _ => Do e (k tt).
Definition logDebug (what : string) : M unit := emit (LogDebug what).
Definition skip : M unit := ret tt.

Definition await (p : PromiseId) : M MessageHandler :=
  fun k h => Await p (fun r => match r with inl v => k v | inr e => h e end).
Definition request (req : EngineRequest) : M JsValue :=
  fun k h => Request req (fun r => match r with inl v => k v | inr e => h e end).

(** [void (async () => { body })()]: nobody observes how it ends. *)
Definition void (body : M unit) : M unit :=
  fun k _ => Fork (body (fun _ => Done) (fun _ => Done)) (k tt).

(** Calling an async function without awaiting it: the call runs to its
    first await and hands back its promise. *)
Definition async_call (body : M MessageHandler) : M PromiseId :=
  fun k _ =>
    NewPromise (fun p =>
      Fork (body (fun v => Settle p (inl v) Done) (fun e => Settle p (inr e) Done))
           (k p)).

(** A method called by the host: its promise's fate goes to the trace. *)
Definition top (method : string) {A} (inj : A -> RetVal) (m : M A) : Task :=
  m (fun a => Do (Returned method (inj a)) Done) (fun e => Do (Threw method e) Done).

(** ** LocalEmbeddingsController *)

(** The state a context provider reports. *)
Inductive ProviderState :=
| indeterminate
| indexing
| ready
| unconsented
| no_match.

(** [{ kind: 'embeddings', type: 'local', state }] *)
Record ContextProvider := mkProvider {
  kind : string;
  type : string;
  state : ProviderState
}.

Record ContextGroup := mkGroup {
  name : string;
  providers : list ContextProvider
}.

Definition local_embeddings (s : ProviderState) : ContextProvider :=
  mkProvider "embeddings" "local" s.

Section LocalEmbeddingsController.

Variable host : Host.

(** [a || 'default'] *)
Definition or_default (a : option string) (d : string) : string :=
  match or_else a None with
  | Some s => s
  | None => d
  end.

(** The constructor's constants. *)
Definition model : string :=
  or_default (testingLocalEmbeddingsModel host) "openai/text-embedding-ada-002".
Definition endpoint : string :=
  or_default (testingLocalEmbeddingsEndpoint host)
    "https://cody-gateway.sourcegraph.com/v1/embeddings".
Definition indexLibraryPath : option string :=
  testingLocalEmbeddingsIndexLibraryPath host.

Definition getIndexLibraryPaths : M (string * option string) :=
  if String.eqb (platform host) "darwin" then
    ret (env_HOME host +:+ "/Library/Caches/com.sourcegraph.cody/embeddings",
         Some (env_HOME host +:+ "/Library/Caches/com.sourcegraph.cody/blobstore/buckets/embeddings"))
  else if String.eqb (platform host) "linux" then
    ret (env_HOME host +:+ "/.cache/com.sourcegraph.cody/embeddings",
         Some (env_HOME host +:+ "/.cache/com.sourcegraph.cody/blobstore/buckets/embeddings"))
  else if String.eqb (platform host) "win32" then
    ret (env_LOCALAPPDATA host +:+ "\com.sourcegraph.cody\embeddings", None)
  else
    throw (mkError ("Unsupported platform: " +:+ platform host)).

(** [Math.floor((100 * obj.Progress.numItems) / obj.Progress.totalItems)] *)
Definition percent (p : ProgressInfo) : JsNum :=
  floor_div (100 * numItems p) (totalItems p).

(** The repository state [eagerlyLoad] records in its [catch] block. *)
Definition eagerlyLoad_failure (error : JsError) : RepoState :=
  let noRemoteErrorMessage :=
    "repository does not have a default fetch URL, so can't be named for an index" in
  let noRemote := String.eqb (message error) noRemoteErrorMessage in
  let notGit := regex_test "does not appear to be a git repository" (message error) in
  {| hasIndex := false;
     indexable := negb (notGit || noRemote);
     isGit := negb notGit |}.

(** [this.lastRepo.loadResult], where the field holds a value. *)
Definition lastRepo_loadResult : M bool :=
  let* c := get in
  match lastRepo c with
  | Some r => ret (loadResult r)
  | None => throw (mkError "TypeError: Cannot read properties of undefined")
  end.

(** The promise of [spawnBfg], wrapped as [spawnAndBindService] does. *)
Definition spawnBfg : M MessageHandler :=
  fun k h =>
    SpawnBfg (fun o =>
      match o with
      | Started bfg => k bfg
      | SpawnRejected error => Do (CaptureException error) (h error)
      | RejectCalled error => h error
      end).

(** [spawnAndBindService]; the notification handler it registers is
    [on_progress] below, run when a notification is delivered. *)
Definition spawnAndBindService : M MessageHandler :=
  let* service := spawnBfg in
  emit RegisterNotification;;
  logDebug "spawnAndBindService: service started, initializing";;
  let* paths := getIndexLibraryPaths in
  logDebug "spawnAndBindService: index library paths";;
  let* paths :=
    (match indexLibraryPath with
     | Some override =>
         if truthy_str (Some override) then
           logDebug "spawnAndBindService: overriding index library path";;
           ret (override, snd paths)
         else ret paths
     | None => ret paths
     end) in
  let* initResult := request (Initialize endpoint (fst paths) (snd paths)) in
  logDebug "spawnAndBindService: initialized";;
  let* c := get in
  (match accessToken c with
   | Some token =>
       (* Set the initial access token *)
       if truthy_str (Some token) then request (SetToken token);; skip else skip
   | None => skip
   end);;
  modify (set_serviceStarted true);;
  emit ControllerChanged;;
  ret service.

Definition getService : M PromiseId :=
  let* c := get in
  match service c with
  | None =>
      let* p := async_call spawnAndBindService in
      modify (set_service (Some p));;
      ret p
  | Some p => ret p
  end.

(** [await this.getService()] *)
Definition await_getService : M MessageHandler :=
  let* p := getService in
  await p.

(** The promise [getService] hands back in [w], and the world it leaves:
    [w] itself once [this.service] is set, whatever became of that
    promise; before that, the world in which the spawn has begun. *)
Definition service_id (w : World) : PromiseId :=
  default (length (promises w)) (service (ctl w)).
Definition getService_world (w : World) : World :=
  run (getService (fun _ => Done) (fun _ => Done)) w.

Definition setAccessToken (serverEndpoint : string) (token : option string) : M unit :=
  let endpointIsDotcom' := isDotCom host serverEndpoint in
  logDebug (if endpointIsDotcom' then "setAccessToken: is dotcom" else "setAccessToken: not dotcom");;
  let* c := get in
  (if negb (eqb endpointIsDotcom' (endpointIsDotcom c)) then
     (* We will show, or hide, status depending on whether we are using
        dotcom. We do not offer local embeddings to Enterprise. *)
     emit StatusChanged;;
     if serviceStarted c then emit ControllerChanged else skip
   else skip);;
  modify (set_endpointIsDotcom endpointIsDotcom');;
  let* c := get in
  if strict_eq token (accessToken c) then ret tt
  else
    modify (set_accessToken (or_else token None));;
    let* c := get in
    match token with
    | Some tok =>
        if truthy_str token && serviceStarted c then
          let* service := await_getService in
          request (SetToken tok);; skip
        else skip
    | None => skip
    end.

Definition eagerlyLoad (repoPath : string) : M bool :=
  try_catch
    (let* service := await_getService in
     let* response := request (Load repoPath) in
     let hasIndex := truthy response in
     modify (fun c => set_repoState
       (<[repoPath := {| hasIndex := hasIndex; indexable := true; isGit := true |}]>
          (repoState c)) c);;
     modify (set_lastRepo (Some {| path := repoPath; loadResult := hasIndex |})))
    (fun error =>
     emit (CaptureException error);;
     logDebug "load";;
     modify (fun c => set_repoState
       (<[repoPath := eagerlyLoad_failure error]> (repoState c)) c);;
     modify (set_lastRepo (Some {| path := repoPath; loadResult := false |})));;
  emit StatusChanged;;
  lastRepo_loadResult.

(** Hint that local embeddings should start cody-engine, if necessary. *)
Definition start : M unit :=
  logDebug "start";;
  await_getService;;
  match workspaceFolder host with
  | Some fsPath => eagerlyLoad fsPath;; skip
  | None => skip
  end.

(** The async function the handler starts on ['Done']. *)
Definition load_after_done (path : string) : M unit :=
  let* loadedOk := eagerlyLoad path in
  logDebug "load after indexing done";;
  emit ControllerChanged.

(** The ['embeddings/progress'] handler that [spawnAndBindService]
    registers. *)
Definition on_progress (obj : Notification) : M unit :=
  let* c := get in
  match statusBar c with
  | None => ret tt
  | Some item =>
      match obj with
      | NObject (Some progress) _ =>
          modify (set_statusBar (Some
            {| text := "$(loading~spin) Cody Embeddings (" +:+ toFixed0 (percent progress) +:+ "%)";
               backgroundColor := None;
               tooltip := Some (currentPath progress);
               shown := true |}))
      | NObject None (Some error) =>
          modify (set_statusBar (Some
            {| text := "$(warning) Cody Embeddings";
               backgroundColor := Some "statusBarItem.warningBackground";
               tooltip := Some error;
               shown := true |}))
      | NObject None None => skip
      | NNull => throw (mkError "TypeError: Cannot use 'in' operator to search for 'Progress' in null")
      | NDone =>
          let item' :=
            {| text := "$(sparkle) Cody Embeddings";
               backgroundColor := None;
               tooltip := tooltip item;
               shown := true |} in
          (* Hide this notification after a while. *)
          modify (set_statusBar None);;
          emit (HideAfter 30000 item');;
          let* c := get in
          (match pathBeingIndexed c with
           | Some indexed =>
               if truthy_str (Some indexed) &&
                  match lastRepo c with
                  | None => true
                  | Some r => String.eqb (path r) indexed
                  end
               then
                 void (load_after_done indexed)
               else skip
           | None => skip
           end);;
          modify (set_pathBeingIndexed None);;
          emit StatusChanged
      | NOther json =>
          logDebug json;;
          emit (ShowInformationMessage json)
      end
  end.

(** The [status] getter (its [logDebug] call aside). *)
Definition active_path (c : Controller) : string :=
  default "(No workspace loaded)"
    (or_else (path <$> lastRepo c) (or_else (workspaceFolder host) None)).

Definition status (c : Controller) : list ContextGroup :=
  if negb (endpointIsDotcom c) then
    (* There are no local embeddings for Enterprise. *)
    []
  else
    let path := active_path c in
    match lastRepo c with
    | None => [ mkGroup path [ local_embeddings indeterminate ] ]
    | Some last =>
        if bool_decide (pathBeingIndexed c = Some path) then
          [ mkGroup path [ local_embeddings indexing ] ]
        else if loadResult last then
          [ mkGroup path [ local_embeddings ready ] ]
        else
          let repoState := repoState c !! path in
          if negb (from_option isGit false repoState) then []
          else
            [ mkGroup path
                [ local_embeddings
                    (if from_option indexable false repoState
                     then unconsented else no_match) ] ]
    end.

(** Interactions with cody-engine *)

Definition index_guard (c : Controller) : bool :=
  endpointIsDotcom c
  && truthy_str (path <$> lastRepo c)
  && negb (from_option loadResult false (lastRepo c)).

Definition index : M unit :=
  let* c := get in
  if negb (index_guard c) then
    (* TODO: Support index updates. *)
    logDebug "index: No repository to index/already indexed"
  else
    match lastRepo c with
    | None => throw (mkError "TypeError: Cannot read properties of undefined")
    | Some last =>
        let repoPath := path last in
        logDebug "index: Starting repository";;
        try_catch
          (let* service := await_getService in
           request (Index repoPath model 1536);;
           modify (set_pathBeingIndexed (Some repoPath));;
           let* c := get in
           (match statusBar c with
            | Some item => emit (DisposeStatusBar item)
            | None => skip
            end);;
           modify (set_statusBar (Some createStatusBarItem));;
           emit StatusChanged)
          (fun error =>
           emit (CaptureException error);;
           logDebug "index: failed")
    end.

(** The async function [load] starts and does not wait for, when the
    service has not started. *)
Definition load_start_service : M unit :=
  try_catch
    (await_getService;; skip)
    (fun error =>
     emit (CaptureException error);;
     logDebug "load").

(** [repoUri] is the [fsPath] of the [vscode.Uri], when there is one. *)
Definition load (repoUri : option string) : M bool :=
  let* c := get in
  if negb (endpointIsDotcom c) then
    (* Local embeddings only supported for dotcom *)
    ret false
  else
    match repoUri with
    | None => ret false
    | Some repoPath =>
        if negb (truthy_str (Some repoPath)) then
          (* There's no path to search *)
          ret false
        else
          let cachedState := repoState c !! repoPath in
          if from_option (fun s => negb (hasIndex s)) false cachedState then
            (* We already failed to loading this, so use that result *)
            ret false
          else if negb (serviceStarted c) then
            (* Try starting the service but reply that there are no local
               embeddings this time. *)
            void load_start_service;;
            ret false
          else eagerlyLoad repoPath
    end.

Definition query (q : string) : M JsValue :=
  let* c := get in
  if negb (endpointIsDotcom c) then ret (JObject [])
  else
    let* service := await_getService in
    request (Query q).

(** LocalEmbeddingsFetcher *)
Definition getContext (q : string) (_numResults : Z) : M (list string) :=
  try_catch
    (let* response := query q in
     match response with
     | JObject results =>
         logDebug "returning results";;
         ret results
     | _ => throw (mkError "TypeError: Cannot read properties of undefined")
     end)
    (fun error =>
     emit (CaptureException error);;
     logDebug "getContext: failed";;
     ret []).

Definition dispose : M unit :=
  emit DisposeEmitters;;
  let* c := get in
  match statusBar c with
  | Some item => emit (DisposeStatusBar item)
  | None => skip
  end.

(** ** The extension host *)

Inductive MethodCall :=
| CallStart
| CallSetAccessToken (serverEndpoint : string) (token : option string)
| CallIndex
| CallLoad (repoUri : option string)
| CallQuery (q : string)
| CallGetContext (q : string) (numResults : Z)
| CallDispose.

Definition call (m : MethodCall) : Task :=
  match m with
  | CallStart => top "start" (fun _ => RVoid) start
  | CallSetAccessToken serverEndpoint token =>
      top "setAccessToken" (fun _ => RVoid) (setAccessToken serverEndpoint token)
  | CallIndex => top "index" (fun _ => RVoid) index
  | CallLoad repoUri => top "load" RBool (load repoUri)
  | CallQuery q => top "query" RValue (query q)
  | CallGetContext q n => top "getContext" RResults (getContext q n)
  | CallDispose => top "dispose" (fun _ => RVoid) dispose
  end.

(** The handler as the JSON-RPC layer calls it. *)
Definition notified (obj : Notification) : Task :=
  on_progress obj (fun _ => Done) (fun _ => Done).

Inductive Event :=
| Invoke (m : MethodCall)                     (* the host calls a method *)
| SpawnSettles (sid : nat) (o : SpawnOutcome) (* spawnBfg number sid ends *)
| Reply (rid : nat) (r : Result JsValue)      (* the engine answers request rid *)
| Notify (obj : Notification)                 (* 'embeddings/progress' arrives *)
| Microtask (i : nat).                        (* the i-th suspended task sees its promise settled *)

Fixpoint take_reply (rid : nat) (l : list Suspended)
    : option ((Result JsValue -> Task) * list Suspended) :=
  match l with
  | [] => None
  | WaitReply rid' k :: rest =>
      if Nat.eqb rid rid' then Some (k, rest)
      else '(k', rest') ← take_reply rid rest; Some (k', WaitReply rid' k :: rest')
  | s :: rest => '(k', rest') ← take_reply rid rest; Some (k', s :: rest')
  end.

Fixpoint take_spawn (sid : nat) (l : list Suspended)
    : option ((SpawnOutcome -> Task) * list Suspended) :=
  match l with
  | [] => None
  | WaitSpawn sid' k :: rest =>
      if Nat.eqb sid sid' then Some (k, rest)
      else '(k', rest') ← take_spawn sid rest; Some (k', WaitSpawn sid' k :: rest')
  | s :: rest => '(k', rest') ← take_spawn sid rest; Some (k', s :: rest')
  end.

Definition registered (w : World) : bool :=
  existsb (fun e => match e with RegisterNotification => true | _ => false end) (trace w).

(** [deliver ev w] is the world after the event, when the event can
    happen in [w]. *)
Definition deliver (ev : Event) (w : World) : option World :=
  match ev with
  | Invoke m => Some (run (call m) w)
  | SpawnSettles sid o =>
      '(k, rest) ← take_spawn sid (pool w);
      Some (run (k o) (set_pool rest w))
  | Reply rid r =>
      '(k, rest) ← take_reply rid (pool w);
      Some (run (k r) (set_pool rest w))
  | Notify obj =>
      if registered w then Some (run (notified obj) w) else None
  | Microtask i =>
      match pool w !! i with
      | Some (WaitPromise p k) =>
          match promises w !! p with
          | Some (Some r) => Some (run (k r) (set_pool (delete i (pool w)) w))
          | _ => None
          end
      | _ => None
      end
  end.

(** A run of the extension host. *)
Fixpoint deliver_all (evs : list Event) (w : World) : option World :=
  match evs with
  | [] => Some w
  | ev :: rest => w' ← deliver ev w; deliver_all rest w'
  end.

Inductive reachable : World -> Prop :=
| reachable_new : reachable new_world
| reachable_step w ev w' :
    reachable w -> deliver ev w = Some w' -> reachable w'.

End LocalEmbeddingsController.

(** ** Reading traces *)

Fixpoint count (f : Effect -> bool) (l : list Effect) : nat :=
  match l with
  | [] => 0
  | e :: rest => (if f e then 1 else 0) + count f rest
  end.

Definition is_status_changed (e : Effect) : bool :=
  match e with StatusChanged => true | _ => false end.
Definition is_controller_changed (e : Effect) : bool :=
  match e with ControllerChanged => true | _ => false end.
Definition is_spawn (e : Effect) : bool :=
  match e with SpawnBfgCalled _ => true | _ => false end.
Definition is_request (e : Effect) : bool :=
  match e with Sent _ _ => true | _ => false end.
Definition is_index_request (p : string) (e : Effect) : bool :=
  match e with Sent _ (Index q _ _) => String.eqb p q | _ => false end.

(** ** Auxiliary notions for the properties *)

(** [setAccessToken] leaves the stored token in one of two shapes. *)
Definition token_stored (token accessToken : option string) : Prop :=
  strict_eq token accessToken = true \/
  (truthy_str token = false /\ accessToken = None).

(** What the load-attempt routine writes when the request has settled:
    the repository's state, the last repository, and the status event. *)
Definition record_load (p : string) (s : RepoState) (result : bool) (w : World) : World :=
  log StatusChanged
    (upd_ctl (set_lastRepo (Some {| path := p; loadResult := result |}))
       (upd_ctl (fun c => set_repoState (<[p := s]> (repoState c)) c) w)).

(** ** Invariants of the controller *)

(** The engine's handle is there: [this.service] is a fulfilled promise. *)
Definition service_ready (c : Controller) (ps : list PromiseState) : Prop :=
  exists p bfg, service c = Some p /\ ps !! p = Some (Some (inl bfg)).

(** What holds of the fields whenever no task is running. *)
Definition controller_inv (c : Controller) (ps : list PromiseState) : Prop :=
  (forall p s, repoState c !! p = Some s -> isGit s = false -> indexable s = false) /\
  (statusBar c = None <-> pathBeingIndexed c = None) /\
  (forall p, pathBeingIndexed c = Some p -> p <> EmptyString /\ service_ready c ps).

(** What no code of the controller undoes: [this.service], once set, and
    a promise, once settled. *)
Definition forward (c : Controller) (ps : list PromiseState)
    (c' : Controller) (ps' : list PromiseState) : Prop :=
  (forall p, service c = Some p -> service c' = Some p) /\
  (forall p r, ps !! p = Some (Some r) -> ps' !! p = Some (Some r)).

(** [safe t Q c ps]: run from fields [c] and promises [ps], the task [t]
    only moves forward, spawns the engine only while [this.service] is
    not set, [Q] holds when its synchronous run ends, and,
    whenever it is resumed later in a state that satisfies the invariant
    and lies ahead of the state it was suspended in, it re-establishes
    the invariant in the same way. *)
Fixpoint safe (t : Task) (Q : Controller -> list PromiseState -> Prop)
    (c : Controller) (ps : list PromiseState) : Prop :=
  match t with
  | Done => Q c ps
  | Read k => safe (k c) Q c ps
  | Write f k => (forall p, service c = Some p -> service (f c) = Some p) /\ safe k Q (f c) ps
  | Do e k => is_spawn e = false /\ safe k Q c ps
  | NewPromise k => safe (k (length ps)) Q c (ps ++ [None])
  | Settle p r k => safe k Q c (settle_in p r ps)
  | Fork t' k => safe t' (fun c' ps' => safe k Q c' ps') c ps
  | Await p k =>
      Q c ps /\
      forall c' ps' r,
        controller_inv c' ps' -> forward c ps c' ps' -> ps' !! p = Some (Some r) ->
        safe (k r) controller_inv c' ps'
  | Request _ k =>
      Q c ps /\
      forall c' ps' r,
        controller_inv c' ps' -> forward c ps c' ps' ->
        safe (k r) controller_inv c' ps'
  | SpawnBfg k =>
      service c = None /\
      Q c ps /\
      forall c' ps' o,
        controller_inv c' ps' -> forward c ps c' ps' ->
        safe (k o) controller_inv c' ps'
  end.

Definition suspended_safe (c : Controller) (ps : list PromiseState) (s : Suspended) : Prop :=
  match s with
  | WaitPromise p k =>
      forall c' ps' r,
        controller_inv c' ps' -> forward c ps c' ps' -> ps' !! p = Some (Some r) ->
        safe (k r) controller_inv c' ps'
  | WaitReply _ k =>
      forall c' ps' r,
        controller_inv c' ps' -> forward c ps c' ps' ->
        safe (k r) controller_inv c' ps'
  | WaitSpawn _ k =>
      forall c' ps' o,
        controller_inv c' ps' -> forward c ps c' ps' ->
        safe (k o) controller_inv c' ps'
  end.

Definition world_inv (w : World) : Prop :=
  controller_inv (ctl w) (promises w) /\
  Forall (suspended_safe (ctl w) (promises w)) (pool w).

(** The fields and promises [getService] leaves behind. *)
Definition after_getService (c : Controller) (ps : list PromiseState) (p : PromiseId)
    (c1 : Controller) (ps1 : list PromiseState) : Prop :=
  (service c = Some p /\ c1 = c /\ ps1 = ps) \/
  (service c = None /\ p = length ps /\
   c1 = set_service (Some p) c /\ ps1 = (ps ++ [None])%list).

(** ** A host to run examples on *)

Definition demo_origin (url : string) : option string :=
  if String.prefix "https://sourcegraph.com" url then Some "https://sourcegraph.com"
  else if String.prefix "https://" url then Some url
  else None.

Definition demo_host : Host := {|
  url_origin := demo_origin;
  DOTCOM_ORIGIN := "https://sourcegraph.com";
  platform := "linux";
  env_HOME := "/home/dev";
  env_LOCALAPPDATA := "C:\Users\dev\AppData\Local";
  workspaceFolder := Some "/repo";
  testingLocalEmbeddingsModel := Some "stub/stub";
  testingLocalEmbeddingsEndpoint := None;
  testingLocalEmbeddingsIndexLibraryPath := None
|}.

(** Runs of the demo host. *)

Definition enoent : JsError := mkError "spawn cody-engine ENOENT".

Definition not_git : JsError :=
  mkError "fatal: '/repo' does not appear to be a git repository".

(** The engine cannot be spawned. *)
Definition spawn_fails : list Event :=
  [Invoke CallStart; SpawnSettles 0 (SpawnRejected enoent); Microtask 0].

(** The engine is spawned and refuses embeddings/initialize. *)
Definition initialize_fails : list Event :=
  [Invoke CallStart; SpawnSettles 0 (Started 1); Reply 0 (inr enoent); Microtask 0].

(** Sign in to dotcom, start the engine, and load [/repo]; the engine
    answers the load request with [answer]. *)
Definition start_and_load (answer : Result JsValue) : list Event :=
  [Invoke (CallSetAccessToken "https://sourcegraph.com" (Some "tok"));
   Invoke CallStart;
   SpawnSettles 0 (Started 1);
   Reply 0 (inl JNull);
   Reply 1 (inl JNull);
   Microtask 0;
   Microtask 0;
   Reply 2 answer].

(** ... then ask for the index of [/repo], which the engine accepts. *)
Definition start_indexing : list Event :=
  (start_and_load (inl (JBool false)) ++
   [Invoke CallIndex; Microtask 0; Reply 3 (inl JNull)])%list.

Definition world_after (evs : list Event) : World :=
  default new_world (deliver_all demo_host evs new_world).

Definition unconsented_controller : Controller :=
  mkController (Some 0) true (Some "tok") true None
    (Some {| path := "/repo"; loadResult := false |})
    {[ "/repo" := {| indexable := true; isGit := true; hasIndex := false |} ]}
    None.

(** ... and the engine reports half of the work, then the end of it,
    and answers the reload that follows. *)
Definition index_to_the_end : list Event :=
  (start_indexing ++
   [Notify (NObject (Some (mkProgress 50 100 "main.c")) None);
    Notify NDone; Microtask 0; Reply 4 (inl (JBool true))])%list.

(** ** Further notions *)

(** The task [getService] starts when [this.service] is not set: the
    body of [spawnAndBindService], settling promise [p] as it ends. *)
Definition spawn_task (host : Host) (p : PromiseId) : Task :=
  spawnAndBindService host
    (fun v => Settle p (inl v) Done) (fun e => Settle p (inr e) Done).

Definition is_set_token (t : string) (e : Effect) : bool :=
  match e with Sent _ (SetToken u) => String.eqb t u | _ => false end.

(** [process.platform] is one of the three [getIndexLibraryPaths] knows. *)
Definition supported_platform (host : Host) : bool :=
  String.eqb (platform host) "darwin" || String.eqb (platform host) "linux"
  || String.eqb (platform host) "win32".

(** A trace without its debug log lines. *)
Definition is_log (e : Effect) : bool :=
  match e with LogDebug _ => true | _ => false end.
Definition events (l : list Effect) : list Effect :=
  List.filter (fun e => negb (is_log e)) l.

(** The index path the configuration asks for, when it asks. *)
Definition path_override (host : Host) : option string :=
  or_else (testingLocalEmbeddingsIndexLibraryPath host) None.


(** ** The life cycle of the engine *)

Definition is_initialize (req : EngineRequest) : bool :=
  match req with Initialize _ _ _ => true | _ => false end.

(** Requests carry their number in the order they are sent, and
    embeddings/initialize is the request number 0 and no other is. *)
Definition numbered (tr : list Effect) : Prop :=
  forall before rid req after,
    tr = (before ++ Sent rid req :: after)%list ->
    rid = count is_request before /\ (rid = 0 <-> is_initialize req = true).

(** What holds of the promise store, the counters, the trace and the
    fields whenever no task is running.  [this.service] is the only
    promise there is. *)
Definition lifecycle_inv (w : World) : Prop :=
  let c := ctl w in
  requests w = count is_request (trace w) /\
  spawns w = count is_spawn (trace w) /\
  (service c = None -> promises w = [] /\ spawns w = 0 /\ requests w = 0) /\
  (forall q, service c = Some q -> q = 0 /\ length (promises w) = 1 /\ spawns w = 1) /\
  (serviceStarted c = true <-> exists bfg, promises w = [Some (inl bfg)]) /\
  (serviceStarted c = true -> 0 < requests w) /\
  numbered (trace w) /\
  accessToken c <> Some EmptyString /\
  (forall r, lastRepo c = Some r ->
     exists s, repoState c !! path r = Some s /\ hasIndex s = loadResult r) /\
  (forall p s, repoState c !! p = Some s -> hasIndex s = true ->
     indexable s = true /\ isGit s = true).

(** What the start-up of the engine alone changes as long as
    [this.service] is pending. *)
Definition frozen (w w' : World) : Prop :=
  promises w' = promises w /\ requests w' = requests w /\ spawns w' = spawns w /\
  serviceStarted (ctl w') = serviceStarted (ctl w).

(** What a suspended task may rely on of the world [w'] it is resumed
    in, having been suspended in [w].  No task unsets [this.service],
    changes a settled promise, or sends a request once [this.service]
    is rejected; and the task that starts the engine ([starter]) is the
    only one to move the start-up on. *)
Definition rely (starter : bool) (w w' : World) : Prop :=
  (forall p, service (ctl w) = Some p -> service (ctl w') = Some p) /\
  (forall p r, promises w !! p = Some (Some r) -> promises w' !! p = Some (Some r)) /\
  (forall e, promises w !! 0 = Some (Some (inr e)) -> requests w' = requests w) /\
  (starter = true -> promises w = [None] -> frozen w w').

(** [keeps starter t Q w]: run from [w], the task [t] respects what the
    other tasks rely on, [Q] holds when its synchronous run ends, and
    whenever it is resumed later, in a world that satisfies the
    invariant and that it may rely on, it re-establishes the invariant
    in the same way.  The task that owns the pending [this.service]
    ([starter]) is the only one to spawn the engine and to settle the
    promise, and it settles it before it ends. *)
Fixpoint keeps (starter : bool) (t : Task) (Q : World -> Prop) (w : World) : Prop :=
  match t with
  | Done => starter = false /\ Q w
  | Read k => keeps starter (k (ctl w)) Q w
  | Write f k =>
      (forall p, service (ctl w) = Some p -> service (f (ctl w)) = Some p) /\
      (starter = false -> serviceStarted (f (ctl w)) = serviceStarted (ctl w)) /\
      keeps starter k Q (upd_ctl f w)
  | Do e k => keeps starter k Q (log e w)
  | NewPromise k =>
      starter = false /\ promises w = [] /\
      keeps true (k (length (promises w))) Q (alloc w)
  | Settle p r k =>
      starter = true /\ promises w = [None] /\ p = 0 /\
      keeps false k Q (settle p r w)
  | Fork t' k => keeps starter t' (fun w' => keeps false k Q w') w
  | Await p k =>
      starter = false /\
      Q (suspend (WaitPromise p k) w) /\
      forall w' r,
        lifecycle_inv w' -> rely false w w' -> promises w' !! p = Some (Some r) ->
        keeps false (k r) lifecycle_inv w'
  | Request req k =>
      (if starter then promises w = [None]
       else exists bfg, promises w = [Some (inl bfg)]) /\
      Q (suspend (WaitReply (requests w) k) (send req w)) /\
      forall w' r,
        lifecycle_inv w' -> rely starter (send req w) w' ->
        keeps starter (k r) lifecycle_inv w'
  | SpawnBfg k =>
      starter = true /\ promises w = [None] /\
      Q (suspend (WaitSpawn (spawns w) k) (spawn w)) /\
      forall w' o,
        lifecycle_inv w' -> rely true (spawn w) w' ->
        keeps true (k o) lifecycle_inv w'
  end.

(** A suspended task that can be resumed. *)
Definition resumable (w : World) (starter : bool) (s : Suspended) : Prop :=
  match s with
  | WaitPromise p k =>
      starter = false /\
      forall w' r,
        lifecycle_inv w' -> rely false w w' -> promises w' !! p = Some (Some r) ->
        keeps false (k r) lifecycle_inv w'
  | WaitReply _ k =>
      forall w' r,
        lifecycle_inv w' -> rely starter w w' ->
        keeps starter (k r) lifecycle_inv w'
  | WaitSpawn _ k =>
      starter = true /\
      forall w' o,
        lifecycle_inv w' -> rely true w w' ->
        keeps true (k o) lifecycle_inv w'
  end.

(** [this.service] is pending. *)
Definition pending (ps : list PromiseState) : bool :=
  match ps with
  | [None] => true
  | _ => false
  end.

Definition starters (tags : list bool) : nat := length (List.filter (fun b => b) tags).

(** The invariant of the world: the fields' invariant, every suspended
    task resumable, and exactly one of them the starter as long as
    [this.service] is pending. *)
Definition lifecycle (w : World) : Prop :=
  lifecycle_inv w /\
  exists tags,
    Forall2 (resumable w) tags (pool w) /\
    starters tags = Nat.b2n (pending (promises w)).

(** The world [getService] leaves behind and the promise it hands back. *)
Definition got_service (w : World) (p : PromiseId) (w1 : World) : Prop :=
  (service (ctl w) = Some p /\ w1 = w) \/
  (service (ctl w) = None /\ p = 0 /\
   exists s, w1 = upd_ctl (set_service (Some 0)) (suspend s (spawn (alloc w)))).

(** * The helpers of the end-to-end tests *)

(** ** [waitUntil] *)

(** ToInt32, of a number that is an integer. *)
Definition to_int32 (x : Z) : Z := (x + 2 ^ 31) mod 2 ^ 32 - 2 ^ 31.

(** [delay <<= 1] *)
Definition shl1 (delay : Z) : Z := to_int32 (Z.shiftl (to_int32 delay) 1).

Section WaitUntil.

(** What the predicate looks at, as it is at each of its calls; the
    predicate returns a boolean or throws. *)
Context {State : Type}.
Variable predicate : State -> Result bool.

(** The loop of [waitUntil], from the current [delay]: the delays handed
    to [setTimeout] in turn, and how the loop ends with the states not
    looked at yet ([None] while it is still polling when the states
    given run out). *)
Fixpoint waitUntil_from (delay : Z) (states : list State)
    : list Z * option (Result unit * list State) :=
  match states with
  | [] => ([], None)
  | s :: rest =>
      match predicate s with
      | inr error => ([], Some (inr error, rest))
      | inl true => ([], Some (inl tt, rest))
      | inl false =>
          let '(slept, r) := waitUntil_from (shl1 delay) rest in
          (delay :: slept, r)
      end
  end.

Definition waitUntil (states : list State) : list Z * option (Result unit * list State) :=
  waitUntil_from 10 states.

End WaitUntil.

(** ** [getCodySidebar] *)

Section Sidebar.

Context {Frame : Type}.

(** [error.message.indexOf('Frame was detached') === -1] is false *)
Definition is_detached (error : JsError) : bool :=
  match String.index 0 "Frame was detached" (message error) with
  | Some _ => true
  | None => false
  end.

(** [page.frames()] with what [frame.title()] gives for each frame. *)
Fixpoint findCodySidebarFrame (frames : list (Frame * Result string))
    : Result (option Frame) :=
  match frames with
  | [] => inl None
  | (frame, inl title) :: rest =>
      if String.eqb title "Cody" then inl (Some frame)
      else findCodySidebarFrame rest
  | (frame, inr error) :: rest =>
      (* Skip over frames that were detached in the meantime. *)
      if is_detached error then findCodySidebarFrame rest
      else inr error
  end.

(** [(await findCodySidebarFrame()) !== null] *)
Definition sidebar_found (frames : list (Frame * Result string)) : Result bool :=
  match findCodySidebarFrame frames with
  | inl (Some _) => inl true
  | inl None => inl false
  | inr error => inr error
  end.

(** [pages] are the frames of the page at each lookup in turn. *)
Definition getCodySidebar (mainFrame : Frame) (pages : list (list (Frame * Result string)))
    : list Z * option (Result Frame) :=
  match waitUntil sidebar_found pages with
  | (slept, Some (inl _, frames :: _)) =>
      (slept,
       Some match findCodySidebarFrame frames with
            | inl (Some frame) => inl frame
            | inl None => inl mainFrame
            | inr error => inr error
            end)
  | (slept, Some (inr error, _)) => (slept, Some (inr error))
  | (slept, _) => (slept, None)
  end.

(** The frames the lookup passes over. *)
Definition passed_over (entry : Frame * Result string) : bool :=
  match snd entry with
  | inl title => negb (String.eqb title "Cody")
  | inr error => is_detached error
  end.

End Sidebar.

(** ** [escapeToPath] *)

(** A string as its UTF-16 code units.  [\W]: not one of [A-Za-z0-9_]. *)
Definition is_word (c : N) : bool :=
  ((48 <=? c) && (c <=? 57) || (65 <=? c) && (c <=? 90) || (c =? 95)
   || (97 <=? c) && (c <=? 122))%N.

Definition escapeToPath (text : list N) : list N :=
  List.map (fun c => if is_word c then c else 95%N) text.
(** * Properties *)

Lemma count_app f l1 l2 : count f (l1 ++ l2) = count f l1 + count f l2.
Proof. induction l1 as [|e l1 IH]; simpl; [reflexivity | rewrite IH; lia]. Qed.

Section Status.

Variable host : Host.

Lemma status_not_dotcom c :
  endpointIsDotcom c = false -> status host c = [].
Proof. intros H. unfold status. rewrite H. reflexivity. Qed.

Lemma status_indeterminate c :
  endpointIsDotcom c = true -> lastRepo c = None ->
  status host c = [mkGroup (active_path host c) [local_embeddings indeterminate]].
Proof. intros H1 H2. unfold status. rewrite H1, H2. reflexivity. Qed.

Lemma status_indexing c last :
  endpointIsDotcom c = true -> lastRepo c = Some last ->
  pathBeingIndexed c = Some (active_path host c) ->
  status host c = [mkGroup (active_path host c) [local_embeddings indexing]].
Proof.
  intros H1 H2 H3. unfold status. rewrite H1, H2. simpl.
  rewrite bool_decide_eq_true_2 by assumption. reflexivity.
Qed.

Lemma status_ready c last :
  endpointIsDotcom c = true -> lastRepo c = Some last ->
  pathBeingIndexed c <> Some (active_path host c) ->
  loadResult last = true ->
  status host c = [mkGroup (active_path host c) [local_embeddings ready]].
Proof.
  intros H1 H2 H3 H4. unfold status. rewrite H1, H2. simpl.
  rewrite bool_decide_eq_false_2 by assumption. rewrite H4. reflexivity.
Qed.

Lemma status_not_git c last :
  endpointIsDotcom c = true -> lastRepo c = Some last ->
  pathBeingIndexed c <> Some (active_path host c) ->
  loadResult last = false ->
  (repoState c !! active_path host c = None \/
   exists rs, repoState c !! active_path host c = Some rs /\ isGit rs = false) ->
  status host c = [].
Proof.
  intros H1 H2 H3 H4 H5. unfold status. rewrite H1, H2. simpl.
  rewrite bool_decide_eq_false_2 by assumption. rewrite H4.
  destruct H5 as [-> | (rs & -> & Hg)]; simpl; [reflexivity | rewrite Hg; reflexivity].
Qed.

Lemma status_git c last rs :
  endpointIsDotcom c = true -> lastRepo c = Some last ->
  pathBeingIndexed c <> Some (active_path host c) ->
  loadResult last = false ->
  repoState c !! active_path host c = Some rs -> isGit rs = true ->
  status host c =
    [mkGroup (active_path host c)
       [local_embeddings (if indexable rs then unconsented else no_match)]].
Proof.
  intros H1 H2 H3 H4 H5 H6. unfold status. rewrite H1, H2. simpl.
  rewrite bool_decide_eq_false_2 by assumption. rewrite H4, H5. simpl.
  rewrite H6. reflexivity.
Qed.

(** The active path is the last repository's, whenever that is a
    non-empty path. *)
Lemma active_path_lastRepo c last :
  lastRepo c = Some last -> path last <> EmptyString ->
  active_path host c = path last.
Proof.
  intros H Hne. unfold active_path, or_else. rewrite H. simpl.
  destruct (String.eqb_spec (path last) EmptyString); [contradiction | reflexivity].
Qed.

(** C3: [status] reads the controller and nothing else, and decides in
    this order: not dotcom, the empty list; no last repository, one group
    in state indeterminate; the path being indexed is the active path,
    indexing; the last load succeeded, ready; no cached state for the
    path or a cached state that is not git, the empty list; otherwise
    unconsented when the cached state is indexable and no-match when it
    is not.  The active path is the last repository's path, when there
    is one and it is not empty. *)
Theorem status_priority (c : Controller) :
  (endpointIsDotcom c = false -> status host c = []) /\
  (endpointIsDotcom c = true -> lastRepo c = None ->
   status host c = [mkGroup (active_path host c) [local_embeddings indeterminate]]) /\
  (forall last,
   endpointIsDotcom c = true -> lastRepo c = Some last ->
   pathBeingIndexed c = Some (active_path host c) ->
   status host c = [mkGroup (active_path host c) [local_embeddings indexing]]) /\
  (forall last,
   endpointIsDotcom c = true -> lastRepo c = Some last ->
   pathBeingIndexed c <> Some (active_path host c) ->
   loadResult last = true ->
   status host c = [mkGroup (active_path host c) [local_embeddings ready]]) /\
  (forall last,
   endpointIsDotcom c = true -> lastRepo c = Some last ->
   pathBeingIndexed c <> Some (active_path host c) ->
   loadResult last = false ->
   (repoState c !! active_path host c = None \/
    exists rs, repoState c !! active_path host c = Some rs /\ isGit rs = false) ->
   status host c = []) /\
  (forall last rs,
   endpointIsDotcom c = true -> lastRepo c = Some last ->
   pathBeingIndexed c <> Some (active_path host c) ->
   loadResult last = false ->
   repoState c !! active_path host c = Some rs -> isGit rs = true ->
   status host c =
     [mkGroup (active_path host c)
        [local_embeddings (if indexable rs then unconsented else no_match)]]) /\
  (forall last,
   lastRepo c = Some last -> path last <> EmptyString ->
   active_path host c = path last).
Proof.
  split; [apply status_not_dotcom |].
  split; [apply status_indeterminate |].
  split; [apply status_indexing |].
  split; [apply status_ready |].
  split; [apply status_not_git |].
  split; [apply status_git | apply active_path_lastRepo].
Qed.

End Status.

(** ** Running the methods *)

Ltac unfold_methods :=
  unfold run, call, top, notified, on_progress, setAccessToken, index, load,
    start, getContext, query, dispose, load_start_service, load_after_done,
    eagerlyLoad, lastRepo_loadResult, void, try_catch, await, request,
    logDebug, emit, modify, get, skip, throw, bind, ret.

Ltac unfold_service :=
  unfold await_getService, getService_world, service_id, getService,
    async_call, run, await, modify, get, bind, ret.

Section Methods.

Variable host : Host.

(** [getService] hands back [this.service] when it is set, and starts
    [spawnAndBindService] when it is not. *)
Lemma exec_getService (k : PromiseId -> Task) (h : JsError -> Task) script w :
  exec (getService host k h) script w =
  exec (k (service_id w)) script (getService_world host w).
Proof.
  unfold_service. simpl. destruct (service (ctl w)); reflexivity.
Qed.

Lemma exec_await_getService (k : MessageHandler -> Task) (h : JsError -> Task) script w :
  exec (await_getService host k h) script w =
  exec (Await (service_id w) (fun r => match r with inl v => k v | inr e => h e end))
    script (getService_world host w).
Proof.
  unfold await_getService, bind. rewrite exec_getService. reflexivity.
Qed.

Lemma getService_world_memo w p :
  service (ctl w) = Some p -> getService_world host w = w /\ service_id w = p.
Proof.
  intros H. unfold_service. simpl. rewrite H. split; reflexivity.
Qed.

Lemma getService_world_spawn w :
  service (ctl w) = None ->
  let w' := getService_world host w in
  ctl w' = set_service (Some (length (promises w))) (ctl w) /\
  promises w' = (promises w ++ [None])%list /\
  trace w' = (trace w ++ [SpawnBfgCalled (spawns w)])%list /\
  requests w' = requests w /\
  spawns w' = S (spawns w) /\
  exists k, pool w' = (pool w ++ [WaitSpawn (spawns w) k])%list.
Proof.
  intros H. unfold_service. unfold spawnAndBindService, spawnBfg, bind.
  simpl. rewrite H. simpl. repeat split. eexists. reflexivity.
Qed.

(** What [getService] never touches. *)
Lemma getService_world_frame w :
  let w' := getService_world host w in
  serviceStarted (ctl w') = serviceStarted (ctl w) /\
  accessToken (ctl w') = accessToken (ctl w) /\
  endpointIsDotcom (ctl w') = endpointIsDotcom (ctl w) /\
  statusBar (ctl w') = statusBar (ctl w) /\
  lastRepo (ctl w') = lastRepo (ctl w) /\
  repoState (ctl w') = repoState (ctl w) /\
  pathBeingIndexed (ctl w') = pathBeingIndexed (ctl w) /\
  requests w' = requests w /\
  count is_status_changed (trace w') = count is_status_changed (trace w) /\
  count is_controller_changed (trace w') = count is_controller_changed (trace w) /\
  count is_request (trace w') = count is_request (trace w).
Proof.
  destruct (service (ctl w)) as [p|] eqn:H.
  - destruct (getService_world_memo w p H) as [-> _]. repeat split.
  - destruct (getService_world_spawn w H) as (Hc & _ & Ht & Hr & _).
    simpl. rewrite Hc, Ht, Hr, !count_app. simpl. repeat split; lia.
Qed.

Opaque await_getService getService_world service_id.

Lemma setAccessToken_first w serverEndpoint token :
  let w1 := run (call host (CallSetAccessToken serverEndpoint token)) w in
  endpointIsDotcom (ctl w1) = isDotCom host serverEndpoint /\
  token_stored token (accessToken (ctl w1)).
Proof.
  unfold_methods. simpl.
  destruct (negb (eqb (isDotCom host serverEndpoint) (endpointIsDotcom (ctl w))));
    [destruct (serviceStarted (ctl w)) eqn:Hst |]; simpl.
  all: destruct (strict_eq token (accessToken (ctl w))) eqn:Heq; simpl;
    [split; [reflexivity | left; exact Heq] |].
  all: unfold or_else; destruct token as [t|]; simpl;
    [| split; [reflexivity | right; split; reflexivity]].
  all: destruct (String.eqb_spec t EmptyString) as [->|Hne]; simpl;
    [split; [reflexivity | right; split; reflexivity] |].
  all: try rewrite Hst; try destruct (serviceStarted (ctl w)); simpl.
  all: try rewrite exec_await_getService; simpl.
  all: try (match goal with
            | |- context [getService_world host ?w0] =>
                destruct (getService_world_frame w0) as (_ & Ha & Hd & _);
                rewrite Ha, Hd; simpl
            end).
  all: split; [reflexivity | left; apply String.eqb_refl].
Qed.

Lemma setAccessToken_again w serverEndpoint token :
  endpointIsDotcom (ctl w) = isDotCom host serverEndpoint ->
  token_stored token (accessToken (ctl w)) ->
  run (call host (CallSetAccessToken serverEndpoint token)) w =
  log (Returned "setAccessToken" RVoid)
    (log (LogDebug (if isDotCom host serverEndpoint
                    then "setAccessToken: is dotcom" else "setAccessToken: not dotcom")) w).
Proof.
  intros Hd Ht. destruct w as [c ps pl tr rq sp].
  destruct c as [sv st tk dc sb lr rs pbi]. simpl in *. subst dc.
  unfold_methods. simpl. rewrite Bool.eqb_reflx. simpl.
  destruct Ht as [Ht | [Ht ->]].
  - rewrite Ht. reflexivity.
  - unfold or_else. destruct token as [t|]; simpl in *; [| reflexivity].
    destruct (String.eqb t EmptyString); simpl in *; [reflexivity | discriminate].
Qed.

(** *** [load] *)

Lemma load_not_dotcom w repoUri k h script :
  endpointIsDotcom (ctl w) = false ->
  exec (load host repoUri k h) script w = exec (k false) script w.
Proof. intros H. unfold_methods. simpl. rewrite H. reflexivity. Qed.

Lemma load_no_path w repoUri k h script :
  truthy_str repoUri = false ->
  exec (load host repoUri k h) script w = exec (k false) script w.
Proof.
  intros H. unfold_methods. simpl.
  destruct (endpointIsDotcom (ctl w)); simpl; [| reflexivity].
  destruct repoUri as [p|]; [| reflexivity].
  simpl in H. rewrite H. reflexivity.
Qed.

Lemma load_negative_cache w p s k h script :
  repoState (ctl w) !! p = Some s -> hasIndex s = false ->
  exec (load host (Some p) k h) script w = exec (k false) script w.
Proof.
  intros Hs Hi. unfold_methods. simpl.
  destruct (endpointIsDotcom (ctl w)); simpl; [| reflexivity].
  destruct (negb (negb (String.eqb p EmptyString))); [reflexivity |].
  rewrite Hs. simpl. rewrite Hi. reflexivity.
Qed.

Lemma load_delegates w p k h script :
  endpointIsDotcom (ctl w) = true -> p <> EmptyString ->
  (forall s, repoState (ctl w) !! p = Some s -> hasIndex s = true) ->
  serviceStarted (ctl w) = true ->
  exec (load host (Some p) k h) script w = exec (eagerlyLoad host p k h) script w.
Proof.
  intros Hd Hp Hs Hst. unfold load, get, bind, ret. simpl. rewrite Hd. simpl.
  destruct (String.eqb_spec p EmptyString); [contradiction |]. simpl.
  destruct (repoState (ctl w) !! p) as [s|] eqn:E; simpl.
  - rewrite (Hs s eq_refl). simpl. rewrite Hst. reflexivity.
  - rewrite Hst. reflexivity.
Qed.

Lemma load_not_started w p k h script :
  endpointIsDotcom (ctl w) = true -> p <> EmptyString ->
  (forall s, repoState (ctl w) !! p = Some s -> hasIndex s = true) ->
  serviceStarted (ctl w) = false ->
  exec (load host (Some p) k h) script w =
  exec (k false) script (run (load_start_service host (fun _ => Done) (fun _ => Done)) w).
Proof.
  intros Hd Hp Hs Hst. unfold load, void, get, bind, ret. simpl. rewrite Hd. simpl.
  destruct (String.eqb_spec p EmptyString); [contradiction |]. simpl.
  destruct (repoState (ctl w) !! p) as [s|] eqn:E; simpl.
  - rewrite (Hs s eq_refl). simpl. rewrite Hst. reflexivity.
  - rewrite Hst. reflexivity.
Qed.

(** The background start is one call of [getService], awaited. *)
Lemma load_start_service_run w :
  exists K,
    run (load_start_service host (fun _ => Done) (fun _ => Done)) w =
    suspend (WaitPromise (service_id w) K) (getService_world host w).
Proof.
  unfold load_start_service, try_catch, bind, skip, ret, run.
  rewrite exec_await_getService. simpl. eexists. reflexivity.
Qed.

(** *** [eagerlyLoad] *)

(** With the engine's handle in hand, the routine sends one
    embeddings/load request and waits for the reply. *)
Lemma eagerlyLoad_requests w p bfg meanwhile k h :
  let w1 := meanwhile (getService_world host w) in
  exists K,
    exec (eagerlyLoad host p k h) [(Settled (inl bfg), meanwhile)] w =
    suspend (WaitReply (requests w1) K) (send (Load p) w1).
Proof.
  unfold_methods. rewrite exec_await_getService. simpl. eexists. reflexivity.
Qed.

Lemma eagerlyLoad_exec w p bfg r f1 f2 k h :
  let w2 := f2 (send (Load p) (f1 (getService_world host w))) in
  exec (eagerlyLoad host p k h) [(Settled (inl bfg), f1); (Replied r, f2)] w =
  match r with
  | inl v =>
      exec (k (truthy v)) []
        (record_load p {| indexable := true; isGit := true; hasIndex := truthy v |}
           (truthy v) w2)
  | inr e =>
      exec (k false) []
        (record_load p (eagerlyLoad_failure e) false
           (log (LogDebug "load") (log (CaptureException e) w2)))
  end.
Proof.
  unfold_methods. rewrite exec_await_getService. simpl.
  destruct r; reflexivity.
Qed.

(** When the service handle itself is rejected, no request is sent and
    the rejection is recorded like a failed load. *)
Lemma eagerlyLoad_exec_no_service w p e f1 k h :
  let w1 := f1 (getService_world host w) in
  exec (eagerlyLoad host p k h) [(Settled (inr e), f1)] w =
  exec (k false) []
    (record_load p (eagerlyLoad_failure e) false
       (log (LogDebug "load") (log (CaptureException e) w1))).
Proof.
  unfold_methods. rewrite exec_await_getService. simpl. reflexivity.
Qed.

(** *** [index] *)

Lemma index_guard_spec c :
  index_guard c = true <->
  endpointIsDotcom c = true /\
  exists last, lastRepo c = Some last /\ path last <> EmptyString /\ loadResult last = false.
Proof.
  unfold index_guard. destruct (endpointIsDotcom c), (lastRepo c) as [[p r]|]; simpl.
  all: try (split; [discriminate | intros (H & last & H1 & _); discriminate]).
  destruct (String.eqb_spec p EmptyString) as [->|Hne], r; simpl; split;
    try discriminate;
    try (intros (_ & last & [= <-] & Hp & Hr); simpl in *; congruence).
  intros _. split; [reflexivity |]. eexists. repeat split. exact Hne.
Qed.

Lemma index_noop w k h script :
  index_guard (ctl w) = false ->
  exec (index host k h) script w =
  exec (k tt) script (log (LogDebug "index: No repository to index/already indexed") w).
Proof. intros H. unfold_methods. simpl. rewrite H. reflexivity. Qed.

Lemma index_requests w last bfg meanwhile k h :
  index_guard (ctl w) = true -> lastRepo (ctl w) = Some last ->
  let w1 := meanwhile (getService_world host (log (LogDebug "index: Starting repository") w)) in
  exists K,
    exec (index host k h) [(Settled (inl bfg), meanwhile)] w =
    suspend (WaitReply (requests w1) K) (send (Index (path last) (model host) 1536) w1).
Proof.
  intros Hg Hl. unfold_methods. simpl. rewrite Hg, Hl. simpl.
  rewrite exec_await_getService. simpl. eexists. reflexivity.
Qed.

(** C10: while there is no status indicator, the ['embeddings/progress']
    handler ignores every payload: the world after the handler is the
    world before it, so no field changes ([pathBeingIndexed] included),
    nothing is forked or sent and no event fires. *)
Theorem progress_ignored_without_statusBar (w : World) (obj : Notification) :
  statusBar (ctl w) = None -> run (notified host obj) w = w.
Proof.
  intros H. unfold_methods. simpl. rewrite H. reflexivity.
Qed.

(** C9: a second [setAccessToken] with the same endpoint and token
    changes no field of the controller, suspends nothing and sends
    nothing (so no embeddings/set-token request) and fires neither a
    status-changed nor a controller-changed event: it only logs and
    returns. *)
Theorem setAccessToken_twice (w : World) (serverEndpoint : string) (token : option string) :
  let w1 := run (call host (CallSetAccessToken serverEndpoint token)) w in
  let w2 := run (call host (CallSetAccessToken serverEndpoint token)) w1 in
  ctl w2 = ctl w1 /\
  pool w2 = pool w1 /\
  promises w2 = promises w1 /\
  requests w2 = requests w1 /\
  endpointIsDotcom (ctl w2) = endpointIsDotcom (ctl w1) /\
  accessToken (ctl w2) = accessToken (ctl w1) /\
  trace w2 =
    (trace w1 ++
      [LogDebug (if isDotCom host serverEndpoint
                 then "setAccessToken: is dotcom" else "setAccessToken: not dotcom");
       Returned "setAccessToken" RVoid])%list /\
  count is_status_changed (trace w2) = count is_status_changed (trace w1) /\
  count is_controller_changed (trace w2) = count is_controller_changed (trace w1) /\
  count is_request (trace w2) = count is_request (trace w1).
Proof.
  intros w1 w2.
  destruct (setAccessToken_first w serverEndpoint token) as [Hd Ht].
  fold w1 in Hd, Ht.
  subst w2. rewrite (setAccessToken_again w1 serverEndpoint token Hd Ht).
  simpl. rewrite <- !app_assoc, !count_app. simpl.
  repeat split; lia.
Qed.

End Methods.

(** ** The invariant *)

Lemma forward_refl c ps : forward c ps c ps.
Proof. split; auto. Qed.

Lemma forward_trans c1 ps1 c2 ps2 c3 ps3 :
  forward c1 ps1 c2 ps2 -> forward c2 ps2 c3 ps3 -> forward c1 ps1 c3 ps3.
Proof. intros [H1 H2] [H3 H4]. split; auto. Qed.

Lemma forward_alloc c (ps : list PromiseState) : forward c ps c (ps ++ [None]).
Proof.
  split; [auto |]. intros p r H. rewrite lookup_app_l; [exact H |].
  eapply lookup_lt_Some; eauto.
Qed.

Lemma settle_in_settled (ps : list PromiseState) p r q x :
  ps !! q = Some (Some x) -> settle_in p r ps !! q = Some (Some x).
Proof.
  intros H. unfold settle_in. destruct (ps !! p) as [[y|]|] eqn:E; try exact H.
  destruct (decide (p = q)) as [->|Hne].
  - rewrite H in E. discriminate.
  - rewrite list_lookup_insert_ne by exact Hne. exact H.
Qed.

Lemma forward_settle c ps p r : forward c ps c (settle_in p r ps).
Proof. split; [auto |]. intros q x. apply settle_in_settled. Qed.

Lemma suspended_safe_forward c ps c' ps' s :
  forward c ps c' ps' -> suspended_safe c ps s -> suspended_safe c' ps' s.
Proof.
  intros Hf Hs. destruct s; simpl in *; intros; apply Hs; eauto using forward_trans.
Qed.

(** A synchronous run of a safe task keeps the suspended tasks safe and
    ends where the task says. *)
Lemma exec_safe t : forall Q w,
  safe t Q (ctl w) (promises w) ->
  Forall (suspended_safe (ctl w) (promises w)) (pool w) ->
  let w' := exec t [] w in
  Q (ctl w') (promises w') /\
  Forall (suspended_safe (ctl w') (promises w')) (pool w') /\
  forward (ctl w) (promises w) (ctl w') (promises w') /\
  (service (ctl w) <> None -> count is_spawn (trace w') = count is_spawn (trace w)).
Proof.
  induction t as [| k IH | f k IH | e k IH | k IH | p r k IH | t1 IH1 k IH
                   | p k IH | req k IH | k IH]; intros Q w Hs Hp; simpl in *.
  - auto using forward_refl.
  - apply IH; assumption.
  - destruct Hs as [Hsv Hs].
    assert (Hf : forward (ctl w) (promises w) (f (ctl w)) (promises w)) by (split; auto).
    destruct (IH Q (upd_ctl f w) Hs) as (HQ & Hp' & Hf' & Hc).
    { simpl. eapply Forall_impl; [exact Hp |]. intros s. apply suspended_safe_forward, Hf. }
    split; [exact HQ |]. split; [exact Hp' |].
    split; [eapply forward_trans; [exact Hf | exact Hf'] |].
    intros Hne. apply Hc. simpl.
    destruct (service (ctl w)) as [q|] eqn:E; [| contradiction].
    assert (service (f (ctl w)) = Some q) as ->
      by (apply Hsv; first [exact E | reflexivity]).
    discriminate.
  - destruct Hs as [He Hs].
    destruct (IH Q (log e w) Hs Hp) as (HQ & Hp' & Hf' & Hc).
    split; [exact HQ |]. split; [exact Hp' |]. split; [exact Hf' |].
    intros Hne. rewrite (Hc Hne). simpl. rewrite count_app. simpl. rewrite He. lia.
  - destruct (IH (length (promises w)) Q (alloc w) Hs) as (HQ & Hp' & Hf' & Hc).
    { simpl. eapply Forall_impl; [exact Hp |]. intros s.
      apply suspended_safe_forward, forward_alloc. }
    split; [exact HQ |]. split; [exact Hp' |].
    split; [eapply forward_trans; [apply forward_alloc | exact Hf'] | exact Hc].
  - destruct (IH Q (settle p r w) Hs) as (HQ & Hp' & Hf' & Hc).
    { simpl. eapply Forall_impl; [exact Hp |]. intros s.
      apply suspended_safe_forward, forward_settle. }
    split; [exact HQ |]. split; [exact Hp' |].
    split; [eapply forward_trans; [apply (forward_settle _ _ p r) | exact Hf'] | exact Hc].
  - destruct (IH1 _ w Hs Hp) as (HQ & Hp' & Hf' & Hc).
    destruct (IH Q _ HQ Hp') as (HQ2 & Hp2 & Hf2 & Hc2).
    split; [exact HQ2 |]. split; [exact Hp2 |].
    split; [eapply forward_trans; [exact Hf' | exact Hf2] |].
    intros Hne. rewrite Hc2; [apply Hc, Hne |].
    destruct (service (ctl w)) as [q|] eqn:E; [| contradiction].
    destruct Hf' as [Hsv _].
    assert (service (ctl (exec t1 [] w)) = Some q) as ->
      by (apply Hsv; first [exact E | reflexivity]).
    discriminate.
  - destruct Hs as [HQ Hk]. split; [exact HQ |].
    split; [| split; [apply forward_refl | reflexivity]].
    apply Forall_app. split; [exact Hp |]. constructor; [exact Hk | constructor].
  - destruct Hs as [HQ Hk]. split; [exact HQ |].
    split; [| split; [apply forward_refl |]].
    + apply Forall_app. split; [exact Hp |]. constructor; [exact Hk | constructor].
    + intros _. rewrite count_app. simpl. lia.
  - destruct Hs as (Hnone & HQ & Hk). split; [exact HQ |].
    split; [| split; [apply forward_refl | contradiction]].
    apply Forall_app. split; [exact Hp |]. constructor; [exact Hk | constructor].
Qed.

(** *** The invariant and the assignments of the controller *)

Lemma inv_promises c ps ps' :
  controller_inv c ps -> forward c ps c ps' -> controller_inv c ps'.
Proof.
  intros (H1 & H2 & H3) [_ Hf]. repeat split; try apply H2; eauto.
  - apply (H3 p H).
  - destruct (H3 p H) as (_ & q & bfg & Hq & Hl). exists q, bfg. eauto.
Qed.

Lemma inv_no_service c ps :
  controller_inv c ps -> service c = None -> pathBeingIndexed c = None.
Proof.
  intros (_ & _ & H3) Hs. destruct (pathBeingIndexed c) as [p|] eqn:E; [| reflexivity].
  destruct (H3 p eq_refl) as (_ & q & bfg & Hq & _). congruence.
Qed.

Lemma inv_after_getService c ps p c1 ps1 :
  controller_inv c ps -> after_getService c ps p c1 ps1 -> controller_inv c1 ps1.
Proof.
  intros Hi [(_ & -> & ->) | (Hs & -> & -> & ->)]; [exact Hi |].
  pose proof (inv_no_service c ps Hi Hs) as Hp.
  destruct Hi as (H1 & H2 & H3). split; [exact H1 |]. split; [exact H2 |].
  simpl. intros q Hq. congruence.
Qed.

Lemma after_getService_service c ps p c1 ps1 :
  after_getService c ps p c1 ps1 -> service c1 = Some p.
Proof. intros [(H & -> & _) | (_ & _ & -> & _)]; [exact H | reflexivity]. Qed.

Lemma after_getService_forward c ps p c1 ps1 :
  after_getService c ps p c1 ps1 -> forward c ps c1 ps1.
Proof.
  intros [(_ & -> & ->) | (Hs & _ & -> & ->)]; [apply forward_refl |].
  split; [intros q Hq; congruence | apply (forward_alloc c ps)].
Qed.

Lemma inv_settle c ps p r :
  controller_inv c ps -> controller_inv c (settle_in p r ps).
Proof. intros H. eapply inv_promises; [exact H | apply forward_settle]. Qed.

Lemma inv_set_serviceStarted c ps b :
  controller_inv c ps -> controller_inv (set_serviceStarted b c) ps.
Proof. intros H. exact H. Qed.

Lemma inv_set_accessToken c ps v :
  controller_inv c ps -> controller_inv (set_accessToken v c) ps.
Proof. intros H. exact H. Qed.

Lemma inv_set_endpointIsDotcom c ps v :
  controller_inv c ps -> controller_inv (set_endpointIsDotcom v c) ps.
Proof. intros H. exact H. Qed.

Lemma inv_set_lastRepo c ps v :
  controller_inv c ps -> controller_inv (set_lastRepo v c) ps.
Proof. intros H. exact H. Qed.

(** A recorded repository state keeps the invariant when it is itself
    well-formed. *)
Lemma inv_set_repoState c ps p s :
  (isGit s = false -> indexable s = false) ->
  controller_inv c ps ->
  controller_inv (set_repoState (<[p := s]> (repoState c)) c) ps.
Proof.
  intros Hs (H1 & H2 & H3). split; [| split; [exact H2 | exact H3]].
  simpl. intros q s' Hq. destruct (decide (p = q)) as [->|Hne].
  - rewrite lookup_insert_eq in Hq. injection Hq as <-. exact Hs.
  - rewrite lookup_insert_ne in Hq by exact Hne. eauto.
Qed.

Lemma eagerlyLoad_failure_inv e :
  isGit (eagerlyLoad_failure e) = false -> indexable (eagerlyLoad_failure e) = false.
Proof.
  unfold eagerlyLoad_failure. simpl.
  destruct (regex_test _ _); simpl; [reflexivity | discriminate].
Qed.

(** *** The safety of each piece of code *)

Section Safety.

Variable host : Host.

Transparent await_getService getService_world service_id.

Ltac safe_close :=
  solve [ assumption
        | auto
        | eauto using inv_settle, inv_set_serviceStarted, inv_set_accessToken,
            inv_set_endpointIsDotcom, inv_set_lastRepo ].

Ltac safe_crush :=
  repeat match goal with
         | |- _ /\ _ => split
         | |- forall _, _ => intro
         | |- safe ?t _ _ _ =>
             first
               [ match t with
                 | context [match ?x with _ => _ end] => destruct x eqn:?
                 end
               | progress cbn ]
         end.

(** The engine's start-up, once spawned, only sets [serviceStarted] and
    settles its own promise. *)
Lemma spawnAndBindService_safe p Q c ps :
  service c = None -> Q c ps ->
  safe (spawnAndBindService host (fun v => Settle p (inl v) Done)
          (fun e => Settle p (inr e) Done)) Q c ps.
Proof.
  intros Hnone HQ. unfold spawnAndBindService, spawnBfg, getIndexLibraryPaths, request,
    logDebug, emit, modify, get, skip, throw, bind, ret.
  cbn. split; [exact Hnone |]. split; [exact HQ |]. intros c1 ps1 o Hi1 _.
  safe_crush.
  all: safe_close.
Qed.

Lemma getService_safe k h Q c ps :
  (forall p c1 ps1, after_getService c ps p c1 ps1 -> safe (k p) Q c1 ps1) ->
  safe (getService host k h) Q c ps.
Proof.
  intros Hk. unfold getService, async_call, modify, get, bind, ret. cbn [safe].
  destruct (service c) as [p|] eqn:Hs.
  - apply Hk. left. auto.
  - cbn [safe]. apply spawnAndBindService_safe; [exact Hs |]. cbn [safe].
    split; [intros q Hq; congruence |].
    apply Hk. right. auto.
Qed.

Lemma await_getService_safe k h Q c ps :
  (forall p c1 ps1, after_getService c ps p c1 ps1 ->
     Q c1 ps1 /\
     forall c' ps' r,
       controller_inv c' ps' -> forward c1 ps1 c' ps' -> ps' !! p = Some (Some r) ->
       safe (match r with inl v => k v | inr e => h e end) controller_inv c' ps') ->
  safe (await_getService host k h) Q c ps.
Proof.
  intros Hk. unfold await_getService, bind. apply getService_safe.
  intros p c1 ps1 Ha. unfold await. cbn [safe]. apply (Hk p c1 ps1 Ha).
Qed.

Opaque await_getService.

Ltac safe_methods :=
  unfold call, top, notified, on_progress, setAccessToken, index, load,
    start, getContext, query, dispose, load_start_service, load_after_done,
    eagerlyLoad, lastRepo_loadResult, void, try_catch, request,
    logDebug, emit, modify, get, skip, throw, bind, ret.

Ltac safe_walk :=
  repeat match goal with
         | |- _ /\ _ => split
         | |- forall _, _ => intro
         | |- safe (await_getService _ _ _) _ _ _ => apply await_getService_safe
         | |- safe ?t _ _ _ =>
             first
               [ match t with
                 | context [match ?x with _ => _ end] => destruct x eqn:?
                 end
               | progress cbn ]
         end.

Lemma eagerlyLoad_safe p k h Q c ps :
  (forall b c' ps', controller_inv c' ps' -> safe (k b) controller_inv c' ps') ->
  (forall q c1 ps1, after_getService c ps q c1 ps1 -> Q c1 ps1) ->
  safe (eagerlyLoad host p k h) Q c ps.
Proof.
  intros Hk HQ. safe_methods. safe_walk.
  all: try solve [eapply HQ; eauto].
  all: try solve [auto].
  all: apply Hk.
  all: apply inv_set_lastRepo, inv_set_repoState;
    [first [apply eagerlyLoad_failure_inv | discriminate] | assumption].
Qed.

Lemma inv_index_started c ps p item :
  controller_inv c ps -> p <> EmptyString -> service_ready c ps ->
  controller_inv (set_statusBar (Some item) (set_pathBeingIndexed (Some p) c)) ps.
Proof.
  intros (H1 & H2 & H3) Hp Hr. split; [exact H1 |]. simpl. split.
  - split; discriminate.
  - intros q [= <-]. split; assumption.
Qed.

Lemma inv_done c ps :
  controller_inv c ps ->
  controller_inv (set_pathBeingIndexed None (set_statusBar None c)) ps.
Proof.
  intros (H1 & H2 & H3). split; [exact H1 |]. simpl. split; [tauto | discriminate].
Qed.

Lemma inv_done_reload c ps p c1 ps1 :
  controller_inv c ps ->
  after_getService (set_statusBar None c) ps p c1 ps1 ->
  controller_inv (set_pathBeingIndexed None c1) ps1.
Proof.
  intros Hi [(_ & -> & ->) | (_ & _ & -> & ->)]; [apply inv_done, Hi |].
  destruct Hi as (H1 & H2 & H3). split; [exact H1 |]. simpl.
  split; [tauto | discriminate].
Qed.

Lemma inv_statusBar_update c ps item item' :
  controller_inv c ps -> statusBar c = Some item ->
  controller_inv (set_statusBar (Some item') c) ps.
Proof.
  intros (H1 & H2 & H3) Hs. split; [exact H1 |]. simpl. split; [| exact H3].
  split; [discriminate |]. intros Hp. apply H2 in Hp. congruence.
Qed.

Lemma service_ready_forward c ps c' ps' :
  service_ready c ps -> forward c ps c' ps' -> service_ready c' ps'.
Proof. intros (p & bfg & H1 & H2) [Hf1 Hf2]. exists p, bfg. eauto. Qed.

Lemma index_guard_path c last :
  index_guard c = true -> lastRepo c = Some last -> path last <> EmptyString.
Proof.
  intros Hg Hl. apply index_guard_spec in Hg. destruct Hg as (_ & l & Hl' & Hp & _).
  congruence.
Qed.

Ltac inv_close :=
  first
    [ assumption
    | apply inv_set_lastRepo, inv_set_repoState;
        [first [apply eagerlyLoad_failure_inv | discriminate] | assumption]
    | eapply inv_after_getService; [| eassumption];
        repeat first [assumption | apply inv_set_accessToken
                     | apply inv_set_endpointIsDotcom]
    | solve [auto] ].

(** Every method the host can call is safe. *)
Lemma call_safe m c ps :
  controller_inv c ps -> safe (call host m) controller_inv c ps.
Proof.
  intros Hi. destruct m; safe_methods; safe_walk; try inv_close.
  (* index: the request was accepted *)
  all: apply inv_index_started; [assumption | |].
  all: try (eapply index_guard_path; [| eassumption];
            destruct (index_guard c); [reflexivity | discriminate]).
  all: eapply service_ready_forward; [| eassumption].
  all: match goal with
       | Ha : after_getService _ _ ?p _ _, Hf : forward _ _ ?c' _,
         Hl : _ !! ?p = Some (Some (inl ?n)) |- service_ready ?c' _ =>
           exists p, n; split; [| exact Hl];
           apply Hf; eapply after_getService_service; exact Ha
       end.
Qed.

(** So is the notification handler. *)
Lemma notified_safe obj c ps :
  controller_inv c ps -> safe (notified host obj) controller_inv c ps.
Proof.
  intros Hi. safe_methods; safe_walk; try inv_close.
  all: try (eapply inv_statusBar_update; eassumption).
  all: try (apply inv_done; assumption).
  eapply inv_done_reload; eassumption.
Qed.

Transparent await_getService.

Lemma take_reply_Forall (P : Suspended -> Prop) rid l k rest :
  take_reply rid l = Some (k, rest) -> Forall P l ->
  (exists rid', P (WaitReply rid' k)) /\ Forall P rest.
Proof.
  revert k rest. induction l as [|s l IH]; intros k rest Ht Hl; [discriminate |].
  inversion Hl as [|? ? Hs Hl']; subst. simpl in Ht.
  destruct s as [p k0 | rid' k0 | sid k0].
  - destruct (take_reply rid l) as [[k1 rest1]|]; [| discriminate].
    injection Ht as <- <-. destruct (IH _ _ eq_refl Hl') as [He Hr].
    split; [exact He | constructor; assumption].
  - destruct (Nat.eqb rid rid').
    + injection Ht as <- <-. split; [eexists; exact Hs | exact Hl'].
    + destruct (take_reply rid l) as [[k1 rest1]|]; [| discriminate].
      injection Ht as <- <-. destruct (IH _ _ eq_refl Hl') as [He Hr].
      split; [exact He | constructor; assumption].
  - destruct (take_reply rid l) as [[k1 rest1]|]; [| discriminate].
    injection Ht as <- <-. destruct (IH _ _ eq_refl Hl') as [He Hr].
    split; [exact He | constructor; assumption].
Qed.

Lemma take_spawn_Forall (P : Suspended -> Prop) sid l k rest :
  take_spawn sid l = Some (k, rest) -> Forall P l ->
  (exists sid', P (WaitSpawn sid' k)) /\ Forall P rest.
Proof.
  revert k rest. induction l as [|s l IH]; intros k rest Ht Hl; [discriminate |].
  inversion Hl as [|? ? Hs Hl']; subst. simpl in Ht.
  destruct s as [p k0 | rid' k0 | sid' k0].
  - destruct (take_spawn sid l) as [[k1 rest1]|]; [| discriminate].
    injection Ht as <- <-. destruct (IH _ _ eq_refl Hl') as [He Hr].
    split; [exact He | constructor; assumption].
  - destruct (take_spawn sid l) as [[k1 rest1]|]; [| discriminate].
    injection Ht as <- <-. destruct (IH _ _ eq_refl Hl') as [He Hr].
    split; [exact He | constructor; assumption].
  - destruct (Nat.eqb sid sid').
    + injection Ht as <- <-. split; [eexists; exact Hs | exact Hl'].
    + destruct (take_spawn sid l) as [[k1 rest1]|]; [| discriminate].
      injection Ht as <- <-. destruct (IH _ _ eq_refl Hl') as [He Hr].
      split; [exact He | constructor; assumption].
Qed.

(** Every event keeps the invariant and moves the world forward; once
    [this.service] is set, no event spawns the engine. *)
Lemma deliver_inv ev w w' :
  world_inv w -> deliver host ev w = Some w' ->
  world_inv w' /\
  forward (ctl w) (promises w) (ctl w') (promises w') /\
  (service (ctl w) <> None -> count is_spawn (trace w') = count is_spawn (trace w)).
Proof.
  intros [Hi Hp] Hd.
  assert (Hrun : forall t rest,
    safe t controller_inv (ctl w) (promises w) ->
    Forall (suspended_safe (ctl w) (promises w)) rest ->
    let w1 := run t (set_pool rest w) in
    world_inv w1 /\
    forward (ctl w) (promises w) (ctl w1) (promises w1) /\
    (service (ctl w) <> None -> count is_spawn (trace w1) = count is_spawn (trace w))).
  { intros t rest Ht Hrest.
    destruct (exec_safe t controller_inv (set_pool rest w) Ht Hrest) as (H1 & H2 & H3 & H4).
    split; [split; assumption |]. split; [exact H3 | exact H4]. }
  assert (Hsame : set_pool (pool w) w = w) by (destruct w; reflexivity).
  destruct ev as [m | sid o | rid r | obj | i]; simpl in Hd.
  - injection Hd as <-.
    pose proof (Hrun (call host m) (pool w) (call_safe m _ _ Hi) Hp) as H.
    rewrite Hsame in H. exact H.
  - destruct (take_spawn sid (pool w)) as [[k rest]|] eqn:Ht; [| discriminate].
    injection Hd as <-.
    destruct (take_spawn_Forall _ _ _ _ _ Ht Hp) as [[sid' Hk] Hrest].
    apply Hrun; [| exact Hrest]. apply Hk; [exact Hi | apply forward_refl].
  - destruct (take_reply rid (pool w)) as [[k rest]|] eqn:Ht; [| discriminate].
    injection Hd as <-.
    destruct (take_reply_Forall _ _ _ _ _ Ht Hp) as [[rid' Hk] Hrest].
    apply Hrun; [| exact Hrest]. apply Hk; [exact Hi | apply forward_refl].
  - destruct (registered w); [| discriminate]. injection Hd as <-.
    pose proof (Hrun (notified host obj) (pool w) (notified_safe obj _ _ Hi) Hp) as H.
    rewrite Hsame in H. exact H.
  - destruct (pool w !! i) as [[p k | |]|] eqn:Hl; try discriminate.
    destruct (promises w !! p) as [[r|]|] eqn:Hr; try discriminate.
    injection Hd as <-.
    apply Hrun; [| apply Forall_delete, Hp].
    pose proof (Forall_lookup_1 _ _ _ _ Hp Hl) as Hk. simpl in Hk.
    apply Hk; [exact Hi | apply forward_refl | exact Hr].
Qed.

Lemma new_world_inv : world_inv new_world.
Proof.
  split; [| constructor]. split; [| split].
  - intros p s H. simpl in H. rewrite lookup_empty in H. discriminate.
  - simpl. tauto.
  - simpl. discriminate.
Qed.

Lemma reachable_inv w : reachable host w -> world_inv w.
Proof.
  induction 1 as [| w ev w' _ IH Hd]; [apply new_world_inv |].
  eapply deliver_inv; eassumption.
Qed.

Lemma deliver_all_reachable evs w w' :
  reachable host w -> deliver_all host evs w = Some w' -> reachable host w'.
Proof.
  revert w. induction evs as [|ev evs IH]; intros w Hr Hd; simpl in Hd.
  - injection Hd as <-. exact Hr.
  - destruct (deliver host ev w) as [w1|] eqn:E; [| discriminate].
    simpl in Hd. eapply IH; [| exact Hd]. econstructor; eassumption.
Qed.



End Safety.

(** * The properties of the specification *)

Opaque await_getService getService_world service_id.

(** [regex_test pat s] holds exactly when [pat] occurs in [s]. *)
Lemma append_cons a s t : String a s +:+ t = String a (s +:+ t).
Proof. reflexivity. Qed.

Lemma prefix_spec pat s :
  String.prefix pat s = true <-> exists post, s = pat +:+ post.
Proof.
  revert s. induction pat as [|a pat IH]; intros s; simpl.
  - destruct s; split; eauto.
  - destruct s as [|b s]; simpl.
    + split; [discriminate | intros [post H]; discriminate].
    + destruct (Ascii.ascii_dec a b) as [->|Hne].
      * rewrite IH. split; intros [post H]; exists post;
          rewrite append_cons in *; congruence.
      * split; [discriminate | intros [post H]; rewrite append_cons in H; congruence].
Qed.

Lemma regex_test_spec pat s :
  regex_test pat s = true <-> exists pre post, s = pre +:+ pat +:+ post.
Proof.
  induction s as [|a s IH]; cbn [regex_test].
  - rewrite orb_false_r, prefix_spec. split.
    + intros [post H]. exists EmptyString, post. exact H.
    + intros (pre & post & H). destruct pre; [eauto | discriminate].
  - rewrite orb_true_iff, prefix_spec, IH. split.
    + intros [[post H] | (pre & post & H)].
      * exists EmptyString, post. exact H.
      * exists (String a pre), post. rewrite append_cons. congruence.
    + intros (pre & post & H). destruct pre as [|b pre].
      * left. eauto.
      * right. exists pre, post. rewrite append_cons in H. congruence.
Qed.

Section Specification.

Variable host : Host.

(** C4: [load] returns false and leaves the world as it is (no request,
    no field written) when the endpoint is not dotcom, when there is no
    path, and when the cached state of the path has no index.  Past
    these guards a cached state that has an index stops nothing: with
    the service started [load] is [eagerlyLoad], which sends
    embeddings/load once it holds the engine's handle; with the service
    not started [load] returns false at once, having started a task
    that awaits [getService] and having written neither [repoState] nor
    [lastRepo] nor sent a request. *)
Theorem load_short_circuits (w : World) (repoUri : option string)
    (k : bool -> Task) (h : JsError -> Task) script :
  ((endpointIsDotcom (ctl w) = false \/ truthy_str repoUri = false \/
    (exists p s, repoUri = Some p /\ repoState (ctl w) !! p = Some s /\
                 hasIndex s = false)) ->
   exec (load host repoUri k h) script w = exec (k false) script w) /\
  (forall p,
   endpointIsDotcom (ctl w) = true -> repoUri = Some p -> p <> EmptyString ->
   (forall s, repoState (ctl w) !! p = Some s -> hasIndex s = true) ->
   (serviceStarted (ctl w) = true ->
    exec (load host repoUri k h) script w = exec (eagerlyLoad host p k h) script w /\
    forall bfg meanwhile,
      let w1 := meanwhile (getService_world host w) in
      exists K,
        exec (load host repoUri k h) [(Settled (inl bfg), meanwhile)] w =
        suspend (WaitReply (requests w1) K) (send (Load p) w1)) /\
   (serviceStarted (ctl w) = false ->
    exists K,
      let w1 := suspend (WaitPromise (service_id w) K) (getService_world host w) in
      exec (load host repoUri k h) script w = exec (k false) script w1 /\
      repoState (ctl w1) = repoState (ctl w) /\
      lastRepo (ctl w1) = lastRepo (ctl w) /\
      requests w1 = requests w /\
      count is_request (trace w1) = count is_request (trace w) /\
      (forall q, service (ctl w) = Some q -> trace w1 = trace w) /\
      (service (ctl w) = None ->
       trace w1 = (trace w ++ [SpawnBfgCalled (spawns w)])%list))).
Proof.
  split.
  - intros [Hd | [Hp | (p & s & -> & Hs & Hi)]].
    + apply load_not_dotcom, Hd.
    + apply load_no_path, Hp.
    + eapply load_negative_cache; eassumption.
  - intros p Hd -> Hp Hs. split.
    + intros Hst. split; [apply load_delegates; assumption |].
      intros bfg meanwhile w1. rewrite load_delegates by assumption.
      apply eagerlyLoad_requests.
    + intros Hst. destruct (load_start_service_run host w) as [K HK].
      exists K. cbv zeta. rewrite load_not_started by assumption. rewrite HK.
      destruct (getService_world_frame host w) as (_ & _ & _ & _ & Hl & Hr & _ & Hq & _ & _ & Hc).
      simpl in *. repeat split; try assumption.
      * intros q Hq'. destruct (getService_world_memo host w q Hq') as [-> _]. reflexivity.
      * intros Hn. apply (getService_world_spawn host w Hn).
Qed.

(** C5: the load-attempt routine, once it holds the engine's handle and
    has sent embeddings/load for [p].  When the request fails with error
    [e] it records for [p] a state with [hasIndex] false, [isGit] the
    negation of "[e]'s message matches /does not appear to be a git
    repository/" and [indexable] the negation of "that, or [e]'s message
    is the no-default-fetch-URL message", and it records the last
    repository [p] with [loadResult] false.  When the request succeeds
    it records the answer's truth value.  Either way it then fires one
    status-changed event and returns the [loadResult] it recorded; so it
    does when the handle it waits for is rejected and no request is
    sent.  [f1] and [f2] stand for whatever else ran while the routine
    was suspended. *)
Theorem eagerlyLoad_records (w : World) (p : string) (bfg : MessageHandler)
    (r : Result JsValue) (f1 f2 : World -> World) :
  let w2 := f2 (send (Load p) (f1 (getService_world host w))) in
  let w' := exec (top "eagerlyLoad" RBool (eagerlyLoad host p))
              [(Settled (inl bfg), f1); (Replied r, f2)] w in
  match r with
  | inr e =>
      let notGit := regex_test "does not appear to be a git repository" (message e) in
      let noRemote :=
        String.eqb (message e)
          "repository does not have a default fetch URL, so can't be named for an index" in
      repoState (ctl w') =
        <[p := {| indexable := negb (notGit || noRemote);
                  isGit := negb notGit;
                  hasIndex := false |}]> (repoState (ctl w2)) /\
      lastRepo (ctl w') = Some {| path := p; loadResult := false |} /\
      trace w' =
        (trace w2 ++ [CaptureException e; LogDebug "load"; StatusChanged;
                      Returned "eagerlyLoad" (RBool false)])%list
  | inl v =>
      repoState (ctl w') =
        <[p := {| indexable := true; isGit := true; hasIndex := truthy v |}]>
          (repoState (ctl w2)) /\
      lastRepo (ctl w') = Some {| path := p; loadResult := truthy v |} /\
      trace w' =
        (trace w2 ++ [StatusChanged; Returned "eagerlyLoad" (RBool (truthy v))])%list
  end /\
  count is_status_changed (trace w') = count is_status_changed (trace w2) + 1 /\
  count is_status_changed
    (trace (exec (top "eagerlyLoad" RBool (eagerlyLoad host p))
              [(Settled (inl bfg), fun x => x); (Replied r, fun x => x)] w)) =
  count is_status_changed (trace w) + 1 /\
  forall e,
    let w1 := f1 (getService_world host w) in
    let w'' := exec (top "eagerlyLoad" RBool (eagerlyLoad host p))
                 [(Settled (inr e), f1)] w in
    lastRepo (ctl w'') = Some {| path := p; loadResult := false |} /\
    trace w'' =
      (trace w1 ++ [CaptureException e; LogDebug "load"; StatusChanged;
                    Returned "eagerlyLoad" (RBool false)])%list.
Proof.
  intros w2 w'. subst w'. unfold top.
  rewrite !eagerlyLoad_exec. fold w2.
  assert (Hno : forall e,
    let w1 := f1 (getService_world host w) in
    let w'' := exec (eagerlyLoad host p
                       (fun a => Do (Returned "eagerlyLoad" (RBool a)) Done)
                       (fun e0 => Do (Threw "eagerlyLoad" e0) Done))
                 [(Settled (inr e), f1)] w in
    lastRepo (ctl w'') = Some {| path := p; loadResult := false |} /\
    trace w'' =
      (trace w1 ++ [CaptureException e; LogDebug "load"; StatusChanged;
                    Returned "eagerlyLoad" (RBool false)])%list).
  { intros e. cbv zeta. rewrite eagerlyLoad_exec_no_service. simpl.
    rewrite <- !app_assoc. split; reflexivity. }
  destruct (getService_world_frame host w) as (_ & _ & _ & _ & _ & _ & _ & _ & Hc & _).
  split; [| split; [| split; [| exact Hno]]].
  - destruct r as [v | e]; simpl; rewrite <- !app_assoc; repeat split.
  - destruct r as [v | e]; simpl; rewrite !count_app; simpl; lia.
  - destruct r as [v | e]; simpl; rewrite !count_app, Hc; simpl; lia.
Qed.

(** *** The ['Done'] notification *)




(** C6: in every world the host can reach, a repository recorded as not
    git is recorded as not indexable. *)
Theorem nongit_never_indexable (w : World) (p : string) (s : RepoState) :
  reachable host w ->
  repoState (ctl w) !! p = Some s -> isGit s = false -> indexable s = false.
Proof.
  intros Hr. destruct (reachable_inv host w Hr) as [(H & _) _]. apply H.
Qed.

(** C1, as the code has it: [getService] memoizes the promise of its
    first call whatever becomes of it.  Once [this.service] is set, in
    every reachable world, [getService] hands that promise back and
    does nothing else; no event unsets or replaces it, a settled promise
    (a rejected one too) stays as it settled, and no event spawns the
    engine again. *)
Theorem getService_memoizes (w : World) (p : PromiseId) :
  reachable host w -> service (ctl w) = Some p ->
  (forall k h script, exec (getService host k h) script w = exec (k p) script w) /\
  (forall ev w', deliver host ev w = Some w' ->
     service (ctl w') = Some p /\
     (forall r, promises w !! p = Some (Some r) -> promises w' !! p = Some (Some r)) /\
     count is_spawn (trace w') = count is_spawn (trace w)).
Proof.
  intros Hr Hs. split.
  - intros k h script. rewrite exec_getService.
    destruct (getService_world_memo host w p Hs) as [-> ->]. reflexivity.
  - intros ev w' Hd.
    destruct (deliver_inv host ev w w' (reachable_inv host w Hr) Hd) as (_ & [Hf1 Hf2] & Hc).
    split; [apply Hf1, Hs |]. split; [intros r; apply Hf2 |].
    apply Hc. rewrite Hs. discriminate.
Qed.

(** C2, as the code has it: [index] only logs and returns unless the
    endpoint is dotcom and there is a last repository with a non-empty
    path whose load did not succeed.  When that holds, whatever
    [pathBeingIndexed] is, it sends an embeddings/index request for the
    last repository as soon as it holds the engine's handle; and it does
    hold in every reachable world where the last repository is being
    indexed, its load has not succeeded and the endpoint is dotcom. *)
Theorem index_guard_only (w : World) (k : unit -> Task) (h : JsError -> Task) :
  (index_guard (ctl w) = true <->
   endpointIsDotcom (ctl w) = true /\
   exists last, lastRepo (ctl w) = Some last /\ path last <> EmptyString /\
                loadResult last = false) /\
  (index_guard (ctl w) = false ->
   forall script,
     exec (index host k h) script w =
     exec (k tt) script
       (log (LogDebug "index: No repository to index/already indexed") w)) /\
  (index_guard (ctl w) = true ->
   forall last bfg meanwhile, lastRepo (ctl w) = Some last ->
     let w1 := meanwhile (getService_world host
                            (log (LogDebug "index: Starting repository") w)) in
     exists K,
       exec (index host k h) [(Settled (inl bfg), meanwhile)] w =
       suspend (WaitReply (requests w1) K)
         (send (Index (path last) (model host) 1536) w1)) /\
  (reachable host w ->
   forall last,
     pathBeingIndexed (ctl w) = Some (path last) -> lastRepo (ctl w) = Some last ->
     loadResult last = false -> endpointIsDotcom (ctl w) = true ->
     index_guard (ctl w) = true).
Proof.
  split; [apply index_guard_spec |]. split; [| split].
  - intros Hg script. apply index_noop, Hg.
  - intros Hg last bfg meanwhile Hl. apply index_requests; assumption.
  - intros Hr last Hpi Hl Hres Hd.
    destruct (reachable_inv host w Hr) as [(_ & _ & Hready) _].
    destruct (Hready _ Hpi) as [Hp _].
    apply index_guard_spec. split; [exact Hd |]. exists last. auto.
Qed.

End Specification.


(** ** Runs of the demo host *)

Lemma world_after_reachable evs :
  is_Some (deliver_all demo_host evs new_world) ->
  reachable demo_host (world_after evs).
Proof.
  intros [w H]. unfold world_after. rewrite H. simpl.
  eapply deliver_all_reachable; [constructor | exact H].
Qed.

(** C1 fails as stated: after a failed spawn, and after a rejected
    embeddings/initialize, the next call finds the rejected promise in
    [this.service], fails with the same error and spawns nothing. *)
Lemma getService_rejection_memoized :
  (fun w => (service (ctl w), promises w, trace w)) <$>
    deliver_all demo_host (spawn_fails ++ [Invoke CallStart; Microtask 0]) new_world =
  Some (Some 0, [Some (inr enoent)],
        [LogDebug "start"; SpawnBfgCalled 0; CaptureException enoent;
         Threw "start" enoent;
         LogDebug "start"; Threw "start" enoent]) /\
  (fun w => (service (ctl w), promises w, count is_spawn (trace w), last (trace w))) <$>
    deliver_all demo_host (initialize_fails ++ [Invoke CallStart; Microtask 0]) new_world =
  Some (Some 0, [Some (inr enoent)], 1, Some (Threw "start" enoent)).
Proof. split; vm_compute; reflexivity. Qed.

Lemma getService_memoizes_witness :
  (forall k h script,
     exec (getService demo_host k h) script (world_after spawn_fails) =
     exec (k 0) script (world_after spawn_fails)) /\
  (forall ev w', deliver demo_host ev (world_after spawn_fails) = Some w' ->
     service (ctl w') = Some 0 /\
     (forall r, promises (world_after spawn_fails) !! 0 = Some (Some r) ->
                promises w' !! 0 = Some (Some r)) /\
     count is_spawn (trace w') = count is_spawn (trace (world_after spawn_fails))).
Proof.
  apply (getService_memoizes demo_host (world_after spawn_fails) 0).
  - apply world_after_reachable. vm_compute. eexists. reflexivity.
  - vm_compute. reflexivity.
Defined.

(** C2 fails as stated: while [/repo] is being indexed a second
    [index()] sends a second embeddings/index request. *)
Lemma index_while_indexing_sends_again :
  (fun w => (pathBeingIndexed (ctl w), lastRepo (ctl w),
             count (is_index_request "/repo") (trace w))) <$>
    deliver_all demo_host start_indexing new_world =
  Some (Some "/repo", Some {| path := "/repo"; loadResult := false |}, 1) /\
  (fun w => (pathBeingIndexed (ctl w), lastRepo (ctl w),
             count (is_index_request "/repo") (trace w), last (trace w))) <$>
    deliver_all demo_host (start_indexing ++ [Invoke CallIndex; Microtask 0]) new_world =
  Some (Some "/repo", Some {| path := "/repo"; loadResult := false |}, 2,
        Some (Sent 4 (Index "/repo" "stub/stub" 1536))).
Proof. split; vm_compute; reflexivity. Qed.

Lemma index_guard_only_witness :
  exists K,
    exec (index demo_host (fun _ => Done) (fun _ => Done))
      [(Settled (inl 1), fun w => w)] (world_after start_indexing) =
    suspend (WaitReply 4 K)
      (send (Index "/repo" (model demo_host) 1536)
         (getService_world demo_host
            (log (LogDebug "index: Starting repository") (world_after start_indexing)))).
Proof.
  refine (proj1 (proj2 (proj2 (index_guard_only demo_host (world_after start_indexing)
                                 (fun _ => Done) (fun _ => Done))))
            _ {| path := "/repo"; loadResult := false |} 1 (fun w => w) _).
  - vm_compute. reflexivity.
  - vm_compute. reflexivity.
Defined.

Lemma status_priority_witness :
  status demo_host unconsented_controller =
  [mkGroup "/repo" [local_embeddings unconsented]].
Proof.
  refine (proj1 (proj2 (proj2 (proj2 (proj2 (proj2
            (status_priority demo_host unconsented_controller))))))
            {| path := "/repo"; loadResult := false |}
            {| indexable := true; isGit := true; hasIndex := false |}
            _ _ _ _ _ _).
  - reflexivity.
  - reflexivity.
  - vm_compute. discriminate.
  - reflexivity.
  - vm_compute. reflexivity.
  - reflexivity.
Defined.

Lemma load_short_circuits_witness :
  exec (load demo_host (Some "/repo") (fun _ => Done) (fun _ => Done)) [] new_world =
  exec Done [] new_world.
Proof.
  refine (proj1 (load_short_circuits demo_host new_world (Some "/repo")
                   (fun _ => Done) (fun _ => Done) []) _).
  left. reflexivity.
Defined.

Lemma nongit_never_indexable_witness :
  indexable {| indexable := false; isGit := false; hasIndex := false |} = false.
Proof.
  apply (nongit_never_indexable demo_host
           (world_after (start_and_load (inr not_git))) "/repo").
  - apply world_after_reachable. vm_compute. eexists. reflexivity.
  - vm_compute. reflexivity.
  - reflexivity.
Defined.




Lemma progress_ignored_without_statusBar_witness :
  run (notified demo_host NDone) new_world = new_world.
Proof.
  apply (progress_ignored_without_statusBar demo_host new_world NDone).
  reflexivity.
Defined.

(** The scenario of the specification: [/repo] is a git repository with
    a remote and no index; [index()] is called, the engine reports 50 of
    100 items and then the end of the work, and the reload finds the
    index.  The indicator showed 50% and [status] ends as ready. *)
Example index_then_ready :
  (fun w => text <$> statusBar (ctl w)) <$>
    deliver_all demo_host
      (start_indexing ++ [Notify (NObject (Some (mkProgress 50 100 "main.c")) None)])
      new_world =
  Some (Some "$(loading~spin) Cody Embeddings (50%)") /\
  (fun w => status demo_host (ctl w)) <$>
    deliver_all demo_host start_indexing new_world =
  Some [mkGroup "/repo" [local_embeddings indexing]] /\
  (fun w => status demo_host (ctl w)) <$>
    deliver_all demo_host index_to_the_end new_world =
  Some [mkGroup "/repo" [local_embeddings ready]].
Proof. repeat split; vm_compute; reflexivity. Qed.

(** The whole of what one ['Done'] causes, reload included: the
    handler's status-changed event, the embeddings/load request, and,
    when the engine has answered, the reload's own status-changed event
    followed by the controller-changed event. *)
Example done_to_the_end :
  (fun w => drop 19 (trace w)) <$> deliver_all demo_host index_to_the_end new_world =
  Some [HideAfter 30000
          {| text := "$(sparkle) Cody Embeddings";
             backgroundColor := None;
             tooltip := Some "main.c";
             shown := true |};
        StatusChanged;
        Sent 4 (Load "/repo");
        StatusChanged;
        LogDebug "load after indexing done";
        ControllerChanged].
Proof. vm_compute. reflexivity. Qed.

(** The two caches of [load] at work: once [/repo] is known not to be a
    git repository, [load] answers false and sends nothing; once its
    index has been loaded, [load] asks the engine again. *)
Example load_caches :
  (fun w => (requests w, last (trace w))) <$>
    deliver_all demo_host
      (start_and_load (inr not_git) ++ [Invoke (CallLoad (Some "/repo"))]) new_world =
  Some (3, Some (Returned "load" (RBool false))) /\
  (fun w => (requests w, last (trace w))) <$>
    deliver_all demo_host
      (index_to_the_end ++ [Invoke (CallLoad (Some "/repo")); Microtask 0]) new_world =
  Some (6, Some (Sent 5 (Load "/repo"))).
Proof. split; vm_compute; reflexivity. Qed.

(** * Further properties of the controller *)

Section Further.

Variable host : Host.

(** ** [query] and [getContext] *)

(** X1: [query].  Off dotcom it answers with an empty result set and
    touches nothing.  On dotcom it sends one embeddings/query request
    carrying the query text once it holds the engine's handle, and its
    promise ends as the request does: fulfilled with the engine's answer
    as it came, or rejected with the engine's error; when the handle
    itself is rejected, so is [query], and nothing is sent. *)
Theorem query_forwards (w : World) (q : string) (bfg : MessageHandler)
    (r : Result JsValue) (e : JsError) (f1 f2 : World -> World) script :
  (endpointIsDotcom (ctl w) = false ->
   exec (top "query" RValue (query host q)) script w =
   log (Returned "query" (RValue (JObject []))) w) /\
  (endpointIsDotcom (ctl w) = true ->
   exec (top "query" RValue (query host q))
     [(Settled (inl bfg), f1); (Replied r, f2)] w =
   log match r with
       | inl v => Returned "query" (RValue v)
       | inr e' => Threw "query" e'
       end
     (f2 (send (Query q) (f1 (getService_world host w)))) /\
   exec (top "query" RValue (query host q)) [(Settled (inr e), f1)] w =
   log (Threw "query" e) (f1 (getService_world host w))).
Proof.
  split.
  - intros Hd. unfold_methods. simpl. rewrite Hd. reflexivity.
  - intros Hd. split.
    + unfold_methods. simpl. rewrite Hd. simpl.
      rewrite exec_await_getService. simpl. destruct r; reflexivity.
    + unfold_methods. simpl. rewrite Hd. simpl.
      rewrite exec_await_getService. reflexivity.
Qed.

(** X2: [getContext] never rejects.  It returns the engine's results
    when the query succeeds with a result set, and the empty list in
    every other case: off dotcom, when the engine's handle is rejected,
    when the request is rejected, and when the answer is not a result
    set; each failure is captured, and nothing is sent off dotcom or
    without a handle. *)
Theorem getContext_never_rejects (w : World) (q : string) (n : Z)
    (bfg : MessageHandler) (r : Result JsValue) (e : JsError)
    (f1 f2 : World -> World) script :
  (endpointIsDotcom (ctl w) = false ->
   exec (top "getContext" RResults (getContext host q n)) script w =
   log (Returned "getContext" (RResults []))
     (log (LogDebug "returning results") w)) /\
  (endpointIsDotcom (ctl w) = true ->
   (let w2 := f2 (send (Query q) (f1 (getService_world host w))) in
    exec (top "getContext" RResults (getContext host q n))
      [(Settled (inl bfg), f1); (Replied r, f2)] w =
    match r with
    | inl (JObject results) =>
        log (Returned "getContext" (RResults results))
          (log (LogDebug "returning results") w2)
    | inl _ =>
        log (Returned "getContext" (RResults []))
          (log (LogDebug "getContext: failed")
             (log (CaptureException
                     (mkError "TypeError: Cannot read properties of undefined")) w2))
    | inr e' =>
        log (Returned "getContext" (RResults []))
          (log (LogDebug "getContext: failed") (log (CaptureException e') w2))
    end) /\
   exec (top "getContext" RResults (getContext host q n)) [(Settled (inr e), f1)] w =
   log (Returned "getContext" (RResults []))
     (log (LogDebug "getContext: failed")
        (log (CaptureException e) (f1 (getService_world host w))))).
Proof.
  split.
  - intros Hd. unfold_methods. simpl. rewrite Hd. reflexivity.
  - intros Hd. split.
    + unfold_methods. simpl. rewrite Hd. simpl.
      rewrite exec_await_getService. simpl. destruct r as [[]|]; reflexivity.
    + unfold_methods. simpl. rewrite Hd. simpl.
      rewrite exec_await_getService. reflexivity.
Qed.

(** ** [start] *)

(** [start] asks nothing about the endpoint or the cache: it awaits the
    engine's handle and then runs the load-attempt routine on the
    workspace folder. *)
Lemma start_exec (w : World) (bfg : MessageHandler) (f1 : World -> World) script :
  exec (top "start" (fun _ => RVoid) (start host)) ((Settled (inl bfg), f1) :: script) w =
  let w1 := f1 (getService_world host (log (LogDebug "start") w)) in
  match workspaceFolder host with
  | Some fsPath =>
      exec (eagerlyLoad host fsPath
              (fun _ => Do (Returned "start" RVoid) Done)
              (fun e => Do (Threw "start" e) Done)) script w1
  | None => log (Returned "start" RVoid) w1
  end.
Proof.
  unfold top, start, logDebug, emit, skip, bind, ret. simpl.
  rewrite exec_await_getService. simpl.
  destruct (workspaceFolder host); reflexivity.
Qed.

(** X3: [start].  When the engine's handle is rejected [start] rejects
    with that error and neither sends a request nor writes a field.
    With the handle and a workspace folder it sends embeddings/load for
    the folder and records the answer, whatever [endpointIsDotcom] and
    the cached state of the folder are; without a workspace folder it
    returns having sent nothing. *)
Theorem start_loads_workspace (w : World) (b1 b2 : MessageHandler) (e : JsError)
    (r : Result JsValue) (f1 f2 f3 : World -> World) :
  let w0 := getService_world host (log (LogDebug "start") w) in
  exec (top "start" (fun _ => RVoid) (start host)) [(Settled (inr e), f1)] w =
    log (Threw "start" e) (f1 w0) /\
  (workspaceFolder host = None ->
   exec (top "start" (fun _ => RVoid) (start host)) [(Settled (inl b1), f1)] w =
     log (Returned "start" RVoid) (f1 w0)) /\
  (forall fsPath, workspaceFolder host = Some fsPath ->
   let w2 := f3 (send (Load fsPath) (f2 (getService_world host (f1 w0)))) in
   exec (top "start" (fun _ => RVoid) (start host))
     [(Settled (inl b1), f1); (Settled (inl b2), f2); (Replied r, f3)] w =
   log (Returned "start" RVoid)
     match r with
     | inl v =>
         record_load fsPath {| indexable := true; isGit := true; hasIndex := truthy v |}
           (truthy v) w2
     | inr e' =>
         record_load fsPath (eagerlyLoad_failure e') false
           (log (LogDebug "load") (log (CaptureException e') w2))
     end).
Proof.
  intros w0. split; [| split].
  - unfold top, start, logDebug, emit, skip, bind, ret. simpl.
    rewrite exec_await_getService. reflexivity.
  - intros Hw. rewrite start_exec. rewrite Hw. reflexivity.
  - intros fsPath Hw w2. rewrite start_exec. rewrite Hw. cbv zeta.
    rewrite eagerlyLoad_exec. destruct r; reflexivity.
Qed.

(** ** [setAccessToken] *)

(** X4: one [setAccessToken].  The endpoint flag becomes
    [isDotCom(serverEndpoint)]; a status-changed event fires exactly
    when the flag flips, and then a controller-changed event exactly
    when the service has started.  A token strictly equal to the stored
    one changes nothing more.  Otherwise the stored token becomes the
    new token, or undefined when the new token is null or empty, and
    nothing is sent unless the token is non-empty and the service has
    started. *)
Theorem setAccessToken_effects (w : World) (serverEndpoint : string)
    (token : option string) :
  let flip := negb (eqb (isDotCom host serverEndpoint) (endpointIsDotcom (ctl w))) in
  let w1 := run (call host (CallSetAccessToken serverEndpoint token)) w in
  endpointIsDotcom (ctl w1) = isDotCom host serverEndpoint /\
  accessToken (ctl w1) =
    (if strict_eq token (accessToken (ctl w)) then accessToken (ctl w)
     else or_else token None) /\
  count is_status_changed (trace w1) =
    count is_status_changed (trace w) + (if flip then 1 else 0) /\
  count is_controller_changed (trace w1) =
    count is_controller_changed (trace w)
    + (if flip && serviceStarted (ctl w) then 1 else 0) /\
  count is_request (trace w1) = count is_request (trace w) /\
  (strict_eq token (accessToken (ctl w)) = true \/ truthy_str token = false \/
   serviceStarted (ctl w) = false ->
   pool w1 = pool w /\ promises w1 = promises w /\
   last (trace w1) = Some (Returned "setAccessToken" RVoid)).
Proof.
  intros flip w1. subst flip w1. unfold_methods. simpl.
  destruct (negb (eqb (isDotCom host serverEndpoint) (endpointIsDotcom (ctl w))));
    [destruct (serviceStarted (ctl w)) eqn:Hst |]; simpl.
  all: destruct (strict_eq token (accessToken (ctl w))) eqn:Heq; simpl.
  all: try (rewrite ?count_app; simpl; rewrite ?count_app; simpl;
            rewrite ?last_snoc;
            repeat split; first [reflexivity | lia]).
  all: destruct token as [t|]; simpl.
  all: try (rewrite ?count_app; simpl; rewrite ?count_app; simpl;
            rewrite ?last_snoc;
            repeat split; first [reflexivity | lia]).
  all: unfold or_else; simpl.
  all: destruct (String.eqb t EmptyString) eqn:Ht; simpl.
  all: rewrite ?Hst; try destruct (serviceStarted (ctl w)) eqn:Hst'; simpl.
  all: try (rewrite ?count_app; simpl; rewrite ?count_app; simpl;
            rewrite ?last_snoc;
            repeat split; first [reflexivity | lia]).
  all: rewrite exec_await_getService; simpl.
  all: match goal with
       | |- context [getService_world host ?w0] =>
           destruct (getService_world_frame host w0)
             as (_ & Ha & Hd & _ & _ & _ & _ & _ & Hs & Hc & Hr);
           simpl in Ha, Hd, Hs, Hc, Hr; rewrite ?count_app in Hs, Hc, Hr;
           simpl in Hs, Hc, Hr
       end.
  all: rewrite Ha, Hd, Hs, Hc, Hr.
  all: repeat split; try reflexivity; try lia.
  all: intros [H | [H | H]]; discriminate.
Qed.

(** X5: a changed, non-empty token is forwarded when the service has
    started: once [setAccessToken] holds the engine's handle it sends
    one embeddings/set-token request carrying the new token, and it
    ends as that request ends. *)
Theorem setAccessToken_forwards (w : World) (serverEndpoint t : string)
    (bfg : MessageHandler) (r : Result JsValue) (f1 f2 : World -> World) :
  t <> EmptyString -> accessToken (ctl w) <> Some t -> serviceStarted (ctl w) = true ->
  exists w0,
    ctl w0 = set_accessToken (Some t)
               (set_endpointIsDotcom (isDotCom host serverEndpoint) (ctl w)) /\
    pool w0 = pool w /\ requests w0 = requests w /\
    exec (call host (CallSetAccessToken serverEndpoint (Some t)))
      [(Settled (inl bfg), f1); (Replied r, f2)] w =
    log match r with
        | inl _ => Returned "setAccessToken" RVoid
        | inr e => Threw "setAccessToken" e
        end
      (f2 (send (SetToken t) (f1 (getService_world host w0)))).
Proof.
  intros Ht Hne Hst. unfold_methods. simpl.
  assert (Heq : match accessToken (ctl w) with
                | Some a => String.eqb t a
                | None => false
                end = false).
  { destruct (accessToken (ctl w)) as [a|]; [| reflexivity].
    destruct (String.eqb_spec t a); [congruence | reflexivity]. }
  rewrite Hst.
  destruct (negb (eqb (isDotCom host serverEndpoint) (endpointIsDotcom (ctl w)))); simpl.
  all: rewrite Heq; simpl; unfold or_else; simpl.
  all: destruct (String.eqb_spec t EmptyString); [contradiction |]; simpl.
  all: rewrite ?Hst; simpl; rewrite exec_await_getService; simpl.
  all: eexists; split; [| split; [| split; [| destruct r; reflexivity]]];
    reflexivity.
Qed.

(** ** Notifications *)

(** X6: a notification other than ['Done'] touches nothing but the
    indicator.  Every other field of the controller stays as it is, no
    task is started, nothing is sent, no event fires, so [status] is
    what it was; and the indicator is there after the notification
    exactly when it was there before. *)
Theorem progress_only_touches_indicator (w : World) (obj : Notification) :
  obj <> NDone ->
  let w' := run (notified host obj) w in
  set_statusBar (statusBar (ctl w)) (ctl w') = ctl w /\
  promises w' = promises w /\ pool w' = pool w /\ requests w' = requests w /\
  count is_status_changed (trace w') = count is_status_changed (trace w) /\
  count is_controller_changed (trace w') = count is_controller_changed (trace w) /\
  status host (ctl w') = status host (ctl w) /\
  (statusBar (ctl w') = None <-> statusBar (ctl w) = None).
Proof.
  intros Hobj. destruct w as [c ps pl tr rq sp].
  destruct c as [sv st tk dc sb lr rs pbi]. unfold_methods. simpl.
  destruct sb as [item|]; simpl.
  - destruct obj as [[pr|] [er|] | | | json]; simpl; try contradiction.
    all: rewrite ?count_app; simpl.
    all: repeat split; try reflexivity; try lia; try discriminate.
  - repeat split; reflexivity.
Qed.

(** X7: an [Error] notification while the indicator is there turns it
    into the warning, with the error as its tooltip, and leaves the
    path being indexed as it is: the run is not ended by an error. *)
Theorem error_notification_warns (w : World) (item : StatusBarItem) (error : string) :
  statusBar (ctl w) = Some item ->
  let w' := run (notified host (NObject None (Some error))) w in
  statusBar (ctl w') =
    Some {| text := "$(warning) Cody Embeddings";
            backgroundColor := Some "statusBarItem.warningBackground";
            tooltip := Some error;
            shown := true |} /\
  pathBeingIndexed (ctl w') = pathBeingIndexed (ctl w) /\
  trace w' = trace w.
Proof.
  intros Hsb. unfold_methods. simpl. rewrite Hsb. simpl. repeat split.
Qed.

(** ** [index] *)

(** X8: [index], past its guard and with the engine's handle.  When the
    engine accepts the request, the path being indexed becomes the path
    the last repository had when [index] was called, the previous
    indicator (if any) is disposed of and a fresh one is created, and
    one status-changed event fires.  When the engine refuses, the error
    is captured and no field is written.  [index] returns normally in
    both cases, and also when the handle is rejected, in which case
    nothing is sent. *)
Theorem index_outcomes (w : World) (last : LastRepo) (bfg : MessageHandler)
    (r : Result JsValue) (e : JsError) (f1 f2 : World -> World) :
  index_guard (ctl w) = true -> lastRepo (ctl w) = Some last ->
  let w0 := getService_world host (log (LogDebug "index: Starting repository") w) in
  let w2 := f2 (send (Index (path last) (model host) 1536) (f1 w0)) in
  exec (call host CallIndex) [(Settled (inl bfg), f1); (Replied r, f2)] w =
    log (Returned "index" RVoid)
      match r with
      | inl _ =>
          log StatusChanged
            (upd_ctl (set_statusBar (Some createStatusBarItem))
               (match statusBar (ctl w2) with
                | Some item => log (DisposeStatusBar item)
                | None => fun x => x
                end (upd_ctl (set_pathBeingIndexed (Some (path last))) w2)))
      | inr e' => log (LogDebug "index: failed") (log (CaptureException e') w2)
      end /\
  exec (call host CallIndex) [(Settled (inr e), f1)] w =
    log (Returned "index" RVoid)
      (log (LogDebug "index: failed") (log (CaptureException e) (f1 w0))).
Proof.
  intros Hg Hl w0 w2. subst w0 w2. unfold_methods. simpl. rewrite Hg, Hl. simpl.
  rewrite !exec_await_getService. simpl. split; [| reflexivity].
  destruct r as [v|e']; simpl; [| reflexivity].
  match goal with
  | |- context [statusBar (ctl ?x)] => destruct (statusBar (ctl x)); reflexivity
  end.
Qed.

(** ** What the load-attempt routine makes [status] say *)

(** X9: the status after a load attempt on a non-empty path [p], on
    dotcom, while [p] is not being indexed.  An answer that is truthy
    gives ready; a falsy answer gives unconsented.  A failure whose
    message matches /does not appear to be a git repository/ gives no
    group at all; otherwise the no-default-fetch-URL message gives
    no-match; any other failure gives unconsented. *)
Theorem load_outcome_status (w : World) (p : string) (bfg : MessageHandler)
    (r : Result JsValue) (f1 f2 : World -> World) :
  let w2 := f2 (send (Load p) (f1 (getService_world host w))) in
  let w' := exec (top "eagerlyLoad" RBool (eagerlyLoad host p))
              [(Settled (inl bfg), f1); (Replied r, f2)] w in
  p <> EmptyString -> endpointIsDotcom (ctl w2) = true ->
  pathBeingIndexed (ctl w2) <> Some p ->
  status host (ctl w') =
  match r with
  | inl v =>
      [mkGroup p [local_embeddings (if truthy v then ready else unconsented)]]
  | inr e =>
      if regex_test "does not appear to be a git repository" (message e) then []
      else if String.eqb (message e)
                "repository does not have a default fetch URL, so can't be named for an index"
      then [mkGroup p [local_embeddings no_match]]
      else [mkGroup p [local_embeddings unconsented]]
  end.
Proof.
  intros w2 w' Hp Hd Hpi. subst w'. unfold top. rewrite eagerlyLoad_exec. fold w2.
  assert (Hact : forall c b, lastRepo c = Some {| path := p; loadResult := b |} ->
                 active_path host c = p).
  { intros c b Hc. rewrite (active_path_lastRepo host c _ Hc); [reflexivity | exact Hp]. }
  destruct r as [v|e]; simpl.
  - unfold status. simpl. rewrite Hd. simpl.
    rewrite (Hact _ (truthy v)) by reflexivity.
    rewrite bool_decide_eq_false_2 by exact Hpi.
    destruct (truthy v); [reflexivity |].
    rewrite lookup_insert_eq. reflexivity.
  - unfold status. simpl. rewrite Hd. simpl.
    rewrite (Hact _ false) by reflexivity.
    rewrite bool_decide_eq_false_2 by exact Hpi.
    rewrite lookup_insert_eq. unfold eagerlyLoad_failure. simpl.
    destruct (regex_test _ (message e)); simpl; [reflexivity |].
    destruct (String.eqb (message e) _); reflexivity.
Qed.

(** X10: once the engine has accepted [index], [status] says indexing
    for the path handed to the engine, as long as the endpoint is
    still dotcom and the last repository still has that path when the
    engine answers. *)
Theorem index_then_status (w : World) (last last' : LastRepo) (bfg : MessageHandler)
    (v : JsValue) (f1 f2 : World -> World) :
  index_guard (ctl w) = true -> lastRepo (ctl w) = Some last ->
  let w2 := f2 (send (Index (path last) (model host) 1536)
                  (f1 (getService_world host
                         (log (LogDebug "index: Starting repository") w)))) in
  endpointIsDotcom (ctl w2) = true ->
  lastRepo (ctl w2) = Some last' -> path last' = path last ->
  status host (ctl (exec (call host CallIndex)
                      [(Settled (inl bfg), f1); (Replied (inl v), f2)] w)) =
  [mkGroup (path last) [local_embeddings indexing]].
Proof.
  intros Hg Hl w2 Hd Hl' Hp.
  assert (Hne : path last <> EmptyString) by (eapply index_guard_path; eassumption).
  assert (Hc : forall c, endpointIsDotcom c = true -> lastRepo c = Some last' ->
               pathBeingIndexed c = Some (path last) ->
               status host c = [mkGroup (path last) [local_embeddings indexing]]).
  { intros c H1 H2 H3.
    assert (Ha : active_path host c = path last).
    { rewrite (active_path_lastRepo host c last' H2); congruence. }
    rewrite <- Ha. apply (status_indexing host c last' H1 H2). congruence. }
  unfold_methods. simpl. rewrite Hg, Hl. simpl.
  rewrite !exec_await_getService. simpl. fold w2.
  destruct (statusBar (ctl w2)); apply Hc; simpl; first [assumption | reflexivity].
Qed.

(** ** Starting the engine *)

Lemma events_app l1 l2 : events (l1 ++ l2) = (events l1 ++ events l2)%list.
Proof. apply List.filter_app. Qed.

(** [getService] starts [spawn_task] and nothing else. *)
Lemma getService_world_spawn_task (w : World) :
  service (ctl w) = None ->
  getService_world host w =
  upd_ctl (set_service (Some (length (promises w))))
    (run (spawn_task host (length (promises w))) (alloc w)).
Proof.
  intros Hs. Transparent getService_world. unfold getService_world, run, getService,
    async_call, modify, get, bind, ret, spawn_task. simpl. rewrite Hs. reflexivity.
Qed.
Opaque getService_world.

Ltac spawn_cases :=
  unfold spawn_task, spawnAndBindService, spawnBfg, getIndexLibraryPaths,
    indexLibraryPath, request, logDebug, emit, modify, get, skip, throw, bind, ret;
  simpl.

(** X11: the engine's start-up when everything succeeds, run on its
    own.  After the spawn the handler is registered and one
    embeddings/initialize request is sent, with the configured gateway
    endpoint, the index path (the configured override when there is a
    non-empty one, the platform's cache directory otherwise) and the
    platform's App index path (none on win32); then, when a non-empty
    token is stored, one embeddings/set-token request with it; only
    then [serviceStarted] is set, the controller-changed event fires
    and the promise is fulfilled with the engine's handle. *)
Theorem spawn_handshake (w : World) (p : PromiseId) (bfg : MessageHandler)
    (v1 v2 : JsValue) :
  supported_platform host = true ->
  let w' := exec (spawn_task host p)
              [(Spawned (Started bfg), fun x => x); (Replied (inl v1), fun x => x);
               (Replied (inl v2), fun x => x)] w in
  exists indexPath appIndexPath,
    (forall o, path_override host = Some o -> indexPath = o) /\
    (path_override host = None ->
     indexPath =
       if String.eqb (platform host) "win32"
       then env_LOCALAPPDATA host +:+ "\com.sourcegraph.cody\embeddings"
       else if String.eqb (platform host) "linux"
       then env_HOME host +:+ "/.cache/com.sourcegraph.cody/embeddings"
       else env_HOME host +:+ "/Library/Caches/com.sourcegraph.cody/embeddings") /\
    (appIndexPath = None <-> platform host = "win32") /\
    events (trace w') =
      (events (trace w) ++
       [SpawnBfgCalled (spawns w); RegisterNotification;
        Sent (requests w) (Initialize (endpoint host) indexPath appIndexPath)] ++
       match or_else (accessToken (ctl w)) None with
       | Some token => [Sent (S (requests w)) (SetToken token)]
       | None => []
       end ++
       [ControllerChanged])%list /\
    ctl w' = set_serviceStarted true (ctl w) /\
    promises w' = settle_in p (inl bfg) (promises w) /\
    pool w' = pool w.
Proof.
  intros Hsup w'. subst w'. unfold supported_platform in Hsup.
  unfold path_override, or_else. spawn_cases.
  destruct (String.eqb_spec (platform host) "darwin") as [Hd|Hd]; simpl.
  2: destruct (String.eqb_spec (platform host) "linux") as [Hl|Hl]; simpl.
  3: destruct (String.eqb_spec (platform host) "win32") as [Hw|Hw]; simpl;
       [| simpl in Hsup; discriminate].
  all: destruct (testingLocalEmbeddingsIndexLibraryPath host) as [o|]; simpl;
    [destruct (String.eqb o EmptyString) eqn:Ho; simpl |].
  all: destruct (accessToken (ctl w)) as [t|]; simpl;
    [destruct (String.eqb t EmptyString) eqn:Ht; simpl |].
  all: do 2 eexists.
  all: (split; [intros o' Ho'; first [injection Ho' as <-; reflexivity | discriminate] |]).
  all: (split; [intros Ho'; first [discriminate | rewrite ?Hd, ?Hl, ?Hw; reflexivity] |]).
  all: split; cycle 1.
  all: try (rewrite !events_app; simpl; rewrite <- ?app_assoc; simpl;
            repeat split; reflexivity).
  all: split; first [discriminate | reflexivity | congruence | idtac].
  all: try (intros _; first [exact Hw | reflexivity]).
  all: try (intros H; rewrite H in *; discriminate).
Qed.

(** X12: the engine's start-up when something fails, run on its own.
    Whatever fails (the spawn, an unsupported platform, the
    embeddings/initialize request, the embeddings/set-token request),
    the promise is rejected with that error, [serviceStarted] and every
    other field stay as they were and no controller-changed event
    fires.  A rejected spawn is captured; a spawn the engine gives up
    by calling [reject] is not.  On an unsupported platform the engine
    has been spawned and the handler registered, but no request is
    sent. *)
Theorem spawn_failures (w : World) (p : PromiseId) (bfg : MessageHandler)
    (e : JsError) (v : JsValue) (t : string) :
  let keep := fun x : World => x in
  let failed (script : list (Outcome * (World -> World))) (err : JsError)
             (seen : list Effect) :=
    let w' := exec (spawn_task host p) script w in
    ctl w' = ctl w /\ promises w' = settle_in p (inr err) (promises w) /\
    pool w' = pool w /\
    count is_controller_changed (trace w') = count is_controller_changed (trace w) /\
    events (trace w') = (events (trace w) ++ seen)%list in
  failed [(Spawned (SpawnRejected e), keep)] e
    [SpawnBfgCalled (spawns w); CaptureException e] /\
  failed [(Spawned (RejectCalled e), keep)] e [SpawnBfgCalled (spawns w)] /\
  (supported_platform host = false ->
   failed [(Spawned (Started bfg), keep)]
     (mkError ("Unsupported platform: " +:+ platform host))
     [SpawnBfgCalled (spawns w); RegisterNotification]) /\
  (supported_platform host = true ->
   exists init,
     failed [(Spawned (Started bfg), keep); (Replied (inr e), keep)] e
       [SpawnBfgCalled (spawns w); RegisterNotification; Sent (requests w) init] /\
     (accessToken (ctl w) = Some t -> t <> EmptyString ->
      failed [(Spawned (Started bfg), keep); (Replied (inl v), keep);
              (Replied (inr e), keep)] e
        [SpawnBfgCalled (spawns w); RegisterNotification; Sent (requests w) init;
         Sent (S (requests w)) (SetToken t)])).
Proof.
  intros keep failed. subst keep failed. cbv beta zeta.
  unfold supported_platform. spawn_cases.
  split; [| split; [| split]].
  - rewrite !events_app, !count_app. simpl. rewrite <- ?app_assoc. simpl.
    repeat split; first [reflexivity | lia].
  - rewrite !events_app, !count_app. simpl. rewrite <- ?app_assoc. simpl.
    repeat split; first [reflexivity | lia].
  - intros Hsup.
    destruct (String.eqb (platform host) "darwin"); [discriminate |].
    destruct (String.eqb (platform host) "linux"); [discriminate |].
    destruct (String.eqb (platform host) "win32"); [discriminate |]. simpl.
    rewrite !events_app, !count_app. simpl. rewrite <- !app_assoc. simpl.
    repeat split; first [reflexivity | lia].
  - intros Hsup.
    destruct (String.eqb (platform host) "darwin"); simpl.
    2: destruct (String.eqb (platform host) "linux"); simpl.
    3: destruct (String.eqb (platform host) "win32"); simpl; [| discriminate].
    all: destruct (testingLocalEmbeddingsIndexLibraryPath host) as [o|]; simpl;
      [destruct (String.eqb o EmptyString) eqn:Ho; simpl |].
    all: eexists; split.
    all: try (rewrite !events_app, !count_app; simpl; rewrite <- ?app_assoc; simpl;
              repeat split; first [reflexivity | lia]).
    all: intros Ha Hne; rewrite Ha; simpl.
    all: destruct (String.eqb_spec t EmptyString); [contradiction |]; simpl.
    all: rewrite !events_app, !count_app; simpl; rewrite <- ?app_assoc; simpl.
    all: repeat split; first [reflexivity | lia].
Qed.

(** ** A token that arrives while the engine starts *)

(** X13: a token set while the engine starts.  The start-up reads the
    stored token once, after embeddings/initialize is answered.  A
    [setAccessToken] that comes before that answer only stores its
    token, and the start-up forwards it.  One that comes after, while
    the start-up's embeddings/set-token is under way, only stores its
    token too, since the service has not started: the engine is left
    with the older token although the service then starts, and calling
    [setAccessToken] again with the same token sends nothing. *)
Theorem token_set_while_starting (w : World) (p : PromiseId) (bfg : MessageHandler)
    (v1 v2 : JsValue) (serverEndpoint t1 t2 : string) :
  supported_platform host = true ->
  accessToken (ctl w) = Some t1 -> t1 <> EmptyString -> t2 <> EmptyString ->
  t1 <> t2 -> serviceStarted (ctl w) = false ->
  let keep := fun x : World => x in
  let set := run (call host (CallSetAccessToken serverEndpoint (Some t2))) in
  let early := exec (spawn_task host p)
                 [(Spawned (Started bfg), keep); (Replied (inl v1), set);
                  (Replied (inl v2), keep)] w in
  let late := exec (spawn_task host p)
                [(Spawned (Started bfg), keep); (Replied (inl v1), keep);
                 (Replied (inl v2), set)] w in
  (accessToken (ctl early) = Some t2 /\ serviceStarted (ctl early) = true /\
   count (is_set_token t2) (trace early) = S (count (is_set_token t2) (trace w)) /\
   count (is_set_token t1) (trace early) = count (is_set_token t1) (trace w)) /\
  (accessToken (ctl late) = Some t2 /\ serviceStarted (ctl late) = true /\
   count (is_set_token t2) (trace late) = count (is_set_token t2) (trace w) /\
   count (is_set_token t1) (trace late) = S (count (is_set_token t1) (trace w)) /\
   count is_request (trace (set late)) = count is_request (trace late)).
Proof.
  intros Hsup Ha Ht1 Ht2 Hne Hst keep set early late.
  subst keep set early late. revert Hsup. unfold supported_platform.
  assert (E11 : String.eqb t1 t1 = true) by apply String.eqb_refl.
  assert (E22 : String.eqb t2 t2 = true) by apply String.eqb_refl.
  assert (E12 : String.eqb t1 t2 = false) by (apply String.eqb_neq; exact Hne).
  assert (E21 : String.eqb t2 t1 = false) by (apply String.eqb_neq; congruence).
  assert (E1 : String.eqb t1 EmptyString = false) by (apply String.eqb_neq; exact Ht1).
  assert (E2 : String.eqb t2 EmptyString = false) by (apply String.eqb_neq; exact Ht2).
  spawn_cases. unfold_methods. simpl.
  intros Hsup.
  destruct (String.eqb (platform host) "darwin"); simpl.
  2: destruct (String.eqb (platform host) "linux"); simpl.
  3: destruct (String.eqb (platform host) "win32"); simpl; [| discriminate].
  all: destruct (testingLocalEmbeddingsIndexLibraryPath host) as [o|]; simpl;
    [destruct (String.eqb o EmptyString); simpl |].
  all: destruct (isDotCom host serverEndpoint);
    destruct (endpointIsDotcom (ctl w)) eqn:Hd; simpl.
  all: repeat (progress (unfold or_else;
                         rewrite ?Ha, ?Hst, ?Hd, ?E21, ?E2, ?E1, ?E22, ?E12, ?E11; simpl)).
  all: rewrite ?count_app; simpl; rewrite ?count_app; simpl;
    rewrite ?E11, ?E22, ?E12, ?E21.
  all: repeat split; first [reflexivity | lia].
Qed.

End Further.

(** ** What holds whatever the order of events *)

Section Always.

Variable host : Host.

(** X14: in every world the extension host can reach, the indicator is
    there exactly while a path is being indexed. *)
Theorem indicator_iff_indexing (w : World) :
  reachable host w ->
  (statusBar (ctl w) = None <-> pathBeingIndexed (ctl w) = None).
Proof.
  intros Hr. destruct (reachable_inv host w Hr) as [(_ & H & _) _]. exact H.
Qed.

(** X15: in every world the extension host can reach, a path being
    indexed is not empty and the engine's handle is there:
    [this.service] is a fulfilled promise. *)
Theorem indexing_has_engine (w : World) (p : string) :
  reachable host w -> pathBeingIndexed (ctl w) = Some p ->
  p <> EmptyString /\
  exists q bfg, service (ctl w) = Some q /\ promises w !! q = Some (Some (inl bfg)).
Proof.
  intros Hr Hp. destruct (reachable_inv host w Hr) as [(_ & _ & H) _].
  exact (H p Hp).
Qed.

(** X16: once [this.service] is set, no run of events whatsoever
    assigns it again, spawns the engine again, or changes a promise
    that is settled; in particular a rejected [this.service] stays. *)
Theorem service_assigned_once (evs : list Event) (w w' : World) (p : PromiseId) :
  reachable host w -> deliver_all host evs w = Some w' ->
  service (ctl w) = Some p ->
  service (ctl w') = Some p /\
  count is_spawn (trace w') = count is_spawn (trace w) /\
  (forall q r, promises w !! q = Some (Some r) -> promises w' !! q = Some (Some r)).
Proof.
  revert w. induction evs as [|ev evs IH]; intros w Hr Hd Hs; simpl in Hd.
  - injection Hd as <-. auto.
  - destruct (deliver host ev w) as [w1|] eqn:E; [| discriminate]. simpl in Hd.
    destruct (deliver_inv host ev w w1 (reachable_inv host w Hr) E) as (_ & [Hf1 Hf2] & Hc).
    assert (Hr1 : reachable host w1) by (econstructor; eassumption).
    destruct (IH w1 Hr1 Hd (Hf1 p Hs)) as (H1 & H2 & H3).
    split; [exact H1 |]. split.
    + rewrite H2. apply Hc. rewrite Hs. discriminate.
    + intros q r Hq. apply H3, Hf2, Hq.
Qed.

End Always.

(** * The life cycle of the engine *)

(** ** What tasks rely on *)

Lemma rely_refl starter w : rely starter w w.
Proof. repeat split; auto. Qed.

Lemma rely_trans starter w1 w2 w3 :
  rely starter w1 w2 -> rely starter w2 w3 -> rely starter w1 w3.
Proof.
  intros (A1 & A2 & A3 & A4) (B1 & B2 & B3 & B4). split; [| split; [| split]].
  - auto.
  - auto.
  - intros e He. rewrite (B3 e (A2 _ _ He)). apply (A3 e He).
  - intros Hs Hp. destruct (A4 Hs Hp) as (F1 & F2 & F3 & F4).
    assert (Hp2 : promises w2 = [None]) by congruence.
    destruct (B4 Hs Hp2) as (G1 & G2 & G3 & G4).
    repeat split; congruence.
Qed.

Lemma rely_weaken starter w w' : rely true w w' -> rely starter w w'.
Proof.
  intros (A1 & A2 & A3 & A4). repeat split; auto; apply A4; auto.
Qed.

(** The fields a task relies on do not include the suspended tasks. *)
Lemma rely_fields starter w w' :
  ctl w' = ctl w -> promises w' = promises w -> requests w' = requests w ->
  spawns w' = spawns w -> rely starter w w'.
Proof.
  intros H1 H2 H3 H4. unfold rely, frozen. rewrite H1, H2, H3, H4. repeat split; auto.
Qed.

Lemma resumable_rely w w1 tag s :
  resumable w tag s -> rely tag w w1 -> resumable w1 tag s.
Proof.
  intros Hr Hw. destruct s as [p k | rid k | sid k]; simpl in *.
  - destruct Hr as [-> Hr]. split; [reflexivity |]. intros w' r Hi Hf Hp.
    apply Hr; [exact Hi | eapply rely_trans; eassumption | exact Hp].
  - intros w' r Hi Hf. apply Hr; [exact Hi | eapply rely_trans; eassumption].
  - destruct Hr as [-> Hr]. split; [reflexivity |]. intros w' o Hi Hf.
    apply Hr; [exact Hi | eapply rely_trans; eassumption].
Qed.

Lemma starters_app tags1 tags2 :
  starters (tags1 ++ tags2) = starters tags1 + starters tags2.
Proof. unfold starters. rewrite List.filter_app, List.length_app. reflexivity. Qed.

(** A step of a task keeps the suspended tasks resumable. *)
Lemma resumable_step starter tags l w w1 :
  (starter = true -> starters tags = 0) ->
  rely false w w1 -> (starter = false -> rely true w w1) ->
  Forall2 (resumable w) tags l -> Forall2 (resumable w1) tags l.
Proof.
  intros Hc Hf Ht H. induction H as [|tag s tags l Hs _ IH]; constructor.
  - apply (resumable_rely w); [exact Hs |].
    destruct tag; [| exact Hf]. apply Ht.
    destruct starter; [| reflexivity]. specialize (Hc eq_refl). discriminate.
  - apply IH. intros Hst. specialize (Hc Hst).
    destruct tag; [discriminate | exact Hc].
Qed.

(** A synchronous run of a task that keeps the invariant ends where the
    task says, leaves every suspended task resumable, and is a step the
    other tasks may rely on. *)
Lemma exec_keeps t : forall starter Q w tags,
  keeps starter t Q w ->
  Forall2 (resumable w) tags (pool w) ->
  Nat.b2n starter + starters tags = Nat.b2n (pending (promises w)) ->
  let w' := exec t [] w in
  Q w' /\ rely false w w' /\ (starter = false -> rely true w w') /\
  exists tags',
    Forall2 (resumable w') tags' (pool w') /\
    starters tags' = Nat.b2n (pending (promises w')).
Proof.
  induction t as [| k IH | f k IH | e k IH | k IH | p r k IH | t1 IH1 k IH
                   | p k IH | req k IH | k IH]; intros starter Q w tags Hk Hp Hn; simpl in *.
  - destruct Hk as [-> HQ]. split; [exact HQ |].
    split; [apply rely_refl |]. split; [intros _; apply rely_refl |].
    exists tags. split; [exact Hp | exact Hn].
  - apply (IH (ctl w) starter Q w tags); assumption.
  - destruct Hk as (Hsv & Hst & Hk).
    assert (Hf : rely false w (upd_ctl f w)).
    { split; [exact Hsv |]. repeat split; auto; discriminate. }
    assert (Ht : starter = false -> rely true w (upd_ctl f w)).
    { intros Hs. split; [exact Hsv |]. repeat split; auto. }
    destruct (IH starter Q (upd_ctl f w) tags Hk) as (HQ & Hf' & Ht' & Htags).
    { simpl. eapply (resumable_step starter); [| exact Hf | exact Ht | exact Hp].
      intros Hs; rewrite Hs in Hn. simpl in Hn. destruct (pending (promises w)); simpl in Hn; lia. }
    { exact Hn. }
    split; [exact HQ |]. split; [eapply rely_trans; eassumption |].
    split; [| exact Htags].
    intros Hs. eapply rely_trans; [apply Ht, Hs | apply Ht', Hs].
  - assert (Hf : forall s, rely s w (log e w)) by (intros s; apply rely_fields; reflexivity).
    destruct (IH starter Q (log e w) tags Hk) as (HQ & Hf' & Ht' & Htags).
    { simpl. eapply (resumable_step starter); [| apply Hf | intros _; apply Hf | exact Hp].
      intros Hs; rewrite Hs in Hn. simpl in Hn. destruct (pending (promises w)); simpl in Hn; lia. }
    { exact Hn. }
    split; [exact HQ |]. split; [eapply rely_trans; [apply Hf | exact Hf'] |].
    split; [| exact Htags].
    intros Hs. eapply rely_trans; [apply Hf | apply Ht', Hs].
  - destruct Hk as (-> & Hnil & Hk).
    assert (Hf : forall s, rely s w (alloc w)).
    { intros s. unfold rely, frozen. simpl. rewrite Hnil. simpl.
      split; [auto |]. split; [intros p r H; rewrite lookup_nil in H; discriminate |].
      split; [intros e H; discriminate | intros _ H; discriminate]. }
    rewrite Hnil in Hn. simpl in Hn.
    destruct (IH (length (promises w)) true Q (alloc w) tags Hk) as (HQ & Hf' & _ & Htags).
    { simpl. eapply (resumable_step false); [| apply Hf | intros _; apply Hf | exact Hp].
      discriminate. }
    { simpl. rewrite Hnil, Hn. reflexivity. }
    split; [exact HQ |]. split; [eapply rely_trans; [apply Hf | exact Hf'] |].
    split; [| exact Htags].
    intros _. destruct (rely_trans false _ _ _ (Hf false) Hf') as (A1 & A2 & A3 & _).
    split; [exact A1 |]. split; [exact A2 |]. split; [exact A3 |].
    intros _ H. rewrite Hnil in H. discriminate.
  - destruct Hk as (-> & Hpend & -> & Hk).
    rewrite Hpend in Hn. simpl in Hn.
    assert (Hf : rely false w (settle 0 r w)).
    { unfold rely, frozen. simpl. rewrite Hpend. simpl.
      split; [auto |]. split; [intros p x H; destruct p; discriminate |].
      split; [intros e H; discriminate | discriminate]. }
    destruct (IH false Q (settle 0 r w) tags Hk) as (HQ & Hf' & _ & Htags).
    { simpl. eapply (resumable_step true); [| exact Hf | discriminate | exact Hp].
      intros _. lia. }
    { simpl. unfold settle_in. rewrite Hpend. simpl. lia. }
    split; [exact HQ |]. split; [eapply rely_trans; eassumption |].
    split; [discriminate | exact Htags].
  - destruct (IH1 starter _ w tags Hk Hp Hn) as (HQ & Hf1 & Ht1 & tags1 & Hp1 & Hn1).
    destruct (IH false Q _ tags1 HQ Hp1 Hn1) as (HQ2 & Hf2 & Ht2 & Htags).
    split; [exact HQ2 |]. split; [eapply rely_trans; eassumption |].
    split; [| exact Htags].
    intros Hs. eapply rely_trans; [apply Ht1, Hs | apply Ht2; reflexivity].
  - destruct Hk as (-> & HQ & Hk). split; [exact HQ |].
    assert (Hf : forall s, rely s w (suspend (WaitPromise p k) w))
      by (intros s; apply rely_fields; reflexivity).
    split; [apply Hf |]. split; [intros _; apply Hf |].
    exists (tags ++ [false])%list. split.
    + apply Forall2_app.
      * eapply (resumable_step false); [| apply Hf | intros _; apply Hf | exact Hp].
        discriminate.
      * constructor; [| constructor]. simpl. split; [reflexivity |].
        intros w' r Hi Hr Hl. apply Hk; [exact Hi | | exact Hl].
        eapply rely_trans; [apply Hf | exact Hr].
    + simpl. rewrite starters_app. simpl in *. unfold starters at 2. simpl. lia.
  - destruct Hk as (Hg & HQ & Hk). split; [exact HQ |].
    set (w1 := send req w).
    assert (Hf1 : rely false w w1).
    { unfold rely, frozen, w1. simpl. split; [auto |]. split; [auto |].
      split; [| discriminate]. intros e He.
      destruct starter; [rewrite Hg in He; discriminate |].
      destruct Hg as [bfg Hg]. rewrite Hg in He. discriminate. }
    assert (Ht1 : starter = false -> rely true w w1).
    { intros ->. destruct Hf1 as (A1 & A2 & A3 & _).
      split; [exact A1 |]. split; [exact A2 |]. split; [exact A3 |].
      intros _ Hpend. destruct Hg as [bfg Hg]. rewrite Hg in Hpend. discriminate. }
    assert (Hf2 : forall s, rely s w1 (suspend (WaitReply (requests w) k) w1))
      by (intros s; apply rely_fields; reflexivity).
    split; [eapply rely_trans; [exact Hf1 | apply Hf2] |].
    split; [intros Hs; eapply rely_trans; [apply Ht1, Hs | apply Hf2] |].
    exists (tags ++ [starter])%list. split.
    + apply Forall2_app.
      * eapply (resumable_step starter); [| | | exact Hp].
        -- intros Hs; rewrite Hs in Hn. simpl in Hn. destruct (pending (promises w)); simpl in Hn; lia.
        -- eapply rely_trans; [exact Hf1 | apply Hf2].
        -- intros Hs. eapply rely_trans; [apply Ht1, Hs | apply Hf2].
      * constructor; [| constructor]. simpl.
        intros w' r Hi Hr. apply Hk; [exact Hi |].
        eapply rely_trans; [apply Hf2 | exact Hr].
    + simpl. rewrite starters_app. unfold starters at 2.
      destruct starter; simpl in *; lia.
  - destruct Hk as (-> & Hpend & HQ & Hk). split; [exact HQ |].
    set (w1 := spawn w).
    assert (Hf1 : rely false w w1).
    { unfold rely, frozen, w1. simpl. repeat split; auto; discriminate. }
    assert (Hf2 : forall s, rely s w1 (suspend (WaitSpawn (spawns w) k) w1))
      by (intros s; apply rely_fields; reflexivity).
    split; [eapply rely_trans; [exact Hf1 | apply Hf2] |].
    split; [discriminate |].
    exists (tags ++ [true])%list. split.
    + apply Forall2_app.
      * eapply (resumable_step true); [| | discriminate | exact Hp].
        -- intros _. simpl in Hn. destruct (pending (promises w)); simpl in Hn; lia.
        -- eapply rely_trans; [exact Hf1 | apply Hf2].
      * constructor; [| constructor]. simpl. split; [reflexivity |].
        intros w' o Hi Hr. apply Hk; [exact Hi |].
        eapply rely_trans; [apply Hf2 | exact Hr].
    + simpl. rewrite starters_app. unfold starters at 2. simpl in *. lia.
Qed.

(** ** The invariant and the steps of the controller *)

Lemma snoc_split {A} (l : list A) x before y after :
  (l ++ [x] = before ++ y :: after)%list ->
  (after = [] /\ l = before /\ x = y) \/
  exists after', after = (after' ++ [x])%list /\ l = (before ++ y :: after')%list.
Proof.
  intros H. destruct after as [|z after] using rev_ind.
  - left. apply app_inj_tail in H as [-> ->]. auto.
  - right. exists after.
    change (before ++ y :: after ++ [z])%list with (before ++ (y :: after) ++ [z])%list in H.
    rewrite app_assoc in H. apply app_inj_tail in H as [-> ->]. auto.
Qed.

Lemma numbered_log tr e : is_request e = false -> numbered tr -> numbered (tr ++ [e]).
Proof.
  intros He Hn before rid req after H.
  apply snoc_split in H as [(_ & _ & ->) | (after' & _ & ->)]; [discriminate |].
  eapply Hn. reflexivity.
Qed.

Lemma numbered_send tr rid req :
  rid = count is_request tr -> (rid = 0 <-> is_initialize req = true) ->
  numbered tr -> numbered (tr ++ [Sent rid req]).
Proof.
  intros Hr Hq Hn before rid' req' after H.
  apply snoc_split in H as [(_ & <- & [= <- <-]) | (after' & _ & ->)].
  - auto.
  - eapply Hn. reflexivity.
Qed.

Ltac life_split :=
  split; [| split; [| split; [| split; [| split; [| split; [| split; [| split;
    [| split]]]]]]]].

(** The invariant does not look at the suspended tasks. *)
Lemma life_pool w l : lifecycle_inv w -> lifecycle_inv (set_pool l w).
Proof. intros H. exact H. Qed.

Lemma life_suspend w s : lifecycle_inv w -> lifecycle_inv (suspend s w).
Proof. intros H. exact H. Qed.

Lemma life_log w e :
  is_request e = false -> is_spawn e = false ->
  lifecycle_inv w -> lifecycle_inv (log e w).
Proof.
  intros Hr Hs (H1 & H2 & H3 & H4 & H5 & H6 & H7 & H8 & H9 & H10).
  unfold lifecycle_inv. simpl. rewrite !count_app. simpl. rewrite Hr, Hs.
  life_split; try assumption; try lia.
  apply numbered_log; assumption.
Qed.

(** An assignment that leaves [service], [serviceStarted], [lastRepo]
    and [repoState] alone, and stores no empty token. *)
Lemma life_assign w f :
  service (f (ctl w)) = service (ctl w) ->
  serviceStarted (f (ctl w)) = serviceStarted (ctl w) ->
  lastRepo (f (ctl w)) = lastRepo (ctl w) ->
  repoState (f (ctl w)) = repoState (ctl w) ->
  accessToken (f (ctl w)) <> Some EmptyString ->
  lifecycle_inv w -> lifecycle_inv (upd_ctl f w).
Proof.
  intros E1 E2 E3 E4 Ht (H1 & H2 & H3 & H4 & H5 & H6 & H7 & H8 & H9 & H10).
  unfold lifecycle_inv. simpl. rewrite E1, E2, E3, E4.
  life_split; assumption.
Qed.

Lemma or_else_not_empty token : or_else token None <> Some EmptyString.
Proof.
  unfold or_else. destruct token as [t|]; simpl; [| discriminate].
  destruct (String.eqb_spec t EmptyString); simpl; congruence.
Qed.

(** What the load-attempt routine records. *)
Lemma life_record w p s b :
  hasIndex s = b -> (b = true -> indexable s = true /\ isGit s = true) ->
  lifecycle_inv w ->
  lifecycle_inv
    (upd_ctl (set_lastRepo (Some {| path := p; loadResult := b |}))
       (upd_ctl (fun c => set_repoState (<[p := s]> (repoState c)) c) w)).
Proof.
  intros Hs Hb (H1 & H2 & H3 & H4 & H5 & H6 & H7 & H8 & H9 & H10).
  unfold lifecycle_inv. simpl.
  life_split; try assumption.
  - intros r [= <-]. simpl. exists s. rewrite lookup_insert_eq. auto.
  - intros q s' Hq Hi. destruct (decide (p = q)) as [<- | Hne].
    + rewrite lookup_insert_eq in Hq. injection Hq as <-. apply Hb. congruence.
    + rewrite lookup_insert_ne in Hq by exact Hne. eapply H10; eassumption.
Qed.

Lemma life_unborn w :
  lifecycle_inv w -> service (ctl w) = None ->
  promises w = [] /\ requests w = 0 /\ spawns w = 0 /\ serviceStarted (ctl w) = false.
Proof.
  intros (H1 & H2 & H3 & H4 & H5 & H6 & H7 & H8 & H9 & H10) Hs.
  destruct (H3 Hs) as (Hp & Hsp & Hr). repeat split; try assumption.
  destruct (serviceStarted (ctl w)); [| reflexivity].
  destruct (proj1 H5 eq_refl) as [bfg E]. rewrite Hp in E. discriminate.
Qed.

Lemma life_only_promise w p x :
  lifecycle_inv w -> promises w !! p = Some x -> p = 0 /\ promises w = [x].
Proof.
  intros (H1 & H2 & H3 & H4 & H5 & H6 & H7 & H8 & H9 & H10) Hp.
  destruct (service (ctl w)) as [q|] eqn:Hs.
  - destruct (H4 q eq_refl) as (_ & Hl & _).
    destruct (promises w) as [|y [|z l]]; try discriminate.
    destruct p; [| discriminate]. injection Hp as ->. auto.
  - destruct (H3 eq_refl) as (Hnil & _). rewrite Hnil in Hp. discriminate.
Qed.

Lemma life_fulfilled w p bfg :
  lifecycle_inv w -> promises w !! p = Some (Some (inl bfg)) ->
  (exists bfg', promises w = [Some (inl bfg')]) /\ 0 < requests w /\
  serviceStarted (ctl w) = true.
Proof.
  intros Hi Hp. destruct (life_only_promise w p _ Hi Hp) as [_ Hps].
  destruct Hi as (H1 & H2 & H3 & H4 & H5 & H6 & H7 & H8 & H9 & H10).
  assert (Hst : serviceStarted (ctl w) = true) by (apply H5; eauto).
  split; [eauto |]. split; [apply H6, Hst | exact Hst].
Qed.

(** A request other than embeddings/initialize, sent after it. *)
Lemma life_send w req :
  is_initialize req = false -> 0 < requests w ->
  lifecycle_inv w -> lifecycle_inv (send req w).
Proof.
  intros Hq Hpos (H1 & H2 & H3 & H4 & H5 & H6 & H7 & H8 & H9 & H10).
  unfold lifecycle_inv. simpl. rewrite !count_app. simpl.
  life_split; try assumption; try lia.
  - intros Hs. destruct (H3 Hs) as (_ & _ & Hr). lia.
  - apply numbered_send; [exact H1 | | exact H7].
    rewrite Hq. split; [lia | discriminate].
Qed.

(** embeddings/initialize, sent first. *)
Lemma life_send_first w req :
  is_initialize req = true -> requests w = 0 -> service (ctl w) <> None ->
  lifecycle_inv w -> lifecycle_inv (send req w).
Proof.
  intros Hq Hz Hsv (H1 & H2 & H3 & H4 & H5 & H6 & H7 & H8 & H9 & H10).
  unfold lifecycle_inv. simpl. rewrite !count_app. simpl.
  life_split; try assumption; try lia.
  - intros Hs. contradiction.
  - apply numbered_send; [exact H1 | | exact H7].
    rewrite Hq. tauto.
Qed.

(** The world in which the spawn has begun. *)
Lemma life_spawned w s :
  lifecycle_inv w -> service (ctl w) = None ->
  lifecycle_inv (upd_ctl (set_service (Some 0)) (suspend s (spawn (alloc w)))).
Proof.
  intros Hi Hs. destruct (life_unborn w Hi Hs) as (Hp & Hr & Hsp & Hst).
  destruct Hi as (H1 & H2 & H3 & H4 & H5 & H6 & H7 & H8 & H9 & H10).
  unfold lifecycle_inv. simpl. rewrite !count_app. simpl. rewrite Hp, Hst. simpl.
  life_split; try assumption; try lia; try discriminate.
  - intros q [= <-]. repeat split; lia.
  - split; [discriminate | intros [bfg H]; discriminate].
  - apply numbered_log; [reflexivity | exact H7].
Qed.

Lemma life_got_service w p w1 :
  lifecycle_inv w -> got_service w p w1 -> lifecycle_inv w1.
Proof.
  intros Hi [(_ & ->) | (Hs & _ & s & ->)]; [exact Hi | apply life_spawned; assumption].
Qed.

Lemma got_service_promise w p w1 :
  got_service w p w1 -> service (ctl w1) = Some p.
Proof.
  intros [(Hs & ->) | (Hs & -> & s & ->)]; [exact Hs | reflexivity].
Qed.

(** The start-up has succeeded. *)
Lemma life_started w bfg :
  promises w = [None] -> 0 < requests w ->
  lifecycle_inv w ->
  lifecycle_inv (settle 0 (inl bfg)
                   (log ControllerChanged (upd_ctl (set_serviceStarted true) w))).
Proof.
  intros Hp Hpos (H1 & H2 & H3 & H4 & H5 & H6 & H7 & H8 & H9 & H10).
  unfold lifecycle_inv. simpl. rewrite !count_app. simpl.
  unfold settle_in. rewrite Hp. simpl.
  life_split; try assumption; try lia.
  - intros Hs. destruct (H3 Hs) as (Hnil & _). rewrite Hp in Hnil. discriminate.
  - intros q Hq. destruct (H4 q Hq) as (-> & _ & Hsp). auto.
  - split; eauto.
  - apply numbered_log; [reflexivity | exact H7].
Qed.

(** The start-up has failed. *)
Lemma life_failed w e :
  promises w = [None] ->
  lifecycle_inv w -> lifecycle_inv (settle 0 (inr e) w).
Proof.
  intros Hp (H1 & H2 & H3 & H4 & H5 & H6 & H7 & H8 & H9 & H10).
  assert (Hst : serviceStarted (ctl w) = false).
  { destruct (serviceStarted (ctl w)); [| reflexivity].
    destruct (proj1 H5 eq_refl) as [bfg H]. rewrite Hp in H. discriminate. }
  unfold lifecycle_inv. simpl. unfold settle_in. rewrite Hp, Hst. simpl.
  life_split; try assumption; try discriminate.
  - intros Hs. destruct (H3 Hs) as (Hnil & _). rewrite Hp in Hnil. discriminate.
  - intros q Hq. destruct (H4 q Hq) as (-> & _ & Hsp). auto.
  - split; [discriminate | intros [bfg H]; discriminate].
Qed.

Lemma life_pending_service w :
  lifecycle_inv w -> promises w = [None] -> service (ctl w) <> None.
Proof.
  intros (H1 & H2 & H3 & H4 & H5 & H6 & H7 & H8 & H9 & H10) Hp Hs.
  destruct (H3 Hs) as (Hnil & _). rewrite Hp in Hnil. discriminate.
Qed.

Lemma life_started_service w :
  lifecycle_inv w -> serviceStarted (ctl w) = true ->
  exists bfg, service (ctl w) = Some 0 /\ promises w = [Some (inl bfg)].
Proof.
  intros (H1 & H2 & H3 & H4 & H5 & H6 & H7 & H8 & H9 & H10) Hst.
  destruct (proj1 H5 Hst) as [bfg Hp]. exists bfg. split; [| exact Hp].
  destruct (service (ctl w)) as [q|] eqn:Hs.
  - destruct (H4 q eq_refl) as (-> & _). reflexivity.
  - destruct (H3 eq_refl) as (Hnil & _). rewrite Hnil in Hp. discriminate.
Qed.

Lemma life_lastRepo w r :
  lifecycle_inv w -> lastRepo (ctl w) = Some r ->
  exists s,
    repoState (ctl w) !! path r = Some s /\ hasIndex s = loadResult r /\
    (loadResult r = true -> indexable s = true /\ isGit s = true).
Proof.
  intros (H1 & H2 & H3 & H4 & H5 & H6 & H7 & H8 & H9 & H10) Hl.
  destruct (H9 r Hl) as (s & Hs & Hh). exists s. split; [exact Hs |].
  split; [exact Hh |]. intros Ht. eapply H10; [exact Hs | congruence].
Qed.

Lemma life_token w : lifecycle_inv w -> accessToken (ctl w) <> Some EmptyString.
Proof. intros (H1 & H2 & H3 & H4 & H5 & H6 & H7 & H8 & H9 & H10). exact H8. Qed.

Lemma life_fulfilled_promises w p bfg :
  lifecycle_inv w -> promises w !! p = Some (Some (inl bfg)) ->
  exists bfg', promises w = [Some (inl bfg')].
Proof. intros Hi Hp. apply (life_fulfilled w p bfg Hi Hp). Qed.

Lemma life_fulfilled_requests w p bfg :
  lifecycle_inv w -> promises w !! p = Some (Some (inl bfg)) -> 0 < requests w.
Proof. intros Hi Hp. apply (life_fulfilled w p bfg Hi Hp). Qed.

Lemma eagerlyLoad_failure_no_index e : hasIndex (eagerlyLoad_failure e) = false.
Proof. reflexivity. Qed.

(** ** Every task of the controller keeps the invariant *)

Section Lifecycle.

Variable host : Host.

Transparent await_getService getService_world service_id.

(** Closes a goal that says the invariant holds of a world built from
    one where it holds. *)
Ltac life_inv :=
  repeat first
    [ assumption
    | apply life_suspend
    | apply life_pool
    | apply life_log; [reflexivity | reflexivity |]
    | apply life_record;
        [reflexivity | first [discriminate | intros _; split; reflexivity] |]
    | apply life_started; [cbn; congruence | cbn; lia |]
    | apply life_failed; [cbn; congruence |]
    | apply life_send_first;
        [reflexivity | cbn; lia
        | cbn; eapply life_pending_service; [eassumption | cbn; congruence] |]
    | apply life_send;
        [reflexivity
        | cbn; first [lia | eapply life_fulfilled_requests; eassumption] |]
    | apply life_assign;
        [reflexivity | reflexivity | reflexivity | reflexivity
        | cbn; first [apply or_else_not_empty | discriminate
                     | eapply life_token; eassumption] |]
    | eapply life_got_service; [| eassumption] ].

(** Closes the side conditions of the steps. *)
Ltac life_side :=
  cbn in *;
  first
    [ reflexivity
    | assumption
    | discriminate
    | congruence
    | lia
    | eapply life_fulfilled_promises; eassumption
    | match goal with
      | Hi : lifecycle_inv ?w, Hs : service (ctl ?w) = None |- _ =>
          destruct (life_unborn w Hi Hs) as (? & ? & ? & ?); first [assumption | lia]
      end ].

(** What the starter finds when it is resumed. *)
Ltac use_frozen :=
  repeat match reverse goal with
         | H : rely true ?w0 _ |- _ =>
             let F := fresh "F" in
             destruct H as (_ & _ & _ & F);
             specialize (F eq_refl); unfold frozen in F; cbn in F;
             destruct (F ltac:(congruence)) as (? & ? & ? & ?); clear F
         end.

Ltac keeps_walk :=
  repeat match goal with
         | |- _ /\ _ => split
         | |- forall _, _ => intro
         | |- keeps _ ?t _ _ =>
             first
               [ match t with
                 | context [match ?x with _ => _ end] => destruct x eqn:?
                 end
               | progress cbn ]
         | |- _ => progress cbv beta
         end.

(** The engine's start-up: the task that owns the pending
    [this.service]. *)
Lemma spawnAndBindService_keeps Q w :
  promises w = [None] -> requests w = 0 ->
  (forall s, Q (suspend s (spawn w))) ->
  keeps true
    (spawnAndBindService host (fun v => Settle 0 (inl v) Done)
       (fun e => Settle 0 (inr e) Done)) Q w.
Proof.
  intros Hp Hr HQ.
  unfold spawnAndBindService, spawnBfg, getIndexLibraryPaths, request,
    logDebug, emit, modify, get, skip, throw, bind, ret.
  cbn. split; [reflexivity |]. split; [exact Hp |]. split; [apply HQ |].
  intros w1 o Hi1 Hf1.
  keeps_walk.
  all: use_frozen.
  all: try solve [life_side].
  all: try solve [life_inv].
Qed.

Lemma getService_keeps k h Q w :
  (service (ctl w) = None -> promises w = [] /\ requests w = 0) ->
  (forall p w1, got_service w p w1 -> keeps false (k p) Q w1) ->
  keeps false (getService host k h) Q w.
Proof.
  intros Hu Hk. unfold getService, async_call, modify, get, bind, ret. cbn [keeps].
  destruct (service (ctl w)) as [p|] eqn:Hs.
  - apply Hk. left. auto.
  - destruct (Hu eq_refl) as [Hnil Hreq]. cbn [keeps]. rewrite Hnil. cbn [length].
    split; [reflexivity |]. split; [reflexivity |].
    apply spawnAndBindService_keeps.
    + cbn. rewrite Hnil. reflexivity.
    + exact Hreq.
    + intros s. cbn [keeps]. split; [| split].
      * cbn. intros p Hp. congruence.
      * reflexivity.
      * apply Hk. right. eauto.
Qed.

Lemma await_getService_keeps k h Q w :
  (service (ctl w) = None -> promises w = [] /\ requests w = 0) ->
  (forall p w1, got_service w p w1 ->
     (forall s, Q (suspend s w1)) /\
     forall w' r,
       lifecycle_inv w' -> rely false w1 w' -> promises w' !! p = Some (Some r) ->
       keeps false (match r with inl v => k v | inr e => h e end) lifecycle_inv w') ->
  keeps false (await_getService host k h) Q w.
Proof.
  intros Hu Hk. unfold await_getService, bind. apply getService_keeps; [exact Hu |].
  intros p w1 Hg. unfold await. cbn [keeps]. destruct (Hk p w1 Hg) as [HQ Hr].
  split; [reflexivity |]. split; [apply HQ | exact Hr].
Qed.

Opaque await_getService.

Ltac life_methods :=
  unfold call, top, notified, on_progress, setAccessToken, index, load,
    start, getContext, query, dispose, load_start_service, load_after_done,
    eagerlyLoad, lastRepo_loadResult, void, try_catch, request,
    logDebug, emit, modify, get, skip, throw, bind, ret.

(** The fields nothing has touched yet when [getService] is called. *)
Ltac life_unborn_side :=
  let Hs := fresh "Hs" in
  intros Hs; cbn in Hs |- *;
  match goal with
  | Hi : lifecycle_inv ?w |- _ =>
      destruct (life_unborn w Hi Hs) as (? & ? & ? & ?); split; assumption
  end.

Ltac life_walk :=
  repeat match goal with
         | |- _ /\ _ => split
         | |- forall _, _ => intro
         | |- keeps _ (await_getService _ _ _) _ _ =>
             apply await_getService_keeps; [life_unborn_side |]
         | |- keeps _ ?t _ _ =>
             first
               [ match t with
                 | context [match ?x with _ => _ end] => destruct x eqn:?
                 end
               | progress cbn ]
         | |- _ => progress cbv beta
         end.

(** Every method the host can call keeps the invariant. *)
Lemma call_keeps m w :
  lifecycle_inv w -> keeps false (call host m) lifecycle_inv w.
Proof.
  intros Hi. destruct m; life_methods; life_walk.
  all: try solve [life_side].
  all: try solve [life_inv].
Qed.

(** So does the notification handler. *)
Lemma notified_keeps obj w :
  lifecycle_inv w -> keeps false (notified host obj) lifecycle_inv w.
Proof.
  intros Hi. life_methods; life_walk.
  all: try solve [life_side].
  all: try solve [life_inv].
Qed.

Transparent await_getService.

Lemma starters_cons tag tags : starters (tag :: tags) = Nat.b2n tag + starters tags.
Proof. destruct tag; reflexivity. Qed.

Lemma take_reply_Forall2 (R : bool -> Suspended -> Prop) rid l k rest : forall tags,
  take_reply rid l = Some (k, rest) -> Forall2 R tags l ->
  exists rid' tag tags',
    R tag (WaitReply rid' k) /\ Forall2 R tags' rest /\
    starters tags = Nat.b2n tag + starters tags'.
Proof.
  revert k rest. induction l as [|s l IH]; intros k rest tags Ht Hl; [discriminate |].
  inversion Hl as [|tag ? tags0 ? Hs Hl']; subst. simpl in Ht.
  assert (Hrec : forall k1 rest1, take_reply rid l = Some (k1, rest1) ->
            exists rid' tag' tags',
              R tag' (WaitReply rid' k1) /\ Forall2 R tags' (s :: rest1) /\
              starters (tag :: tags0) = Nat.b2n tag' + starters tags').
  { intros k1 rest1 H1. destruct (IH _ _ _ H1 Hl') as (rid' & tag' & tags' & H2 & H3 & H4).
    exists rid', tag', (tag :: tags'). split; [exact H2 |].
    split; [constructor; assumption |]. rewrite !starters_cons. lia. }
  destruct s as [p k0 | rid' k0 | sid k0].
  - destruct (take_reply rid l) as [[k1 rest1]|]; [| discriminate].
    injection Ht as <- <-. apply Hrec. reflexivity.
  - destruct (Nat.eqb rid rid').
    + injection Ht as <- <-. exists rid', tag, tags0.
      split; [exact Hs |]. split; [exact Hl' | apply starters_cons].
    + destruct (take_reply rid l) as [[k1 rest1]|]; [| discriminate].
      injection Ht as <- <-. apply Hrec. reflexivity.
  - destruct (take_reply rid l) as [[k1 rest1]|]; [| discriminate].
    injection Ht as <- <-. apply Hrec. reflexivity.
Qed.

Lemma take_spawn_Forall2 (R : bool -> Suspended -> Prop) sid l k rest : forall tags,
  take_spawn sid l = Some (k, rest) -> Forall2 R tags l ->
  exists sid' tag tags',
    R tag (WaitSpawn sid' k) /\ Forall2 R tags' rest /\
    starters tags = Nat.b2n tag + starters tags'.
Proof.
  revert k rest. induction l as [|s l IH]; intros k rest tags Ht Hl; [discriminate |].
  inversion Hl as [|tag ? tags0 ? Hs Hl']; subst. simpl in Ht.
  assert (Hrec : forall k1 rest1, take_spawn sid l = Some (k1, rest1) ->
            exists sid' tag' tags',
              R tag' (WaitSpawn sid' k1) /\ Forall2 R tags' (s :: rest1) /\
              starters (tag :: tags0) = Nat.b2n tag' + starters tags').
  { intros k1 rest1 H1. destruct (IH _ _ _ H1 Hl') as (sid' & tag' & tags' & H2 & H3 & H4).
    exists sid', tag', (tag :: tags'). split; [exact H2 |].
    split; [constructor; assumption |]. rewrite !starters_cons. lia. }
  destruct s as [p k0 | rid' k0 | sid' k0].
  - destruct (take_spawn sid l) as [[k1 rest1]|]; [| discriminate].
    injection Ht as <- <-. apply Hrec. reflexivity.
  - destruct (take_spawn sid l) as [[k1 rest1]|]; [| discriminate].
    injection Ht as <- <-. apply Hrec. reflexivity.
  - destruct (Nat.eqb sid sid').
    + injection Ht as <- <-. exists sid', tag, tags0.
      split; [exact Hs |]. split; [exact Hl' | apply starters_cons].
    + destruct (take_spawn sid l) as [[k1 rest1]|]; [| discriminate].
      injection Ht as <- <-. apply Hrec. reflexivity.
Qed.

Lemma starters_delete tags i :
  tags !! i = Some false -> starters (delete i tags) = starters tags.
Proof.
  revert i. induction tags as [|tag tags IH]; intros i Hi; [discriminate |].
  destruct i as [|i]; simpl in Hi.
  - injection Hi as ->. reflexivity.
  - change (delete (S i) (tag :: tags)) with (tag :: delete i tags).
    rewrite !starters_cons, (IH i Hi). reflexivity.
Qed.

(** Every event keeps the invariant of the world, and is a step every
    suspended task may rely on. *)
Lemma deliver_lifecycle ev w w' :
  lifecycle w -> deliver host ev w = Some w' ->
  lifecycle w' /\ rely false w w'.
Proof.
  intros (Hi & tags & Hp & Hn) Hd.
  assert (Hrun : forall starter t rest tags',
    keeps starter t lifecycle_inv (set_pool rest w) ->
    Forall2 (resumable w) tags' rest ->
    Nat.b2n starter + starters tags' = Nat.b2n (pending (promises w)) ->
    lifecycle (run t (set_pool rest w)) /\ rely false w (run t (set_pool rest w))).
  { intros starter t rest tags' Ht Hrest Hc.
    assert (Hsame : forall s, rely s w (set_pool rest w))
      by (intros s; apply rely_fields; reflexivity).
    destruct (exec_keeps t starter lifecycle_inv (set_pool rest w) tags' Ht)
      as (H1 & H2 & _ & H4).
    { simpl. eapply Forall2_impl; [exact Hrest |].
      intros tag s Hs. eapply resumable_rely; [exact Hs | apply Hsame]. }
    { exact Hc. }
    split; [split; assumption |].
    eapply rely_trans; [apply Hsame | exact H2]. }
  assert (Hsame : set_pool (pool w) w = w) by (destruct w; reflexivity).
  destruct ev as [m | sid o | rid r | obj | i]; simpl in Hd.
  - injection Hd as <-.
    pose proof (Hrun false (call host m) (pool w) tags) as H.
    rewrite Hsame in H. apply H; [apply call_keeps, Hi | exact Hp | exact Hn].
  - destruct (take_spawn sid (pool w)) as [[k rest]|] eqn:Ht; [| discriminate].
    injection Hd as <-.
    destruct (take_spawn_Forall2 _ _ _ _ _ _ Ht Hp)
      as (sid' & tag & tags' & [-> Hk] & Hrest & Hc).
    apply (Hrun true (k o) rest tags'); [| exact Hrest | lia].
    apply Hk; [exact Hi | apply rely_fields; reflexivity].
  - destruct (take_reply rid (pool w)) as [[k rest]|] eqn:Ht; [| discriminate].
    injection Hd as <-.
    destruct (take_reply_Forall2 _ _ _ _ _ _ Ht Hp)
      as (rid' & tag & tags' & Hk & Hrest & Hc).
    apply (Hrun tag (k r) rest tags'); [| exact Hrest | lia].
    apply Hk; [exact Hi | apply rely_fields; reflexivity].
  - destruct (registered w); [| discriminate]. injection Hd as <-.
    pose proof (Hrun false (notified host obj) (pool w) tags) as H.
    rewrite Hsame in H. apply H; [apply notified_keeps, Hi | exact Hp | exact Hn].
  - destruct (pool w !! i) as [[p k | |]|] eqn:Hl; try discriminate.
    destruct (promises w !! p) as [[r|]|] eqn:Hr; try discriminate.
    injection Hd as <-.
    destruct (Forall2_lookup_r _ _ _ _ _ Hp Hl) as (tag & Htag & [-> Hk]).
    apply (Hrun false (k r) (delete i (pool w)) (delete i tags)).
    + apply Hk; [exact Hi | apply rely_fields; reflexivity | exact Hr].
    + apply Forall2_delete, Hp.
    + rewrite (starters_delete _ _ Htag). exact Hn.
Qed.

Lemma new_world_lifecycle : lifecycle new_world.
Proof.
  split.
  - unfold lifecycle_inv. simpl. life_split; try reflexivity; try discriminate; auto.
    all: try (split; [discriminate | intros [bfg H]; discriminate]).
    all: try (intros [|x before] rid req after H; discriminate).
    all: intros p s H; rewrite lookup_empty in H; discriminate.
  - exists []. split; [constructor | reflexivity].
Qed.

Lemma reachable_lifecycle w : reachable host w -> lifecycle w.
Proof.
  induction 1 as [| w ev w' _ IH Hd]; [apply new_world_lifecycle |].
  eapply deliver_lifecycle; eassumption.
Qed.

Lemma deliver_all_lifecycle evs : forall w w',
  lifecycle w -> deliver_all host evs w = Some w' ->
  lifecycle w' /\ rely false w w'.
Proof.
  induction evs as [|ev evs IH]; intros w w' Hl Hd; simpl in Hd.
  - injection Hd as <-. split; [exact Hl | apply rely_refl].
  - destruct (deliver host ev w) as [w1|] eqn:E; [| discriminate]. simpl in Hd.
    destruct (deliver_lifecycle ev w w1 Hl E) as [Hl1 Hr1].
    destruct (IH w1 w' Hl1 Hd) as [Hl' Hr'].
    split; [exact Hl' | eapply rely_trans; eassumption].
Qed.

(** ** What holds of the engine whatever the order of events *)

(** X17: the engine is spawned at most once in the life of a
    controller, whatever is called and in whatever order: [spawnBfg]
    has been called as many times as [spawnAndBindService], never more
    than once, and not at all exactly as long as [this.service] is not
    set. *)
Theorem engine_spawned_at_most_once (w : World) :
  reachable host w ->
  count is_spawn (trace w) = length (promises w) /\
  count is_spawn (trace w) <= 1 /\
  (service (ctl w) = None <-> count is_spawn (trace w) = 0).
Proof.
  intros Hr. destruct (reachable_lifecycle w Hr) as [Hi _].
  destruct Hi as (H1 & H2 & H3 & H4 & H5 & H6 & H7 & H8 & H9 & H10).
  rewrite <- H2. destruct (service (ctl w)) as [q|] eqn:Hs.
  - destruct (H4 q eq_refl) as (_ & Hl & Hsp). rewrite Hl, Hsp.
    split; [reflexivity |]. split; [lia |]. split; discriminate.
  - destruct (H3 eq_refl) as (Hnil & Hsp & _). rewrite Hnil, Hsp.
    split; [reflexivity |]. split; [lia |]. split; reflexivity.
Qed.

(** X18: [serviceStarted] is true exactly when [this.service] is a
    fulfilled promise, in every world the extension host can reach:
    the flag is never set for an engine that failed to start, and never
    left unset once the handle is there. *)
Theorem started_iff_engine_ready (w : World) :
  reachable host w ->
  (serviceStarted (ctl w) = true <->
   exists q bfg, service (ctl w) = Some q /\ promises w !! q = Some (Some (inl bfg))).
Proof.
  intros Hr. destruct (reachable_lifecycle w Hr) as [Hi _]. split.
  - intros Hst. destruct (life_started_service w Hi Hst) as (bfg & Hs & Hp).
    exists 0, bfg. rewrite Hp. auto.
  - intros (q & bfg & _ & Hp). apply (life_fulfilled w q bfg Hi Hp).
Qed.

(** X19: the requests to the engine carry their number in the order
    they are sent, and embeddings/initialize is the first request sent
    and is sent once: in the trace of every world the extension host
    can reach, a request is embeddings/initialize exactly when no
    request comes before it. *)
Theorem initialize_comes_first (w : World) (before after : list Effect)
    (rid : nat) (req : EngineRequest) :
  reachable host w ->
  trace w = (before ++ Sent rid req :: after)%list ->
  rid = count is_request before /\
  (is_initialize req = true <-> count is_request before = 0).
Proof.
  intros Hr Ht. destruct (reachable_lifecycle w Hr) as [Hi _].
  destruct Hi as (H1 & H2 & H3 & H4 & H5 & H6 & H7 & H8 & H9 & H10).
  destruct (H7 before rid req after Ht) as [Hn Hq].
  split; [exact Hn |]. rewrite <- Hn. tauto.
Qed.

(** X20: a failed start-up is final.  Once [this.service] is a
    rejected promise, no run of events whatsoever sends a request to
    the engine, sets [serviceStarted], or replaces the rejected
    promise. *)
Theorem failed_startup_is_final (evs : list Event) (w w' : World) (q : PromiseId)
    (e : JsError) :
  reachable host w -> promises w !! q = Some (Some (inr e)) ->
  deliver_all host evs w = Some w' ->
  count is_request (trace w') = count is_request (trace w) /\
  serviceStarted (ctl w') = false /\
  promises w' !! q = Some (Some (inr e)).
Proof.
  intros Hr Hq Hd. pose proof (reachable_lifecycle w Hr) as Hl.
  destruct (deliver_all_lifecycle evs w w' Hl Hd) as [[Hi' _] (_ & R2 & R3 & _)].
  destruct Hl as [Hi _].
  destruct (life_only_promise w q _ Hi Hq) as [-> Hps].
  assert (Hreq : requests w' = requests w) by (apply (R3 e); exact Hq).
  destruct Hi as (H1 & _). pose proof (R2 0 _ Hq) as Hq'.
  destruct (life_only_promise w' 0 _ Hi' Hq') as [_ Hps'].
  destruct Hi' as (H1' & _ & _ & _ & H5' & _).
  split; [congruence |]. split; [| exact Hq'].
  destruct (serviceStarted (ctl w')); [| reflexivity].
  destruct (proj1 H5' eq_refl) as [bfg Hb]. rewrite Hps' in Hb. discriminate.
Qed.

(** X21: in every world the extension host can reach, the load result
    of the last repository is the [hasIndex] the repository state
    holds for its path; and a repository state that has an index is
    a git repository and indexable. *)
Theorem lastRepo_matches_repoState (w : World) (r : LastRepo) :
  reachable host w -> lastRepo (ctl w) = Some r ->
  exists s,
    repoState (ctl w) !! path r = Some s /\ hasIndex s = loadResult r /\
    (loadResult r = true -> indexable s = true /\ isGit s = true).
Proof.
  intros Hr Hl. destruct (reachable_lifecycle w Hr) as [Hi _].
  apply life_lastRepo; assumption.
Qed.

(** X22: the stored access token is never the empty string: an empty
    token is stored as undefined, in every world the extension host
    can reach. *)
Theorem token_never_empty (w : World) :
  reachable host w -> accessToken (ctl w) <> Some EmptyString.
Proof.
  intros Hr. destruct (reachable_lifecycle w Hr) as [Hi _]. apply life_token, Hi.
Qed.

(** X23: when [status] says ready, the repository state of the last
    repository has an index, and is a git repository and indexable;
    the path [status] shows is the path of the last repository unless
    that path is empty. *)
Theorem ready_means_indexed (w : World) (p : string) :
  reachable host w ->
  status host (ctl w) = [mkGroup p [local_embeddings ready]] ->
  exists last s,
    lastRepo (ctl w) = Some last /\ loadResult last = true /\
    repoState (ctl w) !! path last = Some s /\
    hasIndex s = true /\ indexable s = true /\ isGit s = true /\
    (path last <> EmptyString -> p = path last).
Proof.
  intros Hr Hst. unfold status in Hst.
  destruct (endpointIsDotcom (ctl w)); simpl in Hst; [| discriminate].
  destruct (lastRepo (ctl w)) as [last|] eqn:Hl; [| discriminate].
  destruct (bool_decide (pathBeingIndexed (ctl w) = Some (active_path host (ctl w))));
    [discriminate |].
  destruct (loadResult last) eqn:Hres.
  - injection Hst as Hp.
    destruct (reachable_lifecycle w Hr) as [Hi _].
    destruct (life_lastRepo w last Hi Hl) as (s & Hs & Hh & Hg).
    destruct (Hg Hres) as [Hx Hy].
    exists last, s. repeat split; try assumption; try congruence.
    intros Hne. rewrite <- Hp. apply active_path_lastRepo; assumption.
  - destruct (negb _); [discriminate |].
    destruct (from_option indexable false _); discriminate.
Qed.

(** X24: [load] in a world the extension host can reach, on dotcom,
    for a non-empty path that is not known to have no index, once the
    service has started: the call and the microtask that resumes it
    send embeddings/load for the path to the engine and write no
    field. *)
Theorem load_reaches_engine (w : World) (p : string) :
  reachable host w ->
  endpointIsDotcom (ctl w) = true -> p <> EmptyString ->
  (forall s, repoState (ctl w) !! p = Some s -> hasIndex s = true) ->
  serviceStarted (ctl w) = true ->
  exists w',
    deliver_all host [Invoke (CallLoad (Some p)); Microtask (length (pool w))] w = Some w' /\
    trace w' = (trace w ++ [Sent (requests w) (Load p)])%list /\
    ctl w' = ctl w /\
    exists K, pool w' = (pool w ++ [WaitReply (requests w) K])%list.
Proof.
  intros Hr Hd Hp Hs Hst.
  destruct (reachable_lifecycle w Hr) as [Hi _].
  destruct (life_started_service w Hi Hst) as (bfg & Hq & Hf).
  simpl. unfold run, call, top. rewrite (load_delegates host w p) by assumption.
  unfold eagerlyLoad, try_catch, request, bind.
  rewrite exec_await_getService.
  destruct (getService_world_memo host w 0 Hq) as [-> ->]. simpl.
  rewrite list_lookup_middle by reflexivity. simpl. rewrite Hf. simpl.
  rewrite delete_middle, app_nil_r.
  eexists. split; [reflexivity |]. simpl. split; [reflexivity |].
  split; [reflexivity |]. eexists. reflexivity.
Qed.

End Lifecycle.

Opaque await_getService getService_world service_id.

(** * The helpers of the end-to-end tests *)

(** ** [waitUntil] *)

Lemma to_int32_small x : (- 2 ^ 31 <= x < 2 ^ 31)%Z -> to_int32 x = x.
Proof.
  intros H. unfold to_int32. rewrite Z.mod_small; lia.
Qed.

Lemma to_int32_range x : (- 2 ^ 31 <= to_int32 x < 2 ^ 31)%Z.
Proof.
  unfold to_int32. pose proof (Z.mod_pos_bound (x + 2 ^ 31) (2 ^ 32)). lia.
Qed.

Lemma to_int32_add x k : to_int32 (x + k * 2 ^ 32) = to_int32 x.
Proof.
  unfold to_int32.
  replace (x + k * 2 ^ 32 + 2 ^ 31)%Z with (x + 2 ^ 31 + k * 2 ^ 32)%Z by lia.
  rewrite Z_mod_plus_full. reflexivity.
Qed.

Lemma to_int32_double x : to_int32 (2 * to_int32 x) = to_int32 (2 * x).
Proof.
  unfold to_int32 at 2.
  rewrite (Z.mod_eq (x + 2 ^ 31) (2 ^ 32)) by lia.
  replace (2 * (x + 2 ^ 31 - 2 ^ 32 * ((x + 2 ^ 31) / 2 ^ 32) - 2 ^ 31))%Z
    with (2 * x + (- 2 * ((x + 2 ^ 31) / 2 ^ 32)) * 2 ^ 32)%Z by lia.
  apply to_int32_add.
Qed.

Lemma shl1_spec x : shl1 (to_int32 x) = to_int32 (2 * x).
Proof.
  unfold shl1. rewrite Z.shiftl_mul_pow2 by lia.
  rewrite (to_int32_small (to_int32 x)) by apply to_int32_range.
  rewrite Z.mul_comm. change (2 ^ 1)%Z with 2%Z. apply to_int32_double.
Qed.

Lemma iter_shl1 k : Nat.iter k shl1 10%Z = to_int32 (10 * 2 ^ Z.of_nat k).
Proof.
  induction k as [|k IH].
  - reflexivity.
  - simpl Nat.iter. rewrite IH, shl1_spec. f_equal.
    rewrite Nat2Z.inj_succ, Z.pow_succ_r by lia. lia.
Qed.

Section WaitUntilFacts.

Context {State : Type}.
Variable predicate : State -> Result bool.

Lemma waitUntil_from_delays (states : list State) : forall delay k d,
  fst (waitUntil_from predicate delay states) !! k = Some d ->
  d = Nat.iter k shl1 delay.
Proof.
  induction states as [|s rest IH]; intros delay k d H; simpl in H.
  - rewrite lookup_nil in H. discriminate.
  - destruct (predicate s) as [[|]|e]; simpl in H;
      try (rewrite lookup_nil in H; discriminate).
    destruct (waitUntil_from predicate (shl1 delay) rest) as [slept r] eqn:E.
    simpl in H. destruct k as [|k]; simpl in H.
    + injection H as <-. reflexivity.
    + specialize (IH (shl1 delay) k d). rewrite E in IH. simpl in IH.
      rewrite (IH H). symmetry. apply Nat.iter_succ_r.
Qed.

(** X25: the delays of [waitUntil].  The delay before the poll number
    [k+1], when there is one, is [10 * 2^k] milliseconds only as long
    as [k < 28]: [delay <<= 1] works on 32-bit integers, so the next
    three delays are negative, [2^30] and negative again, and from
    then on the delay is 0 for good. *)
Theorem waitUntil_backoff (states : list State) (k : nat) (d : Z) :
  fst (waitUntil predicate states) !! k = Some d ->
  (k < 28 -> d = (10 * 2 ^ Z.of_nat k)%Z) /\
  (k = 28 -> d = (-1610612736)%Z) /\
  (k = 29 -> d = 1073741824%Z) /\
  (k = 30 -> d = (-2147483648)%Z) /\
  (31 <= k -> d = 0%Z).
Proof.
  intros H. apply waitUntil_from_delays in H. rewrite iter_shl1 in H. subst d.
  split; [| split; [| split; [| split]]].
  - intros Hk. apply to_int32_small.
    assert (0 < 2 ^ Z.of_nat k <= 2 ^ 27)%Z.
    { split; [apply Z.pow_pos_nonneg; lia | apply Z.pow_le_mono_r; lia]. }
    lia.
  - intros ->. reflexivity.
  - intros ->. reflexivity.
  - intros ->. reflexivity.
  - intros Hk.
    replace (Z.of_nat k) with (Z.of_nat (k - 31) + 31)%Z by lia.
    rewrite Z.pow_add_r by lia.
    replace (10 * (2 ^ Z.of_nat (k - 31) * 2 ^ 31))%Z
      with (0 + (5 * 2 ^ Z.of_nat (k - 31)) * 2 ^ 32)%Z by lia.
    rewrite to_int32_add. reflexivity.
Qed.

(** X26: how [waitUntil] ends.  While every poll says false it goes
    on polling, sleeping once after each poll: there is no limit to the
    number of polls.  It ends at the first poll that returns true or
    throws, resolving in the first case and rejecting with what the
    predicate threw in the second, and polls nothing further. *)
Theorem waitUntil_ends (before after : list State) (s : State) (error : JsError) :
  Forall (fun x => predicate x = inl false) before ->
  snd (waitUntil predicate before) = None /\
  length (fst (waitUntil predicate before)) = length before /\
  (predicate s = inl true ->
   waitUntil predicate (before ++ s :: after) =
   (fst (waitUntil predicate before), Some (inl tt, after))) /\
  (predicate s = inr error ->
   waitUntil predicate (before ++ s :: after) =
   (fst (waitUntil predicate before), Some (inr error, after))).
Proof.
  unfold waitUntil. generalize 10%Z as delay.
  induction before as [|b before IH]; intros delay Hb; simpl.
  - split; [reflexivity |]. split; [reflexivity |].
    split; intros ->; reflexivity.
  - inversion Hb as [|? ? Hb1 Hb2]; subst. rewrite Hb1.
    destruct (IH (shl1 delay) Hb2) as (H1 & H2 & H3 & H4).
    destruct (waitUntil_from predicate (shl1 delay) before) as [slept r] eqn:E.
    simpl in *. split; [exact H1 |]. split; [congruence |].
    split; intros Hs.
    + rewrite (H3 Hs). reflexivity.
    + rewrite (H4 Hs). reflexivity.
Qed.

End WaitUntilFacts.

(** ** [getCodySidebar] *)

Section SidebarFacts.

Context {Frame : Type}.

(** X27: what [findCodySidebarFrame] finds.  It returns the first frame
    whose title is ['Cody'], rejects with the first title error that
    does not mention ['Frame was detached'], whichever of the two comes
    first in the order of [page.frames()], and returns null when
    neither is there; frames with another title and detached frames
    are passed over. *)
Theorem findCodySidebarFrame_first (frames : list (Frame * Result string)) :
  (forall frame,
     findCodySidebarFrame frames = inl (Some frame) <->
     exists before after,
       frames = (before ++ (frame, inl "Cody") :: after)%list /\
       forallb passed_over before = true) /\
  (forall error,
     findCodySidebarFrame frames = inr error <->
     exists before frame after,
       frames = (before ++ (frame, inr error) :: after)%list /\
       forallb passed_over before = true /\ is_detached error = false) /\
  (findCodySidebarFrame frames = inl None <-> forallb passed_over frames = true).
Proof.
  induction frames as [|[f [title|err]] rest (IH1 & IH2 & IH3)].
  - simpl. split; [| split].
    + intros frame. split; [discriminate |].
      intros (before & after & H & _). destruct before; discriminate.
    + intros error. split; [discriminate |].
      intros (before & frame & after & H & _). destruct before; discriminate.
    + tauto.
  - simpl. unfold passed_over at 3. simpl.
    destruct (String.eqb_spec title "Cody") as [-> | Hne]; simpl.
    + split; [| split].
      * intros frame. split.
        -- intros H. injection H as <-. exists [], rest. split; reflexivity.
        -- intros (before & after & H & Hb). destruct before as [|[f' r'] before].
           ++ simpl in H. injection H as <- <-. reflexivity.
           ++ simpl in H. injection H as <- <- _. simpl in Hb. discriminate.
      * intros error. split; [discriminate |].
        intros (before & frame & after & H & Hb & _).
        destruct before as [|[f' r'] before]; simpl in H.
        -- discriminate.
        -- injection H as <- <- _. simpl in Hb. discriminate.
      * split; discriminate.
    + split; [| split].
      * intros frame. rewrite IH1. split.
        -- intros (before & after & -> & Hb).
           exists ((f, inl title) :: before), after. split; [reflexivity |].
           simpl. unfold passed_over at 1. simpl.
           destruct (String.eqb_spec title "Cody"); [contradiction | exact Hb].
        -- intros (before & after & H & Hb). destruct before as [|e0 before]; simpl in H.
           ++ injection H as _ Ht _. contradiction.
           ++ injection H as _ ->. exists before, after. split; [reflexivity |].
              simpl in Hb. apply andb_true_iff in Hb. apply Hb.
      * intros error. rewrite IH2. split.
        -- intros (before & frame & after & -> & Hb & Hd).
           exists ((f, inl title) :: before), frame, after. split; [reflexivity |].
           split; [| exact Hd]. simpl. unfold passed_over at 1. simpl.
           destruct (String.eqb_spec title "Cody"); [contradiction | exact Hb].
        -- intros (before & frame & after & H & Hb & Hd).
           destruct before as [|e0 before]; simpl in H.
           ++ discriminate.
           ++ injection H as _ ->. exists before, frame, after.
              split; [reflexivity |]. split; [| exact Hd].
              simpl in Hb. apply andb_true_iff in Hb. apply Hb.
      * exact IH3.
  - simpl. unfold passed_over at 3. simpl.
    destruct (is_detached err) eqn:Hdet; simpl.
    + split; [| split].
      * intros frame. rewrite IH1. split.
        -- intros (before & after & -> & Hb).
           exists ((f, inr err) :: before), after. split; [reflexivity |].
           simpl. unfold passed_over at 1. simpl. rewrite Hdet. exact Hb.
        -- intros (before & after & H & Hb). destruct before as [|e0 before]; simpl in H.
           ++ discriminate.
           ++ injection H as _ ->. exists before, after. split; [reflexivity |].
              simpl in Hb. apply andb_true_iff in Hb. apply Hb.
      * intros error. rewrite IH2. split.
        -- intros (before & frame & after & -> & Hb & Hd).
           exists ((f, inr err) :: before), frame, after. split; [reflexivity |].
           split; [| exact Hd]. simpl. unfold passed_over at 1. simpl.
           rewrite Hdet. exact Hb.
        -- intros (before & frame & after & H & Hb & Hd).
           destruct before as [|e0 before]; simpl in H.
           ++ injection H as <- <- _. congruence.
           ++ injection H as _ ->. exists before, frame, after.
              split; [reflexivity |]. split; [| exact Hd].
              simpl in Hb. apply andb_true_iff in Hb. apply Hb.
      * exact IH3.
    + split; [| split].
      * intros frame. split; [discriminate |].
        intros (before & after & H & Hb). destruct before as [|e0 before]; simpl in H.
        -- discriminate.
        -- injection H as <- _. simpl in Hb. unfold passed_over at 1 in Hb.
           simpl in Hb. rewrite Hdet in Hb. discriminate.
      * intros error. split.
        -- intros H. injection H as <-. exists [], f, rest.
           split; [reflexivity |]. split; [reflexivity | exact Hdet].
        -- intros (before & frame & after & H & Hb & Hd).
           destruct before as [|e0 before]; simpl in H.
           ++ injection H as _ <- _. reflexivity.
           ++ injection H as <- _. simpl in Hb. unfold passed_over at 1 in Hb.
              simpl in Hb. rewrite Hdet in Hb. discriminate.
      * split; discriminate.
Qed.

(** X28: the frame [getCodySidebar] returns is looked up anew after the
    wait has ended.  When it resolves, the wait ended on a lookup that
    found a sidebar, after one sleep for each lookup before it; the
    frame returned is what the next lookup finds, which need not be
    the frame that ended the wait, and it is the main frame of the
    page when that lookup finds no sidebar any more. *)
Theorem getCodySidebar_looks_twice (mainFrame frame : Frame)
    (pages : list (list (Frame * Result string))) (slept : list Z) :
  getCodySidebar mainFrame pages = (slept, Some (inl frame)) ->
  exists seen last,
    pages !! length slept = Some seen /\ pages !! S (length slept) = Some last /\
    Forall (fun frames => findCodySidebarFrame frames = inl None)
      (take (length slept) pages) /\
    (exists found, findCodySidebarFrame seen = inl (Some found)) /\
    (findCodySidebarFrame last = inl (Some frame) \/
     findCodySidebarFrame last = inl None /\ frame = mainFrame).
Proof.
  unfold getCodySidebar, waitUntil. generalize 10%Z as delay. revert slept.
  induction pages as [|page pages IH]; intros slept delay H; simpl in H.
  - discriminate.
  - unfold sidebar_found at 1 in H.
    destruct (findCodySidebarFrame page) as [[found|]|err] eqn:Hp; simpl in H.
    + destruct pages as [|last pages]; [discriminate |].
      injection H as <- H. exists page, last. simpl.
      split; [reflexivity |]. split; [reflexivity |]. split; [constructor |].
      split; [eauto |].
      destruct (findCodySidebarFrame last) as [[fr|]|]; try discriminate.
      * injection H as <-. left. reflexivity.
      * injection H as <-. right. split; reflexivity.
    + destruct (waitUntil_from sidebar_found (shl1 delay) pages) as [sl r] eqn:E.
      simpl in H.
      assert (exists slept', slept = delay :: slept' /\
              match waitUntil_from sidebar_found (shl1 delay) pages with
              | (slept0, Some (inl _, frames :: _)) =>
                  (slept0,
                   Some match findCodySidebarFrame frames with
                        | inl (Some frame) => inl frame
                        | inl None => inl mainFrame
                        | inr error => inr error
                        end)
              | (slept0, Some (inr error, _)) => (slept0, Some (inr error))
              | (slept0, _) => (slept0, None)
              end = (slept', Some (inl frame))) as (slept' & -> & H').
      { rewrite E. destruct r as [[[[]|e] [|fr rest]]|]; simpl in H |- *;
          try discriminate.
        injection H as <- H. exists sl. split; [reflexivity |]. rewrite H. reflexivity. }
      destruct (IH slept' (shl1 delay) H') as (seen & last & H1 & H2 & H3 & H4 & H5).
      exists seen, last. simpl.
      split; [exact H1 |]. split; [exact H2 |].
      split; [constructor; assumption |]. split; assumption.
    + discriminate.
Qed.

End SidebarFacts.

(** ** [escapeToPath] *)

Lemma is_word_escape c : is_word (if is_word c then c else 95%N) = true.
Proof. destruct (is_word c) eqn:E; [exact E | reflexivity]. Qed.

(** X29: [escapeToPath] keeps the length of the text and its word
    characters where they are, and puts an underscore in the place of
    every other UTF-16 code unit, so that the result holds word
    characters only, neither a slash, a backslash, a dot nor a colon
    among them, and escaping it again changes nothing. *)
Theorem escapeToPath_word_characters (text : list N) :
  length (escapeToPath text) = length text /\
  Forall (fun c => is_word c = true) (escapeToPath text) /\
  (forall i c, text !! i = Some c ->
     escapeToPath text !! i = Some (if is_word c then c else 95%N)) /\
  (forall c, In c [47; 92; 46; 58]%N -> ~ In c (escapeToPath text)) /\
  escapeToPath (escapeToPath text) = escapeToPath text.
Proof.
  unfold escapeToPath. split; [apply List.length_map |].
  assert (Hw : Forall (fun c => is_word c = true)
                 (List.map (fun c => if is_word c then c else 95%N) text)).
  { apply List.Forall_forall. intros c Hc. apply in_map_iff in Hc as (x & <- & _).
    apply is_word_escape. }
  split; [exact Hw |]. split; [| split].
  - intros i c Hi. change (List.map ?f text) with (f <$> text).
    rewrite list_lookup_fmap, Hi. reflexivity.
  - intros c Hc Hin. rewrite List.Forall_forall in Hw. specialize (Hw c Hin).
    simpl in Hc. destruct Hc as [<- | [<- | [<- | [<- | []]]]]; discriminate.
  - rewrite List.map_map. apply List.map_ext. intros c.
    destruct (is_word c) eqn:E; [rewrite E; reflexivity | reflexivity].
Qed.

(** X30: two test titles get the same directory name from
    [escapeToPath] exactly when they have the same length and, place
    by place, the same code unit or two code units that are both an
    underscore or not a word character. *)
Theorem escapeToPath_collisions (a b : list N) :
  escapeToPath a = escapeToPath b <->
  Forall2 (fun x y => x = y \/
                      (x = 95%N \/ is_word x = false) /\
                      (y = 95%N \/ is_word y = false)) a b.
Proof.
  unfold escapeToPath. revert b. induction a as [|x a IH]; intros [|y b]; simpl.
  - split; [constructor | reflexivity].
  - split; [discriminate | intros H; inversion H].
  - split; [discriminate | intros H; inversion H].
  - split.
    + intros H. injection H as Hxy Hab. constructor; [| apply IH, Hab].
      destruct (is_word x) eqn:Ex, (is_word y) eqn:Ey; subst; auto.
    + intros H. inversion H as [|? ? ? ? Hxy Hab]; subst. f_equal; [| apply IH, Hab].
      destruct Hxy as [-> | [[-> | Ex] [-> | Ey]]]; try reflexivity.
      * rewrite Ey. reflexivity.
      * rewrite Ex. reflexivity.
      * rewrite Ex, Ey. reflexivity.
Qed.

(** * Runs of the demo host, continued *)

Lemma query_forwards_witness :
  exec (top "query" RValue (query demo_host "needle")) [] new_world =
  log (Returned "query" (RValue (JObject []))) new_world.
Proof.
  apply (proj1 (query_forwards demo_host new_world "needle" 1 (inl JNull) enoent
                  (fun w => w) (fun w => w) [])).
  reflexivity.
Defined.

Lemma getContext_never_rejects_witness :
  exec (top "getContext" RResults (getContext demo_host "needle" 5)) [] new_world =
  log (Returned "getContext" (RResults []))
    (log (LogDebug "returning results") new_world).
Proof.
  apply (proj1 (getContext_never_rejects demo_host new_world "needle" 5 1 (inl JNull)
                  enoent (fun w => w) (fun w => w) [])).
  reflexivity.
Defined.

Lemma start_loads_workspace_witness :
  exec (top "start" (fun _ => RVoid) (start demo_host))
    [(Settled (inl 1), fun w => w); (Settled (inl 1), fun w => w);
     (Replied (inl (JBool true)), fun w => w)] new_world =
  log (Returned "start" RVoid)
    (record_load "/repo" {| indexable := true; isGit := true; hasIndex := true |} true
       (send (Load "/repo")
          (getService_world demo_host
             (getService_world demo_host (log (LogDebug "start") new_world))))).
Proof.
  apply (proj2 (proj2 (start_loads_workspace demo_host new_world 1 1 enoent
                         (inl (JBool true)) (fun w => w) (fun w => w) (fun w => w)))
           "/repo").
  reflexivity.
Defined.

Lemma setAccessToken_effects_witness :
  let w1 := run (call demo_host (CallSetAccessToken "https://sourcegraph.com" None))
              new_world in
  pool w1 = pool new_world /\ promises w1 = promises new_world /\
  last (trace w1) = Some (Returned "setAccessToken" RVoid).
Proof.
  apply (proj2 (proj2 (proj2 (proj2 (proj2
           (setAccessToken_effects demo_host new_world "https://sourcegraph.com" None)))))).
  right. left. reflexivity.
Defined.

Lemma setAccessToken_forwards_witness :
  let w := world_after (start_and_load (inl (JBool false))) in
  exists w0,
    ctl w0 = set_accessToken (Some "fresh")
               (set_endpointIsDotcom (isDotCom demo_host "https://sourcegraph.com") (ctl w)) /\
    pool w0 = pool w /\ requests w0 = requests w /\
    exec (call demo_host (CallSetAccessToken "https://sourcegraph.com" (Some "fresh")))
      [(Settled (inl 1), fun x => x); (Replied (inl JNull), fun x => x)] w =
    log (Returned "setAccessToken" RVoid)
      (send (SetToken "fresh") (getService_world demo_host w0)).
Proof.
  apply (setAccessToken_forwards demo_host
           (world_after (start_and_load (inl (JBool false))))
           "https://sourcegraph.com" "fresh" 1 (inl JNull) (fun x => x) (fun x => x)).
  - discriminate.
  - vm_compute. discriminate.
  - vm_compute. reflexivity.
Defined.

Lemma progress_only_touches_indicator_witness :
  let w := world_after start_indexing in
  let w' := run (notified demo_host (NObject (Some (mkProgress 50 100 "main.c")) None)) w in
  set_statusBar (statusBar (ctl w)) (ctl w') = ctl w /\
  promises w' = promises w /\ pool w' = pool w /\ requests w' = requests w /\
  count is_status_changed (trace w') = count is_status_changed (trace w) /\
  count is_controller_changed (trace w') = count is_controller_changed (trace w) /\
  status demo_host (ctl w') = status demo_host (ctl w) /\
  (statusBar (ctl w') = None <-> statusBar (ctl w) = None).
Proof.
  apply (progress_only_touches_indicator demo_host (world_after start_indexing)
           (NObject (Some (mkProgress 50 100 "main.c")) None)).
  discriminate.
Defined.

Lemma error_notification_warns_witness :
  let w := world_after start_indexing in
  let w' := run (notified demo_host (NObject None (Some "disk full"))) w in
  statusBar (ctl w') =
    Some {| text := "$(warning) Cody Embeddings";
            backgroundColor := Some "statusBarItem.warningBackground";
            tooltip := Some "disk full";
            shown := true |} /\
  pathBeingIndexed (ctl w') = pathBeingIndexed (ctl w) /\
  trace w' = trace w.
Proof.
  apply (error_notification_warns demo_host (world_after start_indexing)
           createStatusBarItem "disk full").
  vm_compute. reflexivity.
Defined.

Lemma index_outcomes_witness :
  let w := world_after (start_and_load (inl (JBool false))) in
  exec (call demo_host CallIndex) [(Settled (inr enoent), fun x => x)] w =
  log (Returned "index" RVoid)
    (log (LogDebug "index: failed")
       (log (CaptureException enoent)
          (getService_world demo_host (log (LogDebug "index: Starting repository") w)))).
Proof.
  apply (index_outcomes demo_host (world_after (start_and_load (inl (JBool false))))
           {| path := "/repo"; loadResult := false |} 1 (inl JNull) enoent
           (fun x => x) (fun x => x)).
  - vm_compute. reflexivity.
  - vm_compute. reflexivity.
Defined.

Lemma load_outcome_status_witness :
  status demo_host
    (ctl (exec (top "eagerlyLoad" RBool (eagerlyLoad demo_host "/repo"))
            [(Settled (inl 1), fun x => x); (Replied (inr not_git), fun x => x)]
            (world_after (start_and_load (inl (JBool false)))))) =
  if regex_test "does not appear to be a git repository" (message not_git) then []
  else if String.eqb (message not_git)
            "repository does not have a default fetch URL, so can't be named for an index"
  then [mkGroup "/repo" [local_embeddings no_match]]
  else [mkGroup "/repo" [local_embeddings unconsented]].
Proof.
  apply (load_outcome_status demo_host (world_after (start_and_load (inl (JBool false))))
           "/repo" 1 (inr not_git) (fun x => x) (fun x => x)).
  - discriminate.
  - vm_compute. reflexivity.
  - vm_compute. discriminate.
Defined.

Lemma index_then_status_witness :
  status demo_host
    (ctl (exec (call demo_host CallIndex)
            [(Settled (inl 1), fun x => x); (Replied (inl JNull), fun x => x)]
            (world_after (start_and_load (inl (JBool false)))))) =
  [mkGroup "/repo" [local_embeddings indexing]].
Proof.
  apply (index_then_status demo_host (world_after (start_and_load (inl (JBool false))))
           {| path := "/repo"; loadResult := false |}
           {| path := "/repo"; loadResult := false |} 1 JNull (fun x => x) (fun x => x)).
  - vm_compute. reflexivity.
  - vm_compute. reflexivity.
  - vm_compute. reflexivity.
  - vm_compute. reflexivity.
  - reflexivity.
Defined.

Lemma spawn_handshake_witness :
  let w := alloc new_world in
  let w' := exec (spawn_task demo_host 0)
              [(Spawned (Started 1), fun x => x); (Replied (inl JNull), fun x => x);
               (Replied (inl JNull), fun x => x)] w in
  exists indexPath appIndexPath,
    (forall o, path_override demo_host = Some o -> indexPath = o) /\
    (path_override demo_host = None ->
     indexPath = "/home/dev/.cache/com.sourcegraph.cody/embeddings") /\
    (appIndexPath = None <-> platform demo_host = "win32") /\
    events (trace w') =
      [SpawnBfgCalled 0; RegisterNotification;
       Sent 0 (Initialize (endpoint demo_host) indexPath appIndexPath);
       ControllerChanged] /\
    ctl w' = set_serviceStarted true (ctl w) /\
    promises w' = [Some (inl 1)] /\
    pool w' = pool w.
Proof.
  apply (spawn_handshake demo_host (alloc new_world) 0 1 JNull JNull).
  reflexivity.
Defined.

Lemma spawn_failures_witness :
  let w := alloc new_world in
  exists init,
    (let w' := exec (spawn_task demo_host 0)
                 [(Spawned (Started 1), fun x => x); (Replied (inr enoent), fun x => x)] w in
     ctl w' = ctl w /\ promises w' = settle_in 0 (inr enoent) (promises w) /\
     pool w' = pool w /\
     count is_controller_changed (trace w') = count is_controller_changed (trace w) /\
     events (trace w') =
       (events (trace w) ++
        [SpawnBfgCalled (spawns w); RegisterNotification; Sent (requests w) init])%list) /\
    (accessToken (ctl w) = Some "tok" -> "tok" <> EmptyString ->
     let w' := exec (spawn_task demo_host 0)
                 [(Spawned (Started 1), fun x => x); (Replied (inl JNull), fun x => x);
                  (Replied (inr enoent), fun x => x)] w in
     ctl w' = ctl w /\ promises w' = settle_in 0 (inr enoent) (promises w) /\
     pool w' = pool w /\
     count is_controller_changed (trace w') = count is_controller_changed (trace w) /\
     events (trace w') =
       (events (trace w) ++
        [SpawnBfgCalled (spawns w); RegisterNotification; Sent (requests w) init;
         Sent (S (requests w)) (SetToken "tok")])%list).
Proof.
  apply (proj2 (proj2 (proj2 (spawn_failures demo_host (alloc new_world) 0 1 enoent
                                JNull "tok")))).
  reflexivity.
Defined.

Lemma token_set_while_starting_witness :
  let w := world_after [Invoke (CallSetAccessToken "https://sourcegraph.com" (Some "old"))] in
  let keep := fun x : World => x in
  let set := run (call demo_host (CallSetAccessToken "https://sourcegraph.com" (Some "new"))) in
  let early := exec (spawn_task demo_host 0)
                 [(Spawned (Started 1), keep); (Replied (inl JNull), set);
                  (Replied (inl JNull), keep)] w in
  let late := exec (spawn_task demo_host 0)
                [(Spawned (Started 1), keep); (Replied (inl JNull), keep);
                 (Replied (inl JNull), set)] w in
  (accessToken (ctl early) = Some "new" /\ serviceStarted (ctl early) = true /\
   count (is_set_token "new") (trace early) = S (count (is_set_token "new") (trace w)) /\
   count (is_set_token "old") (trace early) = count (is_set_token "old") (trace w)) /\
  (accessToken (ctl late) = Some "new" /\ serviceStarted (ctl late) = true /\
   count (is_set_token "new") (trace late) = count (is_set_token "new") (trace w) /\
   count (is_set_token "old") (trace late) = S (count (is_set_token "old") (trace w)) /\
   count is_request (trace (set late)) = count is_request (trace late)).
Proof.
  apply (token_set_while_starting demo_host
           (world_after [Invoke (CallSetAccessToken "https://sourcegraph.com" (Some "old"))])
           0 1 JNull JNull "https://sourcegraph.com" "old" "new").
  - reflexivity.
  - vm_compute. reflexivity.
  - discriminate.
  - discriminate.
  - discriminate.
  - vm_compute. reflexivity.
Defined.

Lemma indicator_iff_indexing_witness :
  statusBar (ctl (world_after start_indexing)) = None <->
  pathBeingIndexed (ctl (world_after start_indexing)) = None.
Proof.
  apply (indicator_iff_indexing demo_host (world_after start_indexing)).
  apply world_after_reachable. vm_compute. eexists. reflexivity.
Defined.

Lemma indexing_has_engine_witness :
  "/repo" <> EmptyString /\
  exists q bfg, service (ctl (world_after start_indexing)) = Some q /\
                promises (world_after start_indexing) !! q = Some (Some (inl bfg)).
Proof.
  apply (indexing_has_engine demo_host (world_after start_indexing) "/repo").
  - apply world_after_reachable. vm_compute. eexists. reflexivity.
  - vm_compute. reflexivity.
Defined.

Lemma service_assigned_once_witness :
  let w := world_after initialize_fails in
  let w' := world_after (initialize_fails ++ [Invoke CallStart; Microtask 0]) in
  service (ctl w') = Some 0 /\
  count is_spawn (trace w') = count is_spawn (trace w) /\
  (forall q r, promises w !! q = Some (Some r) -> promises w' !! q = Some (Some r)).
Proof.
  apply (service_assigned_once demo_host [Invoke CallStart; Microtask 0]
           (world_after initialize_fails)
           (world_after (initialize_fails ++ [Invoke CallStart; Microtask 0])) 0).
  - apply world_after_reachable. vm_compute. eexists. reflexivity.
  - vm_compute. reflexivity.
  - vm_compute. reflexivity.
Defined.

Lemma waitUntil_backoff_witness :
  (2 < 28 -> 40%Z = (10 * 2 ^ Z.of_nat 2)%Z) /\
  (2 = 28 -> 40%Z = (-1610612736)%Z) /\
  (2 = 29 -> 40%Z = 1073741824%Z) /\
  (2 = 30 -> 40%Z = (-2147483648)%Z) /\
  (31 <= 2 -> 40%Z = 0%Z).
Proof.
  apply (waitUntil_backoff (fun ready : bool => inl ready) [false; false; false; true] 2 40).
  reflexivity.
Defined.

Lemma waitUntil_ends_witness :
  let predicate := fun ready : bool => @inl bool JsError ready in
  snd (waitUntil predicate [false; false]) = None /\
  length (fst (waitUntil predicate [false; false])) = 2 /\
  (predicate true = inl true ->
   waitUntil predicate ([false; false] ++ true :: [false]) =
   (fst (waitUntil predicate [false; false]), Some (inl tt, [false]))) /\
  (predicate true = inr enoent ->
   waitUntil predicate ([false; false] ++ true :: [false]) =
   (fst (waitUntil predicate [false; false]), Some (inr enoent, [false]))).
Proof.
  apply (waitUntil_ends (fun ready : bool => inl ready) [false; false] [false] true enoent).
  repeat constructor.
Defined.

Lemma getCodySidebar_looks_twice_witness :
  let pages := [[(1, inl "Welcome")];
                [(1, inl "Welcome"); (2, inl "Cody")];
                [(1, inl "Welcome")]] in
  exists seen last,
    pages !! 1 = Some seen /\ pages !! 2 = Some last /\
    Forall (fun frames => findCodySidebarFrame frames = inl None) (take 1 pages) /\
    (exists found, findCodySidebarFrame seen = inl (Some found)) /\
    (findCodySidebarFrame last = inl (Some 0) \/
     findCodySidebarFrame last = inl None /\ 0 = 0).
Proof.
  apply (getCodySidebar_looks_twice 0 0
           [[(1, inl "Welcome")]; [(1, inl "Welcome"); (2, inl "Cody")];
            [(1, inl "Welcome")]] [10%Z]).
  reflexivity.
Defined.

Lemma engine_spawned_at_most_once_witness :
  let w := world_after start_indexing in
  count is_spawn (trace w) = length (promises w) /\
  count is_spawn (trace w) <= 1 /\
  (service (ctl w) = None <-> count is_spawn (trace w) = 0).
Proof.
  apply (engine_spawned_at_most_once demo_host (world_after start_indexing)).
  apply world_after_reachable. vm_compute. eexists. reflexivity.
Defined.

Lemma started_iff_engine_ready_witness :
  let w := world_after start_indexing in
  serviceStarted (ctl w) = true <->
  exists q bfg, service (ctl w) = Some q /\ promises w !! q = Some (Some (inl bfg)).
Proof.
  apply (started_iff_engine_ready demo_host (world_after start_indexing)).
  apply world_after_reachable. vm_compute. eexists. reflexivity.
Defined.

Lemma initialize_comes_first_witness :
  let before :=
    [LogDebug "start"; SpawnBfgCalled 0; RegisterNotification;
     LogDebug "spawnAndBindService: service started, initializing";
     LogDebug "spawnAndBindService: index library paths"] in
  let req :=
    Initialize "https://cody-gateway.sourcegraph.com/v1/embeddings"
      "/home/dev/.cache/com.sourcegraph.cody/embeddings"
      (Some "/home/dev/.cache/com.sourcegraph.cody/blobstore/buckets/embeddings") in
  0 = count is_request before /\
  (is_initialize req = true <-> count is_request before = 0).
Proof.
  apply (initialize_comes_first demo_host (world_after initialize_fails)
           [LogDebug "start"; SpawnBfgCalled 0; RegisterNotification;
            LogDebug "spawnAndBindService: service started, initializing";
            LogDebug "spawnAndBindService: index library paths"]
           [Threw "start" enoent] 0).
  - apply world_after_reachable. vm_compute. eexists. reflexivity.
  - vm_compute. reflexivity.
Defined.

Lemma failed_startup_is_final_witness :
  let w := world_after initialize_fails in
  let w' := world_after (initialize_fails ++
                         [Invoke (CallSetAccessToken "https://sourcegraph.com" (Some "tok"));
                          Invoke (CallQuery "needle"); Microtask 0]) in
  count is_request (trace w') = count is_request (trace w) /\
  serviceStarted (ctl w') = false /\
  promises w' !! 0 = Some (Some (inr enoent)).
Proof.
  apply (failed_startup_is_final demo_host
           [Invoke (CallSetAccessToken "https://sourcegraph.com" (Some "tok"));
            Invoke (CallQuery "needle"); Microtask 0]
           (world_after initialize_fails)).
  - apply world_after_reachable. vm_compute. eexists. reflexivity.
  - vm_compute. reflexivity.
  - vm_compute. reflexivity.
Defined.

Lemma lastRepo_matches_repoState_witness :
  let w := world_after (start_and_load (inl (JBool true))) in
  exists s,
    repoState (ctl w) !! "/repo" = Some s /\ hasIndex s = true /\
    (true = true -> indexable s = true /\ isGit s = true).
Proof.
  apply (lastRepo_matches_repoState demo_host
           (world_after (start_and_load (inl (JBool true))))
           {| path := "/repo"; loadResult := true |}).
  - apply world_after_reachable. vm_compute. eexists. reflexivity.
  - vm_compute. reflexivity.
Defined.

Lemma token_never_empty_witness :
  accessToken (ctl (world_after
                      [Invoke (CallSetAccessToken "https://sourcegraph.com"
                                 (Some EmptyString))])) <> Some EmptyString.
Proof.
  apply (token_never_empty demo_host).
  apply world_after_reachable. vm_compute. eexists. reflexivity.
Defined.

Lemma ready_means_indexed_witness :
  let w := world_after (start_and_load (inl (JBool true))) in
  exists last s,
    lastRepo (ctl w) = Some last /\ loadResult last = true /\
    repoState (ctl w) !! path last = Some s /\
    hasIndex s = true /\ indexable s = true /\ isGit s = true /\
    (path last <> EmptyString -> "/repo" = path last).
Proof.
  apply (ready_means_indexed demo_host (world_after (start_and_load (inl (JBool true))))).
  - apply world_after_reachable. vm_compute. eexists. reflexivity.
  - vm_compute. reflexivity.
Defined.

Lemma load_reaches_engine_witness :
  let w := world_after (start_and_load (inl (JBool true))) in
  exists w',
    deliver_all demo_host
      [Invoke (CallLoad (Some "/elsewhere")); Microtask (length (pool w))] w = Some w' /\
    trace w' = (trace w ++ [Sent (requests w) (Load "/elsewhere")])%list /\
    ctl w' = ctl w /\
    exists K, pool w' = (pool w ++ [WaitReply (requests w) K])%list.
Proof.
  apply (load_reaches_engine demo_host (world_after (start_and_load (inl (JBool true))))
           "/elsewhere").
  - apply world_after_reachable. vm_compute. eexists. reflexivity.
  - vm_compute. reflexivity.
  - discriminate.
  - intros s H. vm_compute in H. discriminate.
  - vm_compute. reflexivity.
Defined.
